(** * GraphOptim rotation averaging: a shallow embedding

    The development follows these translation units of the repository:

    - [solver/l1_solver.h]: the ADMM solver for [min ||A x - b||_1]
      (module [L1]);
    - [rotation_averaging/irls_rotation_local_refiner.cc]: the IRLS
      refiner (module [IRLS]);
    - [rotation_averaging/lagrange_dual_rotation_estimator.cc]: the
      Lagrange-dual (SDP) estimator (module [LagrangeDual]);
    - [util/types.h]: the identifiers and the hash of a pair of them
      (modules [Types] and [PairHash]);
    - [graph/graph_cut.cc]: the Graclus graph and the normalized cut
      (module [GraphCut]).

    Conventions.  A C++ [double] is read as a real number of [R]: the
    theorems are about the formulas the code evaluates, not about
    rounding, NaN or infinities.  An [Eigen::VectorXd] is a [list R]; a
    matrix is its dimensions together with its coefficient function; an
    [std::unordered_map] is an association list in the map's iteration
    order.  A [CHECK_*] that fails, a [FindOrDie] that dies, a segment
    outside its vector, a block or a triplet outside its matrix (Eigen's
    range assertions) and a null pointer that is dereferenced are results
    of their own ([outcome]).  Classes whose code is not part of these
    files (the sparse Cholesky adapter, the SDP backends, Spectra, ceres)
    are taken as parameters of the sections that use them; the module
    [Fixture] has small concrete ones for the examples. *)

From Stdlib Require Import Reals Lra Lia List ZArith Bool Arith.
Import ListNotations.

Local Open Scope R_scope.

(* ================================================================== *)
(** * Results of a call *)
(* ================================================================== *)

Inductive outcome (A : Type) : Type :=
| Ret (a : A)            (* the call returns *)
| CheckFailed            (* a CHECK, FindOrDie or assertion aborts the process *)
| NullDereference.       (* a null unique_ptr is dereferenced *)

Arguments Ret {A} a.
Arguments CheckFailed {A}.
Arguments NullDereference {A}.

Definition bind {A B : Type} (m : outcome A) (k : A -> outcome B) : outcome B :=
  match m with
  | Ret a => k a
  | CheckFailed => CheckFailed
  | NullDereference => NullDereference
  end.

Notation "x <- m ;; k" := (bind m (fun x => k))
  (at level 61, m at next level, right associativity).
Notation "' p <- m ;; k" := (bind m (fun p => k))
  (at level 61, p pattern, m at next level, right associativity).

(** [CHECK(c)]: go on when [c] holds, abort otherwise. *)
Definition CHECK (c : bool) : outcome unit :=
  if c then Ret tt else CheckFailed.

(** Comparisons of doubles, as booleans. *)
Definition Rltb (x y : R) : bool := if Rlt_dec x y then true else false.

(* ================================================================== *)
(** * Eigen: vectors and matrices *)
(* ================================================================== *)

Module Eigen.

(** [Eigen::ComputationInfo]. *)
Inductive ComputationInfo : Type :=
| Success | NumericalIssue | NoConvergence | InvalidInput.

Definition is_Success (i : ComputationInfo) : bool :=
  match i with Success => true | _ => false end.

Definition VectorXd : Type := list R.
Definition Vector3d : Type := (R * R * R)%type.

Definition Zero3 : Vector3d := (0, 0, 0).

(** [v(i)] *)
Definition coeff (v : VectorXd) (i : nat) : R := nth i v 0.

(** [v.segment<3>(s)] read. *)
Definition segment3 (v : VectorXd) (s : nat) : Vector3d :=
  (coeff v s, coeff v (s + 1), coeff v (s + 2)).

(** [v.segment<3>(s).setConstant(w)]: entries [s], [s+1], [s+2] become
    [w]; positions beyond the end of the storage do not exist. *)
Fixpoint set_coeff (v : VectorXd) (i : nat) (w : R) : VectorXd :=
  match v, i with
  | [], _ => []
  | _ :: t, O => w :: t
  | h :: t, S j => h :: set_coeff t j w
  end.

Definition segment3_setConstant (v : VectorXd) (s : nat) (w : R) : VectorXd :=
  set_coeff (set_coeff (set_coeff v s w) (s + 1) w) (s + 2) w.

Definition squaredNorm3 (v : Vector3d) : R :=
  let '(x, y, z) := v in x * x + y * y + z * z.

Definition norm3 (v : Vector3d) : R := sqrt (squaredNorm3 v).

Definition neg3 (v : Vector3d) : Vector3d :=
  let '(x, y, z) := v in (- x, - y, - z).

(** Sum of the entries of a list. *)
Definition sum (l : list R) : R := fold_right Rplus 0 l.

Definition squaredNorm (v : VectorXd) : R := sum (map (fun x => x * x) v).
Definition norm (v : VectorXd) : R := sqrt (squaredNorm v).

(** Coefficient-wise operations; both operands have the same size in every
    call of the code. *)
Fixpoint zipWith (f : R -> R -> R) (a b : VectorXd) : VectorXd :=
  match a, b with
  | x :: a', y :: b' => f x y :: zipWith f a' b'
  | _, _ => []
  end.

Definition vadd : VectorXd -> VectorXd -> VectorXd := zipWith Rplus.
Definition vsub : VectorXd -> VectorXd -> VectorXd := zipWith Rminus.
Definition vscale (c : R) (v : VectorXd) : VectorXd := map (Rmult c) v.
Definition setZero (n : nat) : VectorXd := repeat 0 n.

(** A matrix: [rows()], [cols()] and [coeff(i, j)]. *)
Record Matrix : Type := mkMatrix {
  rows : nat;
  cols : nat;
  coef : nat -> nat -> R
}.

(** [sum_{k < n} f k] *)
Definition sum_upto (n : nat) (f : nat -> R) : R := sum (map f (seq 0 n)).

Definition transpose (m : Matrix) : Matrix :=
  mkMatrix (cols m) (rows m) (fun i j => coef m j i).

Definition mat_vec (m : Matrix) (x : VectorXd) : VectorXd :=
  map (fun i => sum_upto (cols m) (fun j => coef m i j * coeff x j))
      (seq 0 (rows m)).

Definition mat_mul (a b : Matrix) : Matrix :=
  mkMatrix (rows a) (cols b)
           (fun i j => sum_upto (cols a) (fun k => coef a i k * coef b k j)).

Definition mscale (c : R) (m : Matrix) : Matrix :=
  mkMatrix (rows m) (cols m) (fun i j => c * coef m i j).

Definition mneg (m : Matrix) : Matrix := mscale (-1) m.

Definition msub (a b : Matrix) : Matrix :=
  mkMatrix (rows a) (cols a) (fun i j => coef a i j - coef b i j).

(** [v.asDiagonal()] *)
Definition asDiagonal (v : VectorXd) : Matrix :=
  mkMatrix (length v) (length v)
           (fun i j => if Nat.eqb i j then coeff v i else 0).

Definition Identity (n : nat) : Matrix :=
  mkMatrix n n (fun i j => if Nat.eqb i j then 1 else 0).

(** [m.block(r, c, 3, 3)], with Eigen's assertion that the block lies
    inside the matrix. *)
Definition in_block33 (m : Matrix) (r c : Z) : bool :=
  (0 <=? r)%Z && (r + 3 <=? Z.of_nat (rows m))%Z
  && (0 <=? c)%Z && (c + 3 <=? Z.of_nat (cols m))%Z.

Definition block33 (m : Matrix) (r c : Z) : outcome Matrix :=
  if in_block33 m r c then
    Ret (mkMatrix 3 3 (fun i j => coef m (Z.to_nat r + i) (Z.to_nat c + j)))
  else CheckFailed.

(** Determinant of a 3x3 matrix (cofactor expansion along the first row). *)
Definition determinant3 (m : Matrix) : R :=
  coef m 0 0 * (coef m 1 1 * coef m 2 2 - coef m 1 2 * coef m 2 1)
  - coef m 0 1 * (coef m 1 0 * coef m 2 2 - coef m 1 2 * coef m 2 0)
  + coef m 0 2 * (coef m 1 0 * coef m 2 1 - coef m 1 1 * coef m 2 0).

(** [Eigen::Triplet<double>(row, col, value)], with [int] indices, and
    [setFromTriplets] on a matrix of [n] rows and [m] columns: Eigen
    asserts that every triplet lies inside the matrix; the coefficient at
    [(i, j)] is then the sum of the values of all the triplets at
    [(i, j)] (duplicates are summed up). *)
Definition Triplet : Type := (Z * Z * R)%type.

Definition triplet_at (i j : nat) (t : Triplet) : R :=
  let '(r, c, v) := t in
  if (r =? Z.of_nat i)%Z && (c =? Z.of_nat j)%Z then v else 0.

Definition triplet_in_range (n m : nat) (t : Triplet) : bool :=
  let '(r, c, _) := t in
  (0 <=? r)%Z && (r <? Z.of_nat n)%Z && (0 <=? c)%Z && (c <? Z.of_nat m)%Z.

Definition setFromTriplets (n m : nat) (ts : list Triplet) : outcome Matrix :=
  if forallb (triplet_in_range n m) ts then
    Ret (mkMatrix n m (fun i j => sum (map (triplet_at i j) ts)))
  else CheckFailed.

End Eigen.

Import Eigen.

(* ================================================================== *)
(** * The sparse Cholesky adapter (an external collaborator) *)
(* ================================================================== *)

Module Cholesky.

(** The interface of [SparseCholeskyLLt] as the three translation units
    use it.  [math/sparse_cholesky_llt.h] is not among the files, so an
    implementation is a parameter: [LLt] is the state of a solver object,
    [Info] is the status of the last [AnalyzePattern], [Factorize] or
    [Compute], and [Solve] gives the solution together with the status
    that [Info()] reports right after it; [Solve] leaves the factor as it
    is. *)
Record SparseCholeskyLLt : Type := {
  LLt : Type;
  Create : LLt;
  AnalyzePattern : LLt -> Matrix -> LLt;
  Factorize : LLt -> Matrix -> LLt;
  Compute : LLt -> Matrix -> LLt;
  Solve : LLt -> VectorXd -> VectorXd * ComputationInfo;
  Info : LLt -> ComputationInfo
}.

(** Modelled from the spec: "[Solve(b)] returns [M^-1 b]".  The object
    [ls] is an exact factor of [M] when every solve succeeds and returns
    a solution of [M y = rhs]. *)
Definition exact_factor (chol : SparseCholeskyLLt) (ls : LLt chol) (M : Matrix) : Prop :=
  forall rhs : VectorXd,
    length rhs = rows M ->
    exists y : VectorXd,
      Solve chol ls rhs = (y, Success) /\ length y = cols M /\ mat_vec M y = rhs.

End Cholesky.

(* ================================================================== *)
(** * solver/l1_solver.h *)
(* ================================================================== *)

Module L1.

Record Options : Type := {
  max_num_iterations : Z;
  rho : R;
  alpha : R;
  absolute_tolerance : R;
  relative_tolerance : R
}.

Definition default_Options : Options :=
  {| max_num_iterations := 1000;
     rho := 1;
     alpha := 1;
     absolute_tolerance := 1e-4;
     relative_tolerance := 1e-2 |}.

(** [L1Solver::Shrinkage]:
    [zero_vec.max(vec.array() - kappa) - zero_vec.max(-vec.array() - kappa)]. *)
Definition Shrinkage (vec : VectorXd) (kappa : R) : VectorXd :=
  let zero_vec := setZero (length vec) in
  vsub (zipWith Rmax zero_vec (map (fun v => v - kappa) vec))
       (zipWith Rmax zero_vec (map (fun v => - v - kappa) vec)).

(** The soft threshold in the words of the specification:
    [shrink(v, kappa) = sign(v) * max(|v| - kappa, 0)]. *)
Definition sign (v : R) : R :=
  if Rlt_dec 0 v then 1 else if Rlt_dec v 0 then -1 else 0.

Definition shrink (v kappa : R) : R := sign v * Rmax (Rabs v - kappa) 0.

(** [std::max] of a non-empty initializer list. *)
Definition max_of (h : R) (t : list R) : R := fold_left Rmax t h.

Section Solver.

Variable chol : Cholesky.SparseCholeskyLLt.

(** Content of a freshly allocated, not yet assigned [VectorXd] of a given
    size. *)
Variable uninitialized : nat -> VectorXd.

Record L1Solver : Type := {
  options_ : Options;
  a_ : Matrix;
  linear_solver_ : Cholesky.LLt chol
}.

(** The constructor: factorize [A^T A] once, [CHECK_EQ] the status. *)
Definition make (options : Options) (mat : Matrix) : outcome L1Solver :=
  let spd_mat := mat_mul (transpose mat) mat in
  let ls := Cholesky.Compute chol (Cholesky.Create chol) spd_mat in
  _ <- CHECK (is_Success (Cholesky.Info chol ls)) ;;
  Ret {| options_ := options; a_ := mat; linear_solver_ := ls |}.

Definition SetMaxIterations (s : L1Solver) (max_iterations : Z) : L1Solver :=
  {| options_ :=
       {| max_num_iterations := max_iterations;
          rho := rho (options_ s);
          alpha := alpha (options_ s);
          absolute_tolerance := absolute_tolerance (options_ s);
          relative_tolerance := relative_tolerance (options_ s) |};
     a_ := a_ s;
     linear_solver_ := linear_solver_ s |}.

(** The vectors that live across iterations of [Solve]. *)
Record admm_state : Type := {
  x : VectorXd;
  z : VectorXd;
  u : VectorXd;
  z_old : VectorXd
}.

(** How one pass through the loop body ends. *)
Inductive body_result : Type :=
| BodyReturn (st : admm_state)     (* [return]: the Cholesky solve failed *)
| BodyBreak (st : admm_state)      (* [break]: the minimizer has converged *)
| BodyNext (st : admm_state).      (* fall through to the next iteration *)

(** The right-hand side given to the Cholesky solve. *)
Definition x_rhs (s : L1Solver) (rhs : VectorXd) (st : admm_state) : VectorXd :=
  mat_vec (transpose (a_ s)) (vsub (vadd rhs (z st)) (u st)).

(** The state at the convergence test, once [x] has been solved for. *)
Definition admm_update (s : L1Solver) (rhs : VectorXd) (st : admm_state)
           (x' : VectorXd) : admm_state :=
  let o := options_ s in
  let a_times_x := mat_vec (a_ s) x' in
  let ax_hat := vscale (alpha o) a_times_x in
  let ax_hat := vadd ax_hat (vscale (1 - alpha o) (vadd (z st) rhs)) in
  (* std::swap(z, z_old) *)
  let z_old' := z st in
  let z' := Shrinkage (vadd (vsub ax_hat rhs) (u st)) (1 / rho o) in
  let u' := vadd (u st) (vsub (vsub ax_hat z') rhs) in
  {| x := x'; z := z'; u := u'; z_old := z_old' |}.

(** The convergence terms as the code computes them. *)
Definition r_norm (s : L1Solver) (rhs : VectorXd) (st : admm_state) : R :=
  norm (vsub (vsub (mat_vec (a_ s) (x st)) (z st)) rhs).

Definition s_norm (s : L1Solver) (st : admm_state) : R :=
  norm (mat_vec (mscale (- rho (options_ s)) (transpose (a_ s)))
                (vsub (z st) (z_old st))).

Definition primal_eps (s : L1Solver) (rhs : VectorXd) (st : admm_state) : R :=
  let primal_abs_tolerance_eps :=
    sqrt (INR (rows (a_ s))) * absolute_tolerance (options_ s) in
  let max_norm := max_of (norm (mat_vec (a_ s) (x st))) [norm (z st); norm rhs] in
  primal_abs_tolerance_eps + relative_tolerance (options_ s) * max_norm.

Definition dual_eps (s : L1Solver) (st : admm_state) : R :=
  let dual_abs_tolerance_eps :=
    sqrt (INR (cols (a_ s))) * absolute_tolerance (options_ s) in
  dual_abs_tolerance_eps +
  relative_tolerance (options_ s) *
  norm (mat_vec (mscale (rho (options_ s)) (transpose (a_ s))) (u st)).

Definition body (s : L1Solver) (rhs : VectorXd) (st : admm_state) : body_result :=
  let '(x', info) := Cholesky.Solve chol (linear_solver_ s) (x_rhs s rhs st) in
  if negb (is_Success info) then
    BodyReturn {| x := x'; z := z st; u := u st; z_old := z_old st |}
  else
    let st' := admm_update s rhs st x' in
    if Rltb (r_norm s rhs st') (primal_eps s rhs st')
       && Rltb (s_norm s st') (dual_eps s st')
    then BodyBreak st'
    else BodyNext st'.

(** Why the loop was left. *)
Inductive exit : Type :=
| Converged        (* both residual tests passed *)
| SolveFailed      (* the Cholesky solve reported a failure *)
| IterationCap.    (* [i] reached [max_num_iterations] *)

(** The result of [Solve]: the final vectors (the caller sees [x]), why
    the loop was left and how many passes reached the convergence test. *)
Record run : Type := {
  final : admm_state;
  left_by : exit;
  iterations : nat
}.

(** [for (int i = 0; i < max_num_iterations; i++)], with [n] passes to go. *)
Fixpoint loop (s : L1Solver) (rhs : VectorXd) (n : nat) (st : admm_state) : run :=
  match n with
  | O => {| final := st; left_by := IterationCap; iterations := 0 |}
  | S n' =>
      match body s rhs st with
      | BodyReturn st' =>
          {| final := st'; left_by := SolveFailed; iterations := 0 |}
      | BodyBreak st' =>
          {| final := st'; left_by := Converged; iterations := 1 |}
      | BodyNext st' =>
          let r := loop s rhs n' st' in
          {| final := final r; left_by := left_by r;
             iterations := S (iterations r) |}
      end
  end.

Definition Solve (s : L1Solver) (rhs : VectorXd) (solution : VectorXd) : run :=
  let m := rows (a_ s) in
  loop s rhs (Z.to_nat (max_num_iterations (options_ s)))
       {| x := solution; z := setZero m; u := setZero m;
          z_old := uninitialized m |}.

(** ** The stopping rule in the words of the specification *)

Definition spec_primal_residual (s : L1Solver) (rhs : VectorXd) (st : admm_state) : R :=
  norm (vsub (vsub (mat_vec (a_ s) (x st)) (z st)) rhs).

Definition spec_dual_residual (s : L1Solver) (st : admm_state) : R :=
  norm (vscale (rho (options_ s))
               (mat_vec (transpose (a_ s)) (vsub (z st) (z_old st)))).

Definition spec_eps_primal (s : L1Solver) (rhs : VectorXd) (st : admm_state) : R :=
  sqrt (INR (rows (a_ s))) * absolute_tolerance (options_ s)
  + relative_tolerance (options_ s)
    * Rmax (Rmax (norm (mat_vec (a_ s) (x st))) (norm (z st))) (norm rhs).

Definition spec_eps_dual (s : L1Solver) (st : admm_state) : R :=
  sqrt (INR (cols (a_ s))) * absolute_tolerance (options_ s)
  + relative_tolerance (options_ s)
    * norm (vscale (rho (options_ s)) (mat_vec (transpose (a_ s)) (u st))).

Definition spec_converged (s : L1Solver) (rhs : VectorXd) (st : admm_state) : Prop :=
  spec_primal_residual s rhs st < spec_eps_primal s rhs st /\
  spec_dual_residual s st < spec_eps_dual s st.

(** A run of at most [n] iterations from [st]: the iteration solves for
    [x]; a failed solve ends the run at once; otherwise the vectors are
    updated and the run ends there when the stopping rule holds, and goes
    on when it does not. *)
Inductive admm_run (s : L1Solver) (rhs : VectorXd) :
  nat -> admm_state -> admm_state -> exit -> nat -> Prop :=
| run_cap st :
    admm_run s rhs 0 st st IterationCap 0
| run_failed n st x' info :
    Cholesky.Solve chol (linear_solver_ s) (x_rhs s rhs st) = (x', info) ->
    info <> Success ->
    admm_run s rhs (S n) st
             {| x := x'; z := z st; u := u st; z_old := z_old st |}
             SolveFailed 0
| run_converged n st x' :
    Cholesky.Solve chol (linear_solver_ s) (x_rhs s rhs st) = (x', Success) ->
    spec_converged s rhs (admm_update s rhs st x') ->
    admm_run s rhs (S n) st (admm_update s rhs st x') Converged 1
| run_next n st x' st'' e k :
    Cholesky.Solve chol (linear_solver_ s) (x_rhs s rhs st) = (x', Success) ->
    ~ spec_converged s rhs (admm_update s rhs st x') ->
    admm_run s rhs n (admm_update s rhs st x') st'' e k ->
    admm_run s rhs (S n) st st'' e (S k).

End Solver.

Arguments options_ {chol} _.
Arguments a_ {chol} _.
Arguments linear_solver_ {chol} _.
Arguments SetMaxIterations {chol} _ _.
Arguments x_rhs {chol} _ _ _.
Arguments admm_update {chol} _ _ _ _.
Arguments r_norm {chol} _ _ _.
Arguments s_norm {chol} _ _.
Arguments primal_eps {chol} _ _ _.
Arguments dual_eps {chol} _ _.
Arguments body {chol} _ _ _.
Arguments loop {chol} _ _ _ _.
Arguments Solve {chol} _ _ _ _.
Arguments spec_primal_residual {chol} _ _ _.
Arguments spec_dual_residual {chol} _ _.
Arguments spec_eps_primal {chol} _ _ _.
Arguments spec_eps_dual {chol} _ _.
Arguments spec_converged {chol} _ _ _.
Arguments admm_run {chol} _ _ _ _ _ _ _.

End L1.

(* ================================================================== *)
(** * util/types.h and the maps of the estimators *)
(* ================================================================== *)

Module Types.

(** [typedef uint32_t image_t]; identifiers are only compared. *)
Definition image_t : Type := N.
Definition ImagePair : Type := (image_t * image_t)%type.

Record TwoViewGeometry : Type := {
  rotation_2 : Vector3d;
  translation_2 : Vector3d;
  visibility_score : Z
}.

(** The default constructor. *)
Definition TwoViewGeometry_default : TwoViewGeometry :=
  {| rotation_2 := Zero3; translation_2 := Zero3; visibility_score := 1 |}.

(** [std::unordered_map<image_t, V>]: the entries in iteration order; a key
    occurs once. *)
Definition image_map (V : Type) : Type := list (image_t * V).

Fixpoint find {V : Type} (m : image_map V) (k : image_t) : option V :=
  match m with
  | [] => None
  | (k', v) :: rest => if N.eqb k' k then Some v else find rest k
  end.

(** [m[k] = v] for a key that may or may not be present: an entry that
    exists is overwritten in place, a new one is added. *)
Fixpoint assign {V : Type} (m : image_map V) (k : image_t) (v : V) : image_map V :=
  match m with
  | [] => [(k, v)]
  | (k', v') :: rest =>
      if N.eqb k' k then (k', v) :: rest else (k', v') :: assign rest k v
  end.

(** [FindOrDie(m, k)] of [util/map_util.h]: the value at [k], or the
    process dies. *)
Definition FindOrDie {V : Type} (m : image_map V) (k : image_t) : outcome V :=
  match find m k with
  | Some v => Ret v
  | None => CheckFailed
  end.

(** [m[k]] read on an [unordered_map<image_t, int>]: a missing key is
    inserted with the value 0. *)
Definition subscript (m : image_map Z) (k : image_t) : Z * image_map Z :=
  match find m k with
  | Some v => (v, m)
  | None => (0%Z, assign m k 0%Z)
  end.

Definition view_pairs_t : Type := list (ImagePair * TwoViewGeometry).

(** Every entry of [m] is an entry of [m']. *)
Definition map_extends (m m' : image_map Z) : Prop :=
  forall k v, find m k = Some v -> find m' k = Some v.

End Types.

Import Types.

(* ================================================================== *)
(** * rotation_averaging/irls_rotation_local_refiner.cc *)
(* ================================================================== *)

Module IRLS.

Record IRLSRefinerOptions : Type := {
  num_threads : Z;
  max_num_irls_iterations : Z;
  irls_step_convergence_threshold : R;
  irls_loss_parameter_sigma : R
}.

(** Modelled from the spec: the defaults of [IRLSRefinerOptions], whose
    declaration (irls_rotation_local_refiner.h) is not among the files:
    100 iterations, sigma = 5 degrees in radians, threshold 1e-3. *)
Definition default_IRLSRefinerOptions (threads : Z) : IRLSRefinerOptions :=
  {| num_threads := threads;
     max_num_irls_iterations := 100;
     irls_step_convergence_threshold := 1e-3;
     irls_loss_parameter_sigma := 5 * PI / 180 |}.

(** Modelled from the spec: [kConstantRotationIndex], declared in
    rotation_estimator_util.h, which is not among the files.  The gauge
    view has dense index 0 and [UpdateGlobalRotations] compares
    [index - 1] with the constant, so the constant is -1. *)
Definition kConstantRotationIndex : Z := (-1)%Z.

(** [v.segment<3>(start)] with Eigen's range assertion. *)
Definition in_range3 (v : VectorXd) (start : Z) : bool :=
  (0 <=? start)%Z && (start + 3 <=? Z.of_nat (length v))%Z.

Definition segment3_get (v : VectorXd) (start : Z) : outcome Vector3d :=
  if in_range3 v start then Ret (segment3 v (Z.to_nat start)) else CheckFailed.

Definition segment3_set (v : VectorXd) (start : Z) (w : Vector3d) : outcome VectorXd :=
  if in_range3 v start then
    let s := Z.to_nat start in
    let '(a, b, c) := w in
    Ret (set_coeff (set_coeff (set_coeff v s a) (s + 1) b) (s + 2) c)
  else CheckFailed.

Section Refiner.

Variable chol : Cholesky.SparseCholeskyLLt.

(** [geometry::MultiplyRotations] (geometry/rotation_utils.h). *)
Variable MultiplyRotations : Vector3d -> Vector3d -> Vector3d.

(** [internal::ViewIdToAscentIndex] and [internal::SetupLinearSystem]
    (rotation_estimator_util.h). *)
Variable ViewIdToAscentIndex : image_map Vector3d -> image_map Z.
Variable SetupLinearSystem :
  view_pairs_t -> nat -> image_map Z -> Matrix.

(** Content of a freshly allocated, not yet assigned vector. *)
Variable uninitialized : nat -> VectorXd.

Record IRLSRotationLocalRefiner : Type := {
  options_ : IRLSRefinerOptions;
  view_id_to_index_ : image_map Z;
  sparse_matrix_ : Matrix;
  tangent_space_step_ : VectorXd;
  tangent_space_residual_ : VectorXd
}.

Definition make (num_orientations num_edges : Z) (options : IRLSRefinerOptions)
  : IRLSRotationLocalRefiner :=
  {| options_ := options;
     view_id_to_index_ := [];
     sparse_matrix_ := mkMatrix 0 0 (fun _ _ => 0);
     tangent_space_step_ := uninitialized (Z.to_nat ((num_orientations - 1) * 3));
     tangent_space_residual_ := uninitialized (Z.to_nat (num_edges * 3)) |}.

Definition with_step (self : IRLSRotationLocalRefiner) (v : VectorXd) :=
  {| options_ := options_ self;
     view_id_to_index_ := view_id_to_index_ self;
     sparse_matrix_ := sparse_matrix_ self;
     tangent_space_step_ := v;
     tangent_space_residual_ := tangent_space_residual_ self |}.

Definition with_residual (self : IRLSRotationLocalRefiner) (v : VectorXd) :=
  {| options_ := options_ self;
     view_id_to_index_ := view_id_to_index_ self;
     sparse_matrix_ := sparse_matrix_ self;
     tangent_space_step_ := tangent_space_step_ self;
     tangent_space_residual_ := v |}.

Definition SetInitTangentSpaceStep := with_step.

Definition SetViewIdToIndex (self : IRLSRotationLocalRefiner) (m : image_map Z) :=
  {| options_ := options_ self;
     view_id_to_index_ := m;
     sparse_matrix_ := sparse_matrix_ self;
     tangent_space_step_ := tangent_space_step_ self;
     tangent_space_residual_ := tangent_space_residual_ self |}.

Definition SetSparseMatrix (self : IRLSRotationLocalRefiner) (m : Matrix) :=
  {| options_ := options_ self;
     view_id_to_index_ := view_id_to_index_ self;
     sparse_matrix_ := m;
     tangent_space_step_ := tangent_space_step_ self;
     tangent_space_residual_ := tangent_space_residual_ self |}.

(** [UpdateGlobalRotations]: every entry whose index is not the constant
    one is multiplied by its segment of the step. *)
Fixpoint UpdateGlobalRotations (self : IRLSRotationLocalRefiner)
         (global_rotations : image_map Vector3d) : outcome (image_map Vector3d) :=
  match global_rotations with
  | [] => Ret []
  | (id, rotation) :: rest =>
      index <- FindOrDie (view_id_to_index_ self) id ;;
      let view_index := (index - 1)%Z in
      rotation' <-
        (if (view_index =? kConstantRotationIndex)%Z then Ret rotation
         else
           rotation_change <-
             segment3_get (tangent_space_step_ self) (3 * view_index) ;;
           Ret (MultiplyRotations rotation rotation_change)) ;;
      rest' <- UpdateGlobalRotations self rest ;;
      Ret ((id, rotation') :: rest')
  end.

(** [ComputeResiduals]: one segment of the residual per edge, in the
    iteration order of [relative_rotations]. *)
Fixpoint ComputeResiduals_from (relative_rotations : view_pairs_t)
         (global_rotations : image_map Vector3d)
         (rotation_error_index : Z) (residual : VectorXd) : outcome VectorXd :=
  match relative_rotations with
  | [] => Ret residual
  | (view_pair, geometry) :: rest =>
      let relative_rotation_aa := rotation_2 geometry in
      rotation1 <- FindOrDie global_rotations (fst view_pair) ;;
      rotation2 <- FindOrDie global_rotations (snd view_pair) ;;
      residual' <-
        segment3_set residual (3 * rotation_error_index)
          (MultiplyRotations (neg3 rotation2)
             (MultiplyRotations relative_rotation_aa rotation1)) ;;
      ComputeResiduals_from rest global_rotations
                            (rotation_error_index + 1) residual'
  end.

Definition ComputeResiduals (self : IRLSRotationLocalRefiner)
           (relative_rotations : view_pairs_t)
           (global_rotations : image_map Vector3d)
  : outcome IRLSRotationLocalRefiner :=
  residual <- ComputeResiduals_from relative_rotations global_rotations 0
                                    (tangent_space_residual_ self) ;;
  Ret (with_residual self residual).

(** [ComputeAverageStepSize]: [delta_V] accumulates the norms of the
    [size / 3] segments of the step, and is divided by their number. *)
Definition ComputeAverageStepSize (self : IRLSRotationLocalRefiner) : R :=
  let num_vertices := (length (tangent_space_step_ self) / 3)%nat in
  let delta_V :=
    fold_left
      (fun delta_V k => delta_V + norm3 (segment3 (tangent_space_step_ self) (3 * k)))
      (seq 0 num_vertices) 0 in
  delta_V / INR num_vertices.

(** The weight of one error term. *)
Definition edge_weight (sigma : R) (residual : VectorXd) (k : Z) : outcome R :=
  e <- segment3_get residual (3 * k) ;;
  let e_sq := squaredNorm3 e in
  let tmp := e_sq + sigma * sigma in
  Ret (sigma / (tmp * tmp)).

(** The weight of edge [k] in the words of the specification:
    [sigma / (||e_k||^2 + sigma^2)^2]. *)
Definition spec_weight (sigma : R) (residual : VectorXd) (k : nat) : R :=
  sigma / (squaredNorm3 (segment3 residual (3 * k)) + sigma ^ 2) ^ 2.

(** The loop over the edges [k = from, ..., from + n - 1]: the three rows
    of edge [k] receive its weight. *)
Fixpoint compute_weights (sigma : R) (residual : VectorXd)
         (n : nat) (k : Z) (weights : VectorXd) : outcome VectorXd :=
  match n with
  | O => Ret weights
  | S n' =>
      w <- edge_weight sigma residual k ;;
      weights' <- segment3_set weights (3 * k) (w, w, w) ;;
      compute_weights sigma residual n' (k + 1) weights'
  end.

(** What lives across the iterations of [SolveIRLS]. *)
Record loop_state : Type := {
  self_ : IRLSRotationLocalRefiner;
  rotations_ : image_map Vector3d;
  weights_ : VectorXd;
  linear_solver : Cholesky.LLt chol
}.

Inductive body_result : Type :=
| BodyReturnFalse (st : loop_state)   (* [return false] *)
| BodyBreak (st : loop_state)         (* converged: [break] *)
| BodyNext (st : loop_state).         (* next iteration *)

(** The matrix handed to [Factorize] and the vector handed to [Solve]. *)
Definition at_weight_of (self : IRLSRotationLocalRefiner) (weights : VectorXd) : Matrix :=
  mat_mul (transpose (sparse_matrix_ self)) (asDiagonal weights).

Definition body (relative_rotations : view_pairs_t) (st : loop_state)
  : outcome body_result :=
  let self := self_ st in
  let num_edges := length relative_rotations in
  let sigma := irls_loss_parameter_sigma (options_ self) in
  weights <- compute_weights sigma (tangent_space_residual_ self)
                             num_edges 0 (weights_ st) ;;
  let at_weight := at_weight_of self weights in
  let ls := Cholesky.Factorize chol (linear_solver st)
                               (mat_mul at_weight (sparse_matrix_ self)) in
  if negb (is_Success (Cholesky.Info chol ls)) then
    Ret (BodyReturnFalse
           {| self_ := self; rotations_ := rotations_ st;
              weights_ := weights; linear_solver := ls |})
  else
    let '(step, info) :=
      Cholesky.Solve chol ls (mat_vec at_weight (tangent_space_residual_ self)) in
    let self := with_step self step in
    if negb (is_Success info) then
      Ret (BodyReturnFalse
             {| self_ := self; rotations_ := rotations_ st;
                weights_ := weights; linear_solver := ls |})
    else
      global_rotations <- UpdateGlobalRotations self (rotations_ st) ;;
      self <- ComputeResiduals self relative_rotations global_rotations ;;
      let avg_step_size := ComputeAverageStepSize self in
      let st' := {| self_ := self; rotations_ := global_rotations;
                    weights_ := weights; linear_solver := ls |} in
      if Rltb avg_step_size (irls_step_convergence_threshold (options_ self))
      then Ret (BodyBreak st')
      else Ret (BodyNext st').

(** [for (int i = 0; i < max_num_irls_iterations; i++)] with [n] passes to
    go; the boolean is the value [SolveIRLS] returns. *)
Fixpoint loop (relative_rotations : view_pairs_t) (n : nat) (st : loop_state)
  : outcome (bool * loop_state) :=
  match n with
  | O => Ret (true, st)
  | S n' =>
      r <- body relative_rotations st ;;
      match r with
      | BodyReturnFalse st' => Ret (false, st')
      | BodyBreak st' => Ret (true, st')
      | BodyNext st' => loop relative_rotations n' st'
      end
  end.

(** The part of [SolveIRLS] before the Cholesky object is created. *)
Definition prepare (self : IRLSRotationLocalRefiner)
           (relative_rotations : view_pairs_t)
           (global_rotations : image_map Vector3d)
  : outcome IRLSRotationLocalRefiner :=
  let num_edges := length relative_rotations in
  _ <- CHECK (0 <? length global_rotations)%nat ;;
  _ <- CHECK (0 <? num_edges)%nat ;;
  let self :=
    match view_id_to_index_ self with
    | [] => SetViewIdToIndex self (ViewIdToAscentIndex global_rotations)
    | _ => self
    end in
  let self :=
    if (rows (sparse_matrix_ self) =? 0)%nat then
      SetSparseMatrix self
        (SetupLinearSystem relative_rotations (length global_rotations)
                           (view_id_to_index_ self))
    else self in
  Ret self.

Definition system_matrix (self : IRLSRotationLocalRefiner) : Matrix :=
  mat_mul (transpose (sparse_matrix_ self)) (sparse_matrix_ self).

(** [SolveIRLS]: the returned boolean, the caller's rotation map and the
    refiner after the call. *)
Definition SolveIRLS (self : IRLSRotationLocalRefiner)
           (relative_rotations : view_pairs_t)
           (global_rotations : image_map Vector3d)
  : outcome (bool * image_map Vector3d * IRLSRotationLocalRefiner) :=
  let num_edges := length relative_rotations in
  self <- prepare self relative_rotations global_rotations ;;
  let ls := Cholesky.AnalyzePattern chol (Cholesky.Create chol)
                                    (system_matrix self) in
  if negb (is_Success (Cholesky.Info chol ls)) then
    Ret (false, global_rotations, self)
  else
    self <- ComputeResiduals self relative_rotations global_rotations ;;
    '(b, st) <- loop relative_rotations
                     (Z.to_nat (max_num_irls_iterations (options_ self)))
                     {| self_ := self; rotations_ := global_rotations;
                        weights_ := uninitialized (num_edges * 3);
                        linear_solver := ls |} ;;
    Ret (b, rotations_ st, self_ st).

Definition state_of (r : body_result) : loop_state :=
  match r with
  | BodyReturnFalse st | BodyBreak st | BodyNext st => st
  end.

(** ** Numerical failures, in the words of the specification *)

(** The Cholesky object reports non-success in the iteration that starts
    at [st]: in the factorization, or in the solve that follows a
    successful factorization. *)
Definition cholesky_fails (relative_rotations : view_pairs_t) (st : loop_state) : Prop :=
  exists weights : VectorXd,
    compute_weights (irls_loss_parameter_sigma (options_ (self_ st)))
                    (tangent_space_residual_ (self_ st))
                    (length relative_rotations) 0 (weights_ st) = Ret weights /\
    let at_weight := at_weight_of (self_ st) weights in
    let ls := Cholesky.Factorize chol (linear_solver st)
                (mat_mul at_weight (sparse_matrix_ (self_ st))) in
    Cholesky.Info chol ls <> Success \/
    snd (Cholesky.Solve chol ls
           (mat_vec at_weight (tangent_space_residual_ (self_ st)))) <> Success.

(** A failure occurs within the next [n] iterations: in this one, or after
    this one has gone through without convergence. *)
Inductive failure_within (relative_rotations : view_pairs_t) :
  nat -> loop_state -> Prop :=
| failure_here n st :
    cholesky_fails relative_rotations st ->
    failure_within relative_rotations (S n) st
| failure_after n st st' :
    body relative_rotations st = Ret (BodyNext st') ->
    failure_within relative_rotations n st' ->
    failure_within relative_rotations (S n) st.

(** A numerical failure during [SolveIRLS], for the refiner [self] that
    [prepare] gives: the pattern analysis fails, or an iteration does. *)
Definition numerical_failure (self : IRLSRotationLocalRefiner)
           (relative_rotations : view_pairs_t)
           (global_rotations : image_map Vector3d) : Prop :=
  let ls := Cholesky.AnalyzePattern chol (Cholesky.Create chol)
                                    (system_matrix self) in
  Cholesky.Info chol ls <> Success \/
  exists self' : IRLSRotationLocalRefiner,
    ComputeResiduals self relative_rotations global_rotations = Ret self' /\
    failure_within relative_rotations
      (Z.to_nat (max_num_irls_iterations (options_ self')))
      {| self_ := self'; rotations_ := global_rotations;
         weights_ := uninitialized (length relative_rotations * 3);
         linear_solver := ls |}.

End Refiner.

End IRLS.

(* ================================================================== *)
(** * rotation_averaging/lagrange_dual_rotation_estimator.cc *)
(* ================================================================== *)

Module LagrangeDual.

(** The solver types that [CreateSDPSolver] names.  The enumeration is
    declared with the SDP backends, which are not among the files; a
    value that is none of the three named ones is [OtherSolverType]. *)
Inductive SDPSolverType : Type :=
| RBR_BCM
| RANK_DEFICIENT_BCM
| RIEMANNIAN_STAIRCASE
| OtherSolverType (value : Z).

(** [solver::SDPSolverOptions]; the estimator reads [solver_type] only,
    the rest is for the backends. *)
Record SDPSolverOptions : Type := {
  solver_type : SDPSolverType;
  backend_options : list R
}.

(** Spectra's [info()] values and selection rules. *)
Inductive SpectraInfo : Type :=
| SUCCESSFUL | NOT_COMPUTED | NOT_CONVERGING | NUMERICAL_ISSUE.

Inductive SelectionRule : Type :=
| LARGEST_ALGE | SMALLEST_ALGE.

Definition is_SUCCESSFUL (i : SpectraInfo) : bool :=
  match i with SUCCESSFUL => true | _ => false end.

(** [std::unordered_map<size_t, std::vector<size_t>>] *)
Definition adjacency : Type := list (Z * list Z).

(** [adj_edges[i].push_back(j)] *)
Fixpoint push_back (adj : adjacency) (i j : Z) : adjacency :=
  match adj with
  | [] => [(i, [j])]
  | (k, l) :: rest =>
      if (k =? i)%Z then (k, l ++ [j]) :: rest else (k, l) :: push_back rest i j
  end.

(** [degrees[i]++] on a [std::vector<double>]. *)
Definition increment (degrees : list R) (i : nat) : list R :=
  set_coeff degrees i (coeff degrees i + 1).

Section Estimator.

(** The SDP backends, behind the interface [solver::SDPSolver]. *)
Variable SDPSolver : Type.
Variable Summary : Type.
Variable Summary_default : Summary.
Variables RBRSDPSolver RankRestrictedSDPSolver RiemannianStaircase :
  Z -> Z -> SDPSolverOptions -> SDPSolver.
Variable SetCovariance : SDPSolver -> Matrix -> SDPSolver.
Variable SetAdjacentEdges : SDPSolver -> adjacency -> SDPSolver.
Variable SDPSolve : SDPSolver -> Summary -> SDPSolver * Summary.
Variable GetSolution : SDPSolver -> Matrix.

(** ceres/rotation.h *)
Variable AngleAxisToRotationMatrix : Vector3d -> Matrix.
Variable RotationMatrixToAngleAxis : Matrix -> Vector3d.

(** [Spectra::SymEigsSolver<double, rule, SparseSymMatProd<double>>
    eigs(&op, nev, ncv); eigs.init(); eigs.compute()]: [info()] and
    [eigenvalues()]. *)
Variable SymEigsSolver :
  SelectionRule -> Matrix -> nat -> nat -> SpectraInfo * VectorXd.

(** [internal::ViewIdToAscentIndex] *)
Variable ViewIdToAscentIndex : image_map Vector3d -> image_map Z.

Record LagrangeDualRotationEstimator : Type := {
  options_ : SDPSolverOptions;
  summary_ : Summary;
  images_num_ : Z;
  dim_ : Z;
  R_ : Matrix;
  Y_ : Matrix;
  alpha_max_ : R;
  view_id_to_index_ : image_map Z
}.

Definition zero_matrix (n m : nat) : Matrix := mkMatrix n m (fun _ _ => 0).

Definition make (N dim : Z) (options : SDPSolverOptions)
  : LagrangeDualRotationEstimator :=
  {| options_ := options;
     summary_ := Summary_default;
     images_num_ := N;
     dim_ := dim;
     R_ := zero_matrix (Z.to_nat (dim * N)) (Z.to_nat (dim * N));
     Y_ := zero_matrix 0 0;
     alpha_max_ := 0;
     view_id_to_index_ := [] |}.

Definition SetViewIdToIndex (self : LagrangeDualRotationEstimator) (m : image_map Z) :=
  {| options_ := options_ self; summary_ := summary_ self;
     images_num_ := images_num_ self; dim_ := dim_ self;
     R_ := R_ self; Y_ := Y_ self; alpha_max_ := alpha_max_ self;
     view_id_to_index_ := m |}.

Definition SetRAOption (self : LagrangeDualRotationEstimator) (o : SDPSolverOptions) :=
  {| options_ := o; summary_ := summary_ self;
     images_num_ := images_num_ self; dim_ := dim_ self;
     R_ := R_ self; Y_ := Y_ self; alpha_max_ := alpha_max_ self;
     view_id_to_index_ := view_id_to_index_ self |}.

Definition with_alpha_max (self : LagrangeDualRotationEstimator) (a : R) :=
  {| options_ := options_ self; summary_ := summary_ self;
     images_num_ := images_num_ self; dim_ := dim_ self;
     R_ := R_ self; Y_ := Y_ self; alpha_max_ := a;
     view_id_to_index_ := view_id_to_index_ self |}.

Definition GetRASummary (self : LagrangeDualRotationEstimator) : Summary :=
  summary_ self.

Definition GetErrorBound (self : LagrangeDualRotationEstimator) : R :=
  alpha_max_ self.

(** [CreateSDPSolver]: [None] is the null pointer of the [default] case. *)
Definition CreateSDPSolver (self : LagrangeDualRotationEstimator) (n dim : Z)
  : option SDPSolver :=
  match solver_type (options_ self) with
  | RBR_BCM => Some (RBRSDPSolver n dim (options_ self))
  | RANK_DEFICIENT_BCM => Some (RankRestrictedSDPSolver n dim (options_ self))
  | RIEMANNIAN_STAIRCASE => Some (RiemannianStaircase n dim (options_ self))
  | OtherSolverType _ => None
  end.

(** The eighteen triplets of one edge, in the order they are pushed. *)
Definition edge_triplets (dim i j : Z) (R_ij : Matrix) : list Triplet :=
  flat_map
    (fun l =>
       flat_map
         (fun r =>
            [ ((dim * i + Z.of_nat l)%Z, (dim * j + Z.of_nat r)%Z, coef R_ij r l);
              ((dim * j + Z.of_nat l)%Z, (dim * i + Z.of_nat r)%Z, coef R_ij l r) ])
         [0; 1; 2]%nat)
    [0; 1; 2]%nat.

(** The loop of [FillinRelativeGraph]; [view_id_to_index_[...]] may add
    entries to the index map. *)
Fixpoint fill_edges (dim : Z) (view_pairs : view_pairs_t) (index : image_map Z)
         (triplets : list Triplet) (adj_edges : adjacency)
  : image_map Z * list Triplet * adjacency :=
  match view_pairs with
  | [] => (index, triplets, adj_edges)
  | (key, geometry) :: rest =>
      let '(i, index) := subscript index (fst key) in
      let '(j, index) := subscript index (snd key) in
      let R_ij := AngleAxisToRotationMatrix (rotation_2 geometry) in
      let triplets := triplets ++ edge_triplets dim i j R_ij in
      let adj_edges := push_back adj_edges i j in
      let adj_edges := push_back adj_edges j i in
      fill_edges dim rest index triplets adj_edges
  end.

(** [FillinRelativeGraph(view_pairs, R_, adj_edges)]: the estimator with
    [R_] filled in and the adjacency lists. *)
Definition FillinRelativeGraph (self : LagrangeDualRotationEstimator)
           (view_pairs : view_pairs_t) (adj_edges : adjacency)
  : outcome (LagrangeDualRotationEstimator * adjacency) :=
  let '(index, triplets, adj_edges) :=
    fill_edges (dim_ self) view_pairs (view_id_to_index_ self) [] adj_edges in
  R <- setFromTriplets (rows (R_ self)) (cols (R_ self)) triplets ;;
  Ret ({| options_ := options_ self; summary_ := summary_ self;
          images_num_ := images_num_ self; dim_ := dim_ self;
          R_ := R;
          Y_ := Y_ self; alpha_max_ := alpha_max_ self;
          view_id_to_index_ := index |},
       adj_edges).

(** The rotation that [RetrieveRotations] stores for the view of dense
    index [i]: the transposed block of [Y], negated when its determinant
    is negative, as an angle-axis vector. *)
Definition retrieved_rotation (Y : Matrix) (i : Z) : outcome Vector3d :=
  block <- block33 Y 0 (3 * i) ;;
  let R := transpose block in
  let R := if Rltb (determinant3 R) 0 then mneg R else R in
  Ret (RotationMatrixToAngleAxis R).

(** The loop of [RetrieveRotations] over (a copy of) each entry. *)
Fixpoint retrieve_loop (Y : Matrix) (entries : image_map Vector3d)
         (index : image_map Z) (global_rotations : image_map Vector3d)
  : outcome (image_map Z * image_map Vector3d) :=
  match entries with
  | [] => Ret (index, global_rotations)
  | (view_id, _) :: rest =>
      let '(i, index) := subscript index view_id in
      angle_axis <- retrieved_rotation Y i ;;
      retrieve_loop Y rest index (assign global_rotations view_id angle_axis)
  end.

Definition RetrieveRotations (self : LagrangeDualRotationEstimator) (Y : Matrix)
           (global_rotations : image_map Vector3d)
  : outcome (LagrangeDualRotationEstimator * image_map Vector3d) :=
  '(index, global_rotations) <-
    retrieve_loop Y global_rotations (view_id_to_index_ self) global_rotations ;;
  Ret (SetViewIdToIndex self index, global_rotations).

(** [if (view_id_to_index_.empty()) internal::ViewIdToAscentIndex(
    *global_rotations, &view_id_to_index_);] *)
Definition ensure_index (self : LagrangeDualRotationEstimator)
           (global_rotations : image_map Vector3d) : LagrangeDualRotationEstimator :=
  match view_id_to_index_ self with
  | [] => SetViewIdToIndex self (ViewIdToAscentIndex global_rotations)
  | _ => self
  end.

(** [EstimateRotations]: the returned boolean, the caller's rotation map
    and the estimator after the call. *)
Definition EstimateRotations (self : LagrangeDualRotationEstimator)
           (view_pairs : view_pairs_t) (global_rotations : image_map Vector3d)
  : outcome (bool * image_map Vector3d * LagrangeDualRotationEstimator) :=
  let N := images_num_ self in
  _ <- CHECK (0 <? length view_pairs)%nat ;;
  _ <- CHECK (0 <? N)%Z ;;
  let self := ensure_index self global_rotations in
  '(self, adj_edges) <- FillinRelativeGraph self view_pairs [] ;;
  match CreateSDPSolver self N (dim_ self) with
  | None => NullDereference
  | Some solver =>
      let solver := SetCovariance solver (mneg (R_ self)) in
      let solver := SetAdjacentEdges solver adj_edges in
      let '(solver, summary) := SDPSolve solver (summary_ self) in
      let Y := GetSolution solver in
      let self :=
        {| options_ := options_ self; summary_ := summary;
           images_num_ := images_num_ self; dim_ := dim_ self;
           R_ := R_ self; Y_ := Y; alpha_max_ := alpha_max_ self;
           view_id_to_index_ := view_id_to_index_ self |} in
      '(self, global_rotations) <- RetrieveRotations self Y global_rotations ;;
      Ret (true, global_rotations, self)
  end.

(** The first loop of [ComputeErrorBound]: the degrees. *)
Fixpoint count_degrees (view_pairs : view_pairs_t) (index : image_map Z)
         (degrees : list R) : image_map Z * list R :=
  match view_pairs with
  | [] => (index, degrees)
  | (key, _) :: rest =>
      let '(i, index) := subscript index (fst key) in
      let '(j, index) := subscript index (snd key) in
      let degrees := increment degrees (Z.to_nat i) in
      let degrees := increment degrees (Z.to_nat j) in
      count_degrees rest index degrees
  end.

(** The second loop: the triplets of the adjacency matrix and of the
    degree matrix, and the largest degree. *)
Fixpoint graph_triplets (view_pairs : view_pairs_t) (index : image_map Z)
         (degrees : list R) (a_triplets d_triplets : list Triplet)
         (max_degree : R)
  : image_map Z * list Triplet * list Triplet * R :=
  match view_pairs with
  | [] => (index, a_triplets, d_triplets, max_degree)
  | (key, _) :: rest =>
      let '(i, index) := subscript index (fst key) in
      let '(j, index) := subscript index (snd key) in
      let a_triplets := a_triplets ++ [(i, j, 1); (j, i, 1)] in
      let d_triplets :=
        d_triplets ++ [(i, i, coeff degrees (Z.to_nat i));
                       (j, j, coeff degrees (Z.to_nat j))] in
      let max_degree :=
        Rmax (Rmax max_degree (coeff degrees (Z.to_nat i)))
             (coeff degrees (Z.to_nat j)) in
      graph_triplets rest index degrees a_triplets d_triplets max_degree
  end.

(** What [ComputeErrorBound] has before it calls Spectra: the index map,
    the matrices [A] and [D] and the largest degree. *)
Definition graph_matrices (N : Z) (view_pairs : view_pairs_t) (index : image_map Z)
  : outcome (image_map Z * Matrix * Matrix * R) :=
  let n := Z.to_nat N in
  let '(index, degrees) := count_degrees view_pairs index (repeat 0 n) in
  let '(index, a_triplets, d_triplets, max_degree) :=
    graph_triplets view_pairs index degrees [] [] 0 in
  A <- setFromTriplets n n a_triplets ;;
  D <- setFromTriplets n n d_triplets ;;
  Ret (index, A, D, max_degree).

(** The bound as a function of [lambda2] and [max_degree]. *)
Definition error_bound (lambda2 max_degree : R) : R :=
  2 * asin (sqrt (0.25 + lambda2 / (2.0 * max_degree)) - 0.5).

Definition ComputeErrorBound (self : LagrangeDualRotationEstimator)
           (view_pairs : view_pairs_t) : outcome LagrangeDualRotationEstimator :=
  let N := images_num_ self in
  '(index, A, D, max_degree) <-
    graph_matrices N view_pairs (view_id_to_index_ self) ;;
  (* laplacian matrix *)
  let L := msub D A in
  let '(info, eigenvalues) := SymEigsSolver SMALLEST_ALGE L 2 5 in
  let lambda2 := if is_SUCCESSFUL info then coeff eigenvalues 0 else 0 in
  Ret (with_alpha_max (SetViewIdToIndex self index)
                      (error_bound lambda2 max_degree)).

End Estimator.

(** ** The graph Laplacian in the words of the specification *)

(** The degree of vertex [v] in a list of edges given by dense indices. *)
Fixpoint degree (edges : list (nat * nat)) (v : nat) : nat :=
  match edges with
  | [] => 0
  | (i, j) :: rest =>
      ((if Nat.eqb i v then 1 else 0) + (if Nat.eqb j v then 1 else 0)
       + degree rest v)%nat
  end.

(** The number of edges between [v] and [w]. *)
Fixpoint adjacent (edges : list (nat * nat)) (v w : nat) : nat :=
  match edges with
  | [] => 0
  | (i, j) :: rest =>
      ((if Nat.eqb i v && Nat.eqb j w then 1 else 0)
       + (if Nat.eqb j v && Nat.eqb i w then 1 else 0)
       + adjacent rest v w)%nat
  end.

(** [L = D - A] with [D] the diagonal matrix of the degrees. *)
Definition graph_laplacian (n : nat) (edges : list (nat * nat)) : Matrix :=
  mkMatrix n n
    (fun v w => (if Nat.eqb v w then INR (degree edges v) else 0)
                - INR (adjacent edges v w)).

(** What one edge [(i, j)] contributes in the loops of
    [ComputeErrorBound]: two increments of [degrees], two triplets of
    [A], two triplets of [D], one step of the running maximum. *)
Definition bump (degrees : list R) (e : nat * nat) : list R :=
  increment (increment degrees (fst e)) (snd e).

Definition a_triplets_of (e : nat * nat) : list Triplet :=
  [(Z.of_nat (fst e), Z.of_nat (snd e), 1); (Z.of_nat (snd e), Z.of_nat (fst e), 1)].

Definition d_triplets_of (degrees : list R) (e : nat * nat) : list Triplet :=
  [(Z.of_nat (fst e), Z.of_nat (fst e), coeff degrees (fst e));
   (Z.of_nat (snd e), Z.of_nat (snd e), coeff degrees (snd e))].

Definition max_of_edge (degrees : list R) (m : R) (e : nat * nat) : R :=
  Rmax (Rmax m (coeff degrees (fst e))) (coeff degrees (snd e)).

(** The edges of [view_pairs] by dense index, looked up in the index map
    the way the loops of [ComputeErrorBound] look them up. *)
Fixpoint dense_edges (view_pairs : view_pairs_t) (index : image_map Z)
  : image_map Z * list (nat * nat) :=
  match view_pairs with
  | [] => (index, [])
  | (key, _) :: rest =>
      let '(i, index) := subscript index (fst key) in
      let '(j, index) := subscript index (snd key) in
      let '(index, edges) := dense_edges rest index in
      (index, (Z.to_nat i, Z.to_nat j) :: edges)
  end.

(** The dense indices that the loops of [ComputeErrorBound] read for the
    two views of each pair, as the [int]s they are. *)
Fixpoint index_pairs (view_pairs : view_pairs_t) (index : image_map Z)
  : list (Z * Z) :=
  match view_pairs with
  | [] => []
  | (key, _) :: rest =>
      let '(i, index) := subscript index (fst key) in
      let '(j, index) := subscript index (snd key) in
      (i, j) :: index_pairs rest index
  end.

(** Both indices of a pair are rows of an [n x n] matrix. *)
Definition index_in_range (n : nat) (p : Z * Z) : bool :=
  (0 <=? fst p)%Z && (fst p <? Z.of_nat n)%Z
  && (0 <=? snd p)%Z && (snd p <? Z.of_nat n)%Z.

End LagrangeDual.

(* ================================================================== *)
(** * Concrete collaborators for the examples *)
(* ================================================================== *)

Module Fixture.

(** A Cholesky object that is exact when the system matrix is the
    identity: [Solve] gives back the right-hand side. *)
Definition identity_chol : Cholesky.SparseCholeskyLLt :=
  {| Cholesky.LLt := unit;
     Cholesky.Create := tt;
     Cholesky.AnalyzePattern := fun _ _ => tt;
     Cholesky.Factorize := fun _ _ => tt;
     Cholesky.Compute := fun _ _ => tt;
     Cholesky.Solve := fun _ rhs => (rhs, Success);
     Cholesky.Info := fun _ => Success |}.

(** A Cholesky object whose factorizations succeed and whose [Solve]
    reports a numerical issue. *)
Definition failing_solve_chol : Cholesky.SparseCholeskyLLt :=
  {| Cholesky.LLt := unit;
     Cholesky.Create := tt;
     Cholesky.AnalyzePattern := fun _ _ => tt;
     Cholesky.Factorize := fun _ _ => tt;
     Cholesky.Compute := fun _ _ => tt;
     Cholesky.Solve := fun _ rhs => (rhs, NumericalIssue);
     Cholesky.Info := fun _ => Success |}.

(** Fresh storage filled with zeros. *)
Definition zeros (n : nat) : VectorXd := repeat 0 n.

(** A Cholesky object for the matrices [d * I]: the factor is [d], a solve
    divides the right-hand side by it. *)
Definition scalar_chol : Cholesky.SparseCholeskyLLt :=
  {| Cholesky.LLt := R;
     Cholesky.Create := 1;
     Cholesky.AnalyzePattern := fun d _ => d;
     Cholesky.Factorize := fun _ m => coef m 0 0;
     Cholesky.Compute := fun _ m => coef m 0 0;
     Cholesky.Solve := fun d rhs => (map (fun t => t / d) rhs, Success);
     Cholesky.Info := fun _ => Success |}.

(** A Cholesky object whose pattern analysis fails. *)
Definition failing_analysis_chol : Cholesky.SparseCholeskyLLt :=
  {| Cholesky.LLt := bool;
     Cholesky.Create := true;
     Cholesky.AnalyzePattern := fun _ _ => false;
     Cholesky.Factorize := fun b _ => b;
     Cholesky.Compute := fun b _ => b;
     Cholesky.Solve := fun _ rhs => (rhs, NumericalIssue);
     Cholesky.Info := fun b => if b then Success else NumericalIssue |}.

(** Rotations about one common axis compose by adding their angle-axis
    vectors (as long as the angles stay small). *)
Definition add_rotations (a b : Vector3d) : Vector3d :=
  let '(a0, a1, a2) := a in
  let '(b0, b1, b2) := b in
  (a0 + b0, a1 + b1, a2 + b2).

(** The index of a view is its position in the map; this is the ascending
    index when the entries are listed by ascending identifier. *)
Fixpoint index_from (i : Z) (m : image_map Vector3d) : image_map Z :=
  match m with
  | [] => []
  | (id, _) :: rest => (id, i) :: index_from (i + 1) rest
  end.

Definition index_by_position : image_map Vector3d -> image_map Z := index_from 0.

(** Two views and the edge (0, 1): with view 0 anchored, the system
    matrix is the 3x3 identity. *)
Definition two_view_system (_ : view_pairs_t) (_ : nat) (_ : image_map Z) : Matrix :=
  Identity 3.

Definition edge (i j : N) (r : Vector3d) : ImagePair * TwoViewGeometry :=
  ((i, j), {| rotation_2 := r; translation_2 := Zero3; visibility_score := 1 |}).

Definition two_view_pairs : view_pairs_t := [edge 0 1 (1, 0, 0)].

Definition two_view_rotations : image_map Vector3d :=
  [(0%N, (1, 0, 0)); (1%N, (1, 0, 0))].

(** The default options, with a single IRLS iteration. *)
Definition one_iteration : IRLS.IRLSRefinerOptions :=
  {| IRLS.num_threads := 1;
     IRLS.max_num_irls_iterations := 1;
     IRLS.irls_step_convergence_threshold := 1e-3;
     IRLS.irls_loss_parameter_sigma := 5 * PI / 180 |}.

(** A refiner for two views and one edge, as the hybrid driver would set
    it up, and the state in which its first iteration starts. *)
Definition two_view_refiner : IRLS.IRLSRotationLocalRefiner :=
  {| IRLS.options_ := one_iteration;
     IRLS.view_id_to_index_ := [(0%N, 0%Z); (1%N, 1%Z)];
     IRLS.sparse_matrix_ := Identity 3;
     IRLS.tangent_space_step_ := zeros 3;
     IRLS.tangent_space_residual_ := [1; 0; 0] |}.

Definition two_view_state : IRLS.loop_state scalar_chol :=
  IRLS.Build_loop_state scalar_chol two_view_refiner two_view_rotations
                        (zeros 3) (1 : Cholesky.LLt scalar_chol).

(** An SDP backend that answers with identity blocks, [Y = (I ... I)]:
    the solution when every relative rotation is the identity. *)
Definition identity_blocks (n dim : Z) (_ : LagrangeDual.SDPSolverOptions) : Matrix :=
  mkMatrix 3 (3 * Z.to_nat n) (fun i j => if Nat.eqb (j mod 3) i then 1 else 0).

(** Angle-axis conversions, exact at the zero vector and at the identity
    matrix, the only values the examples convert. *)
Definition identity_of_zero (_ : Vector3d) : Matrix := Identity 3.
Definition zero_of_identity (_ : Matrix) : Vector3d := Zero3.

(** The backend object is the solution it will give; the summary counts
    the calls of [Solve]. *)
Definition set_covariance (s : Matrix) (_ : Matrix) : Matrix := s.
Definition set_adjacent_edges (s : Matrix) (_ : LagrangeDual.adjacency) : Matrix := s.
Definition sdp_solve (s : Matrix) (summary : nat) : Matrix * nat := (s, S summary).
Definition get_solution (s : Matrix) : Matrix := s.

(** The estimator of the examples, with the collaborators above. *)
Definition EstimateRotations :=
  LagrangeDual.EstimateRotations Matrix nat
    identity_blocks identity_blocks identity_blocks
    set_covariance set_adjacent_edges sdp_solve get_solution
    identity_of_zero zero_of_identity index_by_position.

Definition options (t : LagrangeDual.SDPSolverType) : LagrangeDual.SDPSolverOptions :=
  {| LagrangeDual.solver_type := t; LagrangeDual.backend_options := [] |}.

(** Five views; every relative rotation is the identity. *)
Definition five_rotations : image_map Vector3d :=
  [(0%N, (3, 0, 0)); (1%N, (3, 0, 0)); (2%N, (3, 0, 0));
   (3%N, (3, 0, 0)); (4%N, (3, 0, 0))].

Definition five_index : image_map Z :=
  [(0%N, 0%Z); (1%N, 1%Z); (2%N, 2%Z); (3%N, 3%Z); (4%N, 4%Z)].

(** The star with centre 0. *)
Definition star_pairs : view_pairs_t :=
  [edge 0 1 Zero3; edge 0 2 Zero3; edge 0 3 Zero3; edge 0 4 Zero3].

(** The complete graph. *)
Definition complete_pairs : view_pairs_t :=
  [edge 0 1 Zero3; edge 0 2 Zero3; edge 0 3 Zero3; edge 0 4 Zero3;
   edge 1 2 Zero3; edge 1 3 Zero3; edge 1 4 Zero3;
   edge 2 3 Zero3; edge 2 4 Zero3; edge 3 4 Zero3].

Definition complete_edges : list (nat * nat) :=
  [(0, 1); (0, 2); (0, 3); (0, 4); (1, 2); (1, 3); (1, 4); (2, 3); (2, 4); (3, 4)]%nat.

Definition star_edges : list (nat * nat) :=
  [(0, 1); (0, 2); (0, 3); (0, 4)]%nat.

(** An eigensolver that does not converge. *)
Definition eigs_not_converging (_ : LagrangeDual.SelectionRule) (_ : Matrix)
           (_ _ : nat) : LagrangeDual.SpectraInfo * VectorXd :=
  (LagrangeDual.NOT_CONVERGING, []).

(** An eigensolver that answers with given eigenvalues. *)
Definition eigs_answer (values : VectorXd) (_ : LagrangeDual.SelectionRule)
           (_ : Matrix) (_ _ : nat) : LagrangeDual.SpectraInfo * VectorXd :=
  (LagrangeDual.SUCCESSFUL, values).

End Fixture.

(* ================================================================== *)
(** * More of the translation units *)
(* ================================================================== *)

(** [adj_edges] read at [i]: the vector stored under the key [i], empty
    when there is none. *)
Fixpoint neighbours (adj : LagrangeDual.adjacency) (i : Z) : list Z :=
  match adj with
  | [] => []
  | (k, l) :: rest => if (k =? i)%Z then l else neighbours rest i
  end.

(* ================================================================== *)
(** * util/types.h: the hash of a pair of identifiers *)
(* ================================================================== *)

Module PairHash.

(** [uint64_t] arithmetic wraps around at [2^64]. *)
Definition wrap64 (x : N) : N := (x mod 2 ^ 64)%N.

(** [kInvalidImageId = std::numeric_limits<image_t>::max()] *)
Definition kInvalidImageId : image_t := (2 ^ 32 - 1)%N.

(** The value [s] that [hash<std::pair<uint32_t, uint32_t>>] hands to
    [std::hash<uint64_t>]:
    [(static_cast<uint64_t>(p.first) << 32) + static_cast<uint64_t>(p.second)]. *)
Definition s (p : ImagePair) : N :=
  wrap64 (wrap64 (N.shiftl (fst p) 32) + snd p).

Section Hash.

(** [std::hash<uint64_t>] of the standard library. *)
Variable hash_uint64 : N -> N.

Definition hash (p : ImagePair) : N := hash_uint64 (s p).

End Hash.

End PairHash.

(* ================================================================== *)
(** * When the loops of the IRLS refiner come back *)
(* ================================================================== *)

(** What [UpdateGlobalRotations] needs of one view: an entry in the index
    map, and, unless it is the constant view, its segment inside the
    step. *)
Definition view_updatable (self : IRLS.IRLSRotationLocalRefiner) (id : image_t) : bool :=
  match find (IRLS.view_id_to_index_ self) id with
  | None => false
  | Some index =>
      ((index - 1) =? IRLS.kConstantRotationIndex)%Z
      || IRLS.in_range3 (IRLS.tangent_space_step_ self) (3 * (index - 1))
  end.

(** What [ComputeResiduals] needs of one edge: a rotation for each of its
    two views. *)
Definition edge_has_rotations (global_rotations : image_map Vector3d)
           (e : ImagePair * TwoViewGeometry) : bool :=
  match find global_rotations (fst (fst e)), find global_rotations (snd (fst e)) with
  | Some _, Some _ => true
  | _, _ => false
  end.

(** ... and of the residual: three entries for each edge, from the edge
    counter [first] on. *)
Definition residual_holds (residual : VectorXd) (first : nat)
           (relative_rotations : view_pairs_t) : bool :=
  match relative_rotations with
  | [] => true
  | _ => (3 * (first + length relative_rotations) <=? length residual)%nat
  end.

(* ================================================================== *)
(** * graph/graph_cut.cc: the Graclus graph *)
(* ================================================================== *)

Module GraphCut.

(** [int] and Graclus's [idxtype] are 32-bit signed integers, [size_t] is
    a 64-bit unsigned one; a conversion keeps the value modulo the
    width. *)
Definition to_int (z : Z) : Z := ((z + 2 ^ 31) mod 2 ^ 32 - 2 ^ 31)%Z.
Definition to_size_t (z : Z) : Z := (z mod 2 ^ 64)%Z.

(** [std::unordered_map<int, V>]: [find], [emplace] (which leaves an
    existing entry alone) and [size]. *)
Fixpoint lookup {V : Type} (m : list (Z * V)) (k : Z) : option V :=
  match m with
  | [] => None
  | (k', v) :: rest => if (k' =? k)%Z then Some v else lookup rest k
  end.

Definition emplace {V : Type} (m : list (Z * V)) (k : Z) (v : V) : list (Z * V) :=
  match lookup m k with
  | Some _ => m
  | None => m ++ [(k, v)]
  end.

(** [std::unordered_map<int, std::vector<std::pair<int, int>>>] and
    [adjacency_list[k].emplace_back(vertex, weight)]. *)
Definition adjacency_list : Type := list (Z * list (Z * Z)).

Fixpoint emplace_back (adj : adjacency_list) (k : Z) (e : Z * Z) : adjacency_list :=
  match adj with
  | [] => [(k, [e])]
  | (k', l) :: rest =>
      if (k' =? k)%Z then (k', l ++ [e]) :: rest
      else (k', l) :: emplace_back rest k e
  end.

Record GraclusGraph : Type := {
  vertex_id_to_idx_ : list (Z * Z);
  vertex_idx_to_id_ : list (Z * Z);
  xadj_ : list Z;
  adjncy_ : list Z;
  adjwgt_ : list Z;
  (* the fields of [data] that are not null *)
  nvtxs : Z;
  nedges : Z
}.

Definition with_maps (g : GraclusGraph) (id_to_idx idx_to_id : list (Z * Z)) :=
  {| vertex_id_to_idx_ := id_to_idx; vertex_idx_to_id_ := idx_to_id;
     xadj_ := xadj_ g; adjncy_ := adjncy_ g; adjwgt_ := adjwgt_ g;
     nvtxs := nvtxs g; nedges := nedges g |}.

(** The members before the body of the constructor runs. *)
Definition initial : GraclusGraph :=
  {| vertex_id_to_idx_ := []; vertex_idx_to_id_ := [];
     xadj_ := []; adjncy_ := []; adjwgt_ := []; nvtxs := 0; nedges := 0 |}.

(** [GetVertexIdx]: the index of a known vertex, or the next free index
    for a new one. *)
Definition GetVertexIdx (g : GraclusGraph) (id : Z) : Z * GraclusGraph :=
  match lookup (vertex_id_to_idx_ g) id with
  | None =>
      let idx := to_int (Z.of_nat (length (vertex_id_to_idx_ g))) in
      (idx, with_maps g (emplace (vertex_id_to_idx_ g) id idx)
                        (emplace (vertex_idx_to_id_ g) idx id))
  | Some idx => (idx, g)
  end.

(** [GetVertexId]: [vertex_idx_to_id_.at(idx)]; [None] is the
    [std::out_of_range] that [at] throws. *)
Definition GetVertexId (g : GraclusGraph) (idx : Z) : option Z :=
  lookup (vertex_idx_to_id_ g) idx.

(** The first loop of the constructor, over [edges[i]] and [weights[i]]. *)
Fixpoint add_edges (g : GraclusGraph) (adj : adjacency_list)
         (edges : list (Z * Z)) (weights : list Z) : GraclusGraph * adjacency_list :=
  match edges, weights with
  | edge :: edges', weight :: weights' =>
      let '(vertex_idx1, g) := GetVertexIdx g (fst edge) in
      let '(vertex_idx2, g) := GetVertexIdx g (snd edge) in
      let adj := emplace_back adj vertex_idx1 (vertex_idx2, weight) in
      let adj := emplace_back adj vertex_idx2 (vertex_idx1, weight) in
      add_edges g adj edges' weights'
  | _, _ => (g, adj)
  end.

(** What the second loop carries: [edge_idx], [xadj_], [adjncy_] and
    [adjwgt_]. *)
Record csr : Type := {
  edge_idx : Z;
  xadj : list Z;
  adjncy : list Z;
  adjwgt : list Z
}.

(** The inner loop, over the vector of one vertex. *)
Definition push_row (r : csr) (row : list (Z * Z)) : csr :=
  fold_left
    (fun r edge =>
       {| edge_idx := to_int (edge_idx r + 1);
          xadj := xadj r;
          adjncy := adjncy r ++ [fst edge];
          adjwgt := adjwgt r ++ [snd edge] |})
    row r.

(** One pass of the second loop, for the vertex index [i]. *)
Definition fill_row (adj : adjacency_list) (r : csr) (i : nat) : csr :=
  let r := {| edge_idx := edge_idx r; xadj := xadj r ++ [edge_idx r];
              adjncy := adjncy r; adjwgt := adjwgt r |} in
  match lookup adj (to_int (Z.of_nat i)) with
  | None => r                       (* [count(i) == 0]: [continue] *)
  | Some row => push_row r row
  end.

(** The constructor. *)
Definition make (edges : list (Z * Z)) (weights : list Z) : outcome GraclusGraph :=
  _ <- CHECK (length edges =? length weights)%nat ;;
  let '(g, adj) := add_edges initial [] edges weights in
  let size := length (vertex_id_to_idx_ g) in
  let r := fold_left (fill_row adj) (seq 0 size)
                     {| edge_idx := 0; xadj := []; adjncy := []; adjwgt := [] |} in
  let r := {| edge_idx := edge_idx r; xadj := xadj r ++ [edge_idx r];
              adjncy := adjncy r; adjwgt := adjwgt r |} in
  let twice := (2 * Z.of_nat (length edges))%Z in
  _ <- CHECK (to_size_t (edge_idx r) =? to_size_t twice)%Z ;;
  _ <- CHECK (length (xadj r) =? size + 1)%nat ;;
  _ <- CHECK (Z.of_nat (length (adjncy r)) =? to_size_t twice)%Z ;;
  _ <- CHECK (Z.of_nat (length (adjwgt r)) =? to_size_t twice)%Z ;;
  Ret {| vertex_id_to_idx_ := vertex_id_to_idx_ g;
         vertex_idx_to_id_ := vertex_idx_to_id_ g;
         xadj_ := xadj r; adjncy_ := adjncy r; adjwgt_ := adjwgt r;
         nvtxs := to_int (Z.of_nat size);
         nedges := to_int twice |}.

(** The two maps of a graph are inverse to each other, and the indices
    are the numbers below the number of vertices. *)
Definition consistent (g : GraclusGraph) : Prop :=
  let n := length (vertex_id_to_idx_ g) in
  length (vertex_idx_to_id_ g) = n /\
  (forall id idx, lookup (vertex_id_to_idx_ g) id = Some idx <->
                  lookup (vertex_idx_to_id_ g) idx = Some id) /\
  (forall idx, (exists id, lookup (vertex_idx_to_id_ g) idx = Some id) <->
               (0 <= idx < Z.of_nat n)%Z).

(** The vector stored under [k], empty when there is none. *)
Definition row_of (adj : adjacency_list) (k : Z) : list (Z * Z) :=
  match lookup adj k with
  | Some row => row
  | None => []
  end.

(** How a call of [ComputeNormalizedMinGraphCut] ends. *)
Inductive cut_result : Type :=
| Labels (labels : list (Z * Z))   (* the call returns *)
| CheckDies                        (* a [CHECK_EQ] of the constructor fails *)
| DivisionByZero                   (* the integer division in [levels] *)
| OutOfRange.                      (* [at] throws in [GetVertexId] *)

Section Cut.

(** Graclus (metisLib): the macro [amax], [log2_metis], and the labels
    that [MLKKM_PartGraphKway] writes into [cut_labels], by position
    ([ComputePartitionBalance] and [ComputeNCut], which follow, read
    them; what they return is not used). *)
Variable amax : Z -> Z -> Z.
Variable log2_metis : Z -> Z.
Variable MLKKM_PartGraphKway : GraclusGraph -> Z -> Z -> nat -> Z.

(** The last loop: [labels.emplace(graph.GetVertexId(idx), cut_labels[idx])]
    for the positions of [cut_labels]. *)
Fixpoint collect_labels (graph : GraclusGraph) (cut_labels : list Z)
         (idx : nat) (labels : list (Z * Z)) : cut_result :=
  match cut_labels with
  | [] => Labels labels
  | label :: rest =>
      match GetVertexId graph (to_int (Z.of_nat idx)) with
      | None => OutOfRange
      | Some id => collect_labels graph rest (S idx) (emplace labels id label)
      end
  end.

Definition ComputeNormalizedMinGraphCut (edges : list (Z * Z)) (weights : list Z)
           (num_parts : Z) : cut_result :=
  match make edges weights with
  | Ret graph =>
      let divisor := to_int (40 * log2_metis num_parts) in
      if (divisor =? 0)%Z then DivisionByZero
      else
        let levels :=
          amax (Z.quot (nvtxs graph) divisor) (to_int (20 * num_parts)) in
        (* [std::vector<idxtype> cut_labels(graph.data.nvtxs)], filled in by
           the partitioner *)
        let cut_labels :=
          map (MLKKM_PartGraphKway graph num_parts levels)
              (seq 0 (Z.to_nat (nvtxs graph))) in
        collect_labels graph cut_labels 0 []
  | _ => CheckDies
  end.

End Cut.

(** The number of entries stored under the keys [0], ..., [N - 1]. *)
Definition entries_below (adj : adjacency_list) (N : nat) : nat :=
  list_sum (map (fun i => length (row_of adj (Z.of_nat i))) (seq 0 N)).

End GraphCut.

(* ================================================================== *)
(** * Theorems *)
(* ================================================================== *)

(* ================================================================== *)
(** * Facts about the vector and matrix operations *)
(* ================================================================== *)

Lemma Rltb_true (x y : R) : Rltb x y = true <-> x < y.
Proof. unfold Rltb; destruct (Rlt_dec x y); split; intros; try easy. Qed.

Lemma Rltb_false (x y : R) : Rltb x y = false <-> ~ x < y.
Proof. unfold Rltb; destruct (Rlt_dec x y); split; intros; try easy. Qed.

(** Case analysis on every [Rmax], [Rabs] and comparison in sight. *)
Ltac real_cases :=
  unfold Rmax, Rabs, L1.sign in *;
  repeat match goal with
         | |- context [Rcase_abs ?a] => destruct (Rcase_abs a)
         end;
  repeat match goal with
         | |- context [Rlt_dec ?a ?b] => destruct (Rlt_dec a b)
         | |- context [Rle_dec ?a ?b] => destruct (Rle_dec a b)
         end;
  try lra.

Section VectorFacts.

Lemma zipWith_length f a b :
  length (zipWith f a b) = Nat.min (length a) (length b).
Proof.
  revert b; induction a as [|x a IH]; intros [|y b]; simpl; auto.
Qed.

Lemma zipWith_map f g h (v : VectorXd) :
  zipWith f (map g v) (map h v) = map (fun t => f (g t) (h t)) v.
Proof. induction v as [|t v IH]; simpl; congruence. Qed.

Lemma zipWith_repeat_l f c (v : VectorXd) :
  zipWith f (repeat c (length v)) v = map (f c) v.
Proof. induction v as [|t v IH]; simpl; congruence. Qed.

Lemma zipWith_repeat_r f c (v : VectorXd) :
  zipWith f v (repeat c (length v)) = map (fun t => f t c) v.
Proof. induction v as [|t v IH]; simpl; congruence. Qed.

Lemma map_id_ext (f : R -> R) (v : VectorXd) :
  (forall t, f t = t) -> map f v = v.
Proof. intros H; induction v as [|t v IH]; simpl; congruence. Qed.

Lemma map_const_zero (f : R -> R) (v : VectorXd) :
  (forall t, f t = 0) -> map f v = setZero (length v).
Proof.
  intros H; induction v as [|t v IH]; simpl; [easy|].
  now rewrite H, IH.
Qed.

Lemma vadd_zero_r (v : VectorXd) : vadd v (setZero (length v)) = v.
Proof.
  unfold vadd, setZero; rewrite zipWith_repeat_r.
  apply map_id_ext; intros; lra.
Qed.

Lemma vadd_zero_l (v : VectorXd) : vadd (setZero (length v)) v = v.
Proof.
  unfold vadd, setZero; rewrite zipWith_repeat_l.
  apply map_id_ext; intros; lra.
Qed.

Lemma vsub_zero_r (v : VectorXd) : vsub v (setZero (length v)) = v.
Proof.
  unfold vsub, setZero; rewrite zipWith_repeat_r.
  apply map_id_ext; intros; lra.
Qed.

Lemma vsub_self (v : VectorXd) : vsub v v = setZero (length v).
Proof.
  unfold vsub, setZero; induction v as [|t v IH]; simpl; [easy|].
  rewrite IH; f_equal; lra.
Qed.

Lemma setZero_length n : length (setZero n) = n.
Proof. apply repeat_length. Qed.

Lemma vscale_one (v : VectorXd) : vscale 1 v = v.
Proof. apply map_id_ext; intros; lra. Qed.

Lemma vscale_zero (v : VectorXd) : vscale 0 v = setZero (length v).
Proof. apply map_const_zero; intros; lra. Qed.

Lemma vscale_length c v : length (vscale c v) = length v.
Proof. apply length_map. Qed.

Lemma sum_scale c (l : list R) : sum (map (Rmult c) l) = c * sum l.
Proof. induction l as [|t l IH]; simpl; [lra | rewrite IH; lra]. Qed.

Lemma sum_zero (l : list R) : (forall t, In t l -> t = 0) -> sum l = 0.
Proof.
  induction l as [|t l IH]; simpl; intros H; [easy|].
  rewrite (H t), IH by auto; lra.
Qed.

Lemma sum_ext {A : Type} (f g : A -> R) (l : list A) :
  (forall a, In a l -> f a = g a) -> sum (map f l) = sum (map g l).
Proof.
  induction l as [|t l IH]; simpl; intros H; [easy|].
  rewrite (H t), IH by auto; easy.
Qed.

Lemma coeff_setZero n i : coeff (setZero n) i = 0.
Proof.
  unfold coeff, setZero; revert i; induction n; intros [|i]; simpl; auto.
Qed.

Lemma squaredNorm_setZero n : squaredNorm (setZero n) = 0.
Proof.
  unfold squaredNorm, setZero; induction n; simpl; [easy|].
  fold (sum (map (fun x => x * x) (repeat 0 n))); rewrite IHn; lra.
Qed.

Lemma norm_setZero n : norm (setZero n) = 0.
Proof. unfold norm; rewrite squaredNorm_setZero; apply sqrt_0. Qed.

Lemma squaredNorm_vscale c v : squaredNorm (vscale c v) = c * c * squaredNorm v.
Proof.
  unfold squaredNorm, vscale; induction v as [|t v IH]; simpl; [lra|].
  fold (sum (map (fun x => x * x) (map (Rmult c) v))); rewrite IH.
  fold (sum (map (fun x => x * x) v)); lra.
Qed.

Lemma norm_vscale_opp c v : norm (vscale (- c) v) = norm (vscale c v).
Proof.
  unfold norm; rewrite !squaredNorm_vscale; f_equal; lra.
Qed.

Lemma mat_vec_length m v : length (mat_vec m v) = rows m.
Proof. unfold mat_vec; now rewrite length_map, length_seq. Qed.

Lemma mat_vec_mscale c m v :
  mat_vec (mscale c m) v = vscale c (mat_vec m v).
Proof.
  unfold mat_vec, vscale, mscale; simpl.
  rewrite map_map; apply map_ext; intros i.
  unfold sum_upto; rewrite <- sum_scale, map_map.
  f_equal; apply map_ext; intros; lra.
Qed.

Lemma map_zero_repeat {A : Type} (l : list A) :
  map (fun _ => 0) l = setZero (length l).
Proof. unfold setZero; induction l as [|t l IH]; simpl; congruence. Qed.

Lemma mat_vec_setZero m n : mat_vec m (setZero n) = setZero (rows m).
Proof.
  unfold mat_vec.
  rewrite (map_ext_in _ (fun _ => 0)).
  - now rewrite map_zero_repeat, length_seq.
  - intros i _; apply sum_zero; intros t Ht.
    apply in_map_iff in Ht as (j & <- & _).
    rewrite coeff_setZero; lra.
Qed.

(** A sum against a row of the identity picks one entry. *)
Lemma sum_seq_delta (s n i : nat) (f : nat -> R) :
  sum (map (fun j => (if Nat.eqb i j then 1 else 0) * f j) (seq s n))
  = if (s <=? i)%nat && (i <? s + n)%nat then f i else 0.
Proof.
  revert s; induction n as [|n IH]; intros s; simpl.
  - destruct (s <=? i)%nat eqn:E1, (i <? s + 0)%nat eqn:E2; simpl; try easy.
    apply Nat.leb_le in E1; apply Nat.ltb_lt in E2; lia.
  - rewrite IH.
    destruct (Nat.eqb_spec i s) as [->|Hne].
    + rewrite Nat.leb_refl.
      replace (S s <=? s)%nat with false by (symmetry; apply Nat.leb_gt; lia).
      replace (s <? s + S n)%nat with true by (symmetry; apply Nat.ltb_lt; lia).
      simpl; lra.
    + destruct (s <=? i)%nat eqn:E1, (S s <=? i)%nat eqn:E2,
               (i <? S s + n)%nat eqn:E3, (i <? s + S n)%nat eqn:E4; simpl;
        try lra;
        repeat match goal with
               | H : (_ <=? _)%nat = true |- _ => apply Nat.leb_le in H
               | H : (_ <=? _)%nat = false |- _ => apply Nat.leb_gt in H
               | H : (_ <? _)%nat = true |- _ => apply Nat.ltb_lt in H
               | H : (_ <? _)%nat = false |- _ => apply Nat.ltb_ge in H
               end; lia.
Qed.

Lemma sum_upto_delta (n i : nat) (f : nat -> R) :
  (i < n)%nat ->
  sum_upto n (fun j => (if Nat.eqb i j then 1 else 0) * f j) = f i.
Proof.
  intros Hi; unfold sum_upto; rewrite sum_seq_delta; simpl.
  replace (i <? n)%nat with true by (symmetry; apply Nat.ltb_lt; lia).
  easy.
Qed.

Lemma map_coeff_seq (v : VectorXd) :
  map (coeff v) (seq 0 (length v)) = v.
Proof.
  unfold coeff; induction v as [|t v IH]; simpl; [easy|].
  f_equal; rewrite <- seq_shift, map_map; exact IH.
Qed.

Lemma mat_vec_Identity (v : VectorXd) :
  mat_vec (Identity (length v)) v = v.
Proof.
  unfold mat_vec; simpl.
  transitivity (map (coeff v) (seq 0 (length v))); [|apply map_coeff_seq].
  apply map_ext_in; intros i Hi; apply in_seq in Hi.
  apply sum_upto_delta; lia.
Qed.

End VectorFacts.

(* ================================================================== *)
(** * The L1 ADMM solver *)
(* ================================================================== *)

Section L1Facts.

Variable chol : Cholesky.SparseCholeskyLLt.


Lemma Shrinkage_map (vec : VectorXd) (kappa : R) :
  L1.Shrinkage vec kappa
  = map (fun v => Rmax 0 (v - kappa) - Rmax 0 (- v - kappa)) vec.
Proof.
  unfold L1.Shrinkage, vsub, setZero.
  induction vec as [|v vec IH]; simpl; [easy|].
  f_equal; exact IH.
Qed.

Lemma soft_threshold_scalar (v kappa : R) :
  0 <= kappa -> Rmax 0 (v - kappa) - Rmax 0 (- v - kappa) = L1.shrink v kappa.
Proof. intros Hk; unfold L1.shrink; real_cases. Qed.

Lemma Shrinkage_zero (n : nat) (kappa : R) :
  L1.Shrinkage (setZero n) kappa = setZero n.
Proof.
  rewrite Shrinkage_map; unfold setZero.
  induction n as [|n IH]; simpl; [easy|].
  rewrite IH; f_equal; real_cases.
Qed.

Lemma s_norm_spec (s : L1.L1Solver chol) st :
  L1.s_norm s st = L1.spec_dual_residual s st.
Proof.
  unfold L1.s_norm, L1.spec_dual_residual.
  now rewrite mat_vec_mscale, norm_vscale_opp.
Qed.

Lemma primal_eps_spec (s : L1.L1Solver chol) rhs st :
  L1.primal_eps s rhs st = L1.spec_eps_primal s rhs st.
Proof. reflexivity. Qed.

Lemma dual_eps_spec (s : L1.L1Solver chol) st :
  L1.dual_eps s st = L1.spec_eps_dual s st.
Proof.
  unfold L1.dual_eps, L1.spec_eps_dual; now rewrite mat_vec_mscale.
Qed.

(** The test at the end of the loop body is the stopping rule. *)
Lemma convergence_test_spec (s : L1.L1Solver chol) rhs st :
  Rltb (L1.r_norm s rhs st) (L1.primal_eps s rhs st)
  && Rltb (L1.s_norm s st) (L1.dual_eps s st) = true
  <-> L1.spec_converged s rhs st.
Proof.
  rewrite andb_true_iff, !Rltb_true, s_norm_spec, primal_eps_spec, dual_eps_spec.
  reflexivity.
Qed.

Lemma is_Success_true i : is_Success i = true <-> i = Success.
Proof. destruct i; simpl; split; congruence. Qed.

(** The three ways through the loop body. *)
Lemma body_failed (s : L1.L1Solver chol) rhs st x' info :
  Cholesky.Solve chol (L1.linear_solver_ s) (L1.x_rhs s rhs st) = (x', info) ->
  info <> Success ->
  L1.body s rhs st
  = L1.BodyReturn {| L1.x := x'; L1.z := L1.z st; L1.u := L1.u st;
                          L1.z_old := L1.z_old st |}.
Proof.
  intros E Hi; unfold L1.body; rewrite E.
  destruct info; simpl; congruence.
Qed.

Lemma body_solved (s : L1.L1Solver chol) rhs st x' :
  Cholesky.Solve chol (L1.linear_solver_ s) (L1.x_rhs s rhs st) = (x', Success) ->
  let st' := L1.admm_update s rhs st x' in
  (L1.spec_converged s rhs st' /\ L1.body s rhs st = L1.BodyBreak st')
  \/ (~ L1.spec_converged s rhs st' /\ L1.body s rhs st = L1.BodyNext st').
Proof.
  intros E st'; unfold L1.body; rewrite E; simpl; fold st'.
  destruct (Rltb (L1.r_norm s rhs st') (L1.primal_eps s rhs st')
            && Rltb (L1.s_norm s st') (L1.dual_eps s st')) eqn:T.
  - left; split; [now apply convergence_test_spec | reflexivity].
  - right; split; [|reflexivity].
    intros H; apply convergence_test_spec in H; congruence.
Qed.

Lemma admm_loop_S (s : L1.L1Solver chol) rhs n st :
  L1.loop s rhs (S n) st
  = match L1.body s rhs st with
    | L1.BodyReturn st' =>
        {| L1.final := st'; L1.left_by := L1.SolveFailed; L1.iterations := 0 |}
    | L1.BodyBreak st' =>
        {| L1.final := st'; L1.left_by := L1.Converged; L1.iterations := 1 |}
    | L1.BodyNext st' =>
        let r := L1.loop s rhs n st' in
        {| L1.final := L1.final r; L1.left_by := L1.left_by r;
           L1.iterations := S (L1.iterations r) |}
    end.
Proof. reflexivity. Qed.

Lemma loop_run (s : L1.L1Solver chol) rhs n st :
  let r := L1.loop s rhs n st in
  L1.admm_run s rhs n st (L1.final r) (L1.left_by r) (L1.iterations r).
Proof.
  revert st; induction n as [|n IH]; intros st; cbn [L1.loop].
  - constructor.
  - destruct (Cholesky.Solve chol (L1.linear_solver_ s) (L1.x_rhs s rhs st))
      as [x' info] eqn:E.
    destruct (is_Success info) eqn:Hs.
    + apply is_Success_true in Hs; subst info.
      destruct (body_solved s rhs st x' E) as [[Hc ->]|[Hc ->]]; cbn.
      * now apply L1.run_converged.
      * eapply L1.run_next; eauto; apply IH.
    + assert (Hi : info <> Success) by (intros ->; discriminate).
      rewrite (body_failed s rhs st x' info E Hi); cbn.
      eapply L1.run_failed; eauto.
Qed.

Lemma admm_run_functional (s : L1.L1Solver chol) rhs n st st1 e1 k1 st2 e2 k2 :
  L1.admm_run s rhs n st st1 e1 k1 ->
  L1.admm_run s rhs n st st2 e2 k2 ->
  st1 = st2 /\ e1 = e2 /\ k1 = k2.
Proof.
  intros H1; revert st2 e2 k2.
  induction H1; intros st2 e2 k2 H2; inversion H2; subst;
    try (repeat split; congruence);
    try match goal with
        | A : Cholesky.Solve _ _ _ = _, B : Cholesky.Solve _ _ _ = _ |- _ =>
            rewrite A in B; inversion B; subst
        end;
    try (repeat split; congruence); try contradiction.
  match goal with
  | H : L1.admm_run _ _ _ _ _ _ _ |- _ =>
      destruct (IHadmm_run _ _ _ H) as (-> & -> & ->); auto
  end.
Qed.

Lemma admm_run_exit (s : L1.L1Solver chol) rhs n st st' e k :
  L1.admm_run s rhs n st st' e k ->
  match e with
  | L1.Converged => L1.spec_converged s rhs st' /\ (1 <= k <= n)%nat
  | L1.SolveFailed => (k < n)%nat
  | L1.IterationCap => k = n
  end.
Proof.
  induction 1; simpl; auto; try lia.
  - split; [assumption | lia].
  - destruct e; intuition lia.
Qed.

End L1Facts.

Section L1Identity.

Variable chol : Cholesky.SparseCholeskyLLt.

Lemma mat_vec_ext_in (m1 m2 : Matrix) (v : VectorXd) :
  rows m1 = rows m2 -> cols m1 = cols m2 ->
  (forall i j, (i < rows m1)%nat -> (j < cols m1)%nat -> coef m1 i j = coef m2 i j) ->
  mat_vec m1 v = mat_vec m2 v.
Proof.
  intros Hr Hc H; unfold mat_vec; rewrite <- Hr, <- Hc.
  apply map_ext_in; intros i Hi; apply in_seq in Hi.
  unfold sum_upto; apply sum_ext; intros j Hj; apply in_seq in Hj.
  rewrite H by lia; reflexivity.
Qed.

Lemma mat_vec_transpose_Identity (v : VectorXd) :
  mat_vec (transpose (Identity (length v))) v = v.
Proof.
  rewrite <- (mat_vec_Identity v) at 3.
  apply mat_vec_ext_in; simpl; auto.
  intros i j _ _; now rewrite Nat.eqb_sym.
Qed.

Lemma mat_vec_gram_Identity (n : nat) (v : VectorXd) :
  mat_vec (mat_mul (transpose (Identity n)) (Identity n)) v
  = mat_vec (Identity n) v.
Proof.
  apply mat_vec_ext_in; simpl; auto.
  intros i j Hi _.
  rewrite <- (sum_upto_delta n i (fun k => if Nat.eqb k j then 1 else 0) Hi).
  unfold sum_upto; apply sum_ext; intros k _.
  now rewrite (Nat.eqb_sym k i).
Qed.

Lemma vadd_convex (a : R) (v : VectorXd) :
  vadd (vscale a v) (vscale (1 - a) v) = v.
Proof.
  unfold vadd, vscale; induction v as [|t v IH]; simpl; [easy|].
  rewrite IH; f_equal; lra.
Qed.

Lemma vadd_setZero (n : nat) : vadd (setZero n) (setZero n) = setZero n.
Proof.
  unfold vadd, setZero; induction n as [|n IH]; simpl; [easy|].
  rewrite IH; f_equal; lra.
Qed.

Lemma vsub_setZero (n : nat) : vsub (setZero n) (setZero n) = setZero n.
Proof.
  unfold vsub, setZero; induction n as [|n IH]; simpl; [easy|].
  rewrite IH; f_equal; lra.
Qed.

Lemma vscale_setZero (c : R) (n : nat) : vscale c (setZero n) = setZero n.
Proof.
  unfold vscale, setZero; induction n as [|n IH]; simpl; [easy|].
  rewrite IH; f_equal; lra.
Qed.

Lemma norm_nonneg (v : VectorXd) : 0 <= norm v.
Proof. apply sqrt_pos. Qed.

(** The vectors an iteration produces when [A] is the identity and [z],
    [u] are zero: [x = b] and [z], [u] stay zero. *)
Lemma admm_update_identity (s : L1.L1Solver chol) (b : VectorXd) (st : L1.admm_state) :
  L1.a_ s = Identity (length b) ->
  L1.z st = setZero (length b) ->
  L1.u st = setZero (length b) ->
  L1.admm_update s b st b
  = {| L1.x := b; L1.z := setZero (length b); L1.u := setZero (length b);
       L1.z_old := setZero (length b) |}.
Proof.
  intros Ha Hz Hu; unfold L1.admm_update.
  rewrite Ha, Hz, Hu, mat_vec_Identity, vadd_zero_l, vadd_convex.
  rewrite vsub_self, vadd_setZero, Shrinkage_zero, vsub_zero_r, vsub_self.
  now rewrite vadd_setZero.
Qed.

Lemma x_rhs_identity (s : L1.L1Solver chol) (b : VectorXd) (st : L1.admm_state) :
  L1.a_ s = Identity (length b) ->
  L1.z st = setZero (length b) ->
  L1.u st = setZero (length b) ->
  L1.x_rhs s b st = b.
Proof.
  intros Ha Hz Hu; unfold L1.x_rhs.
  now rewrite Ha, Hz, Hu, vadd_zero_r, vsub_zero_r, mat_vec_transpose_Identity.
Qed.

Lemma body_identity (s : L1.L1Solver chol) (b : VectorXd) (st : L1.admm_state) :
  L1.a_ s = Identity (length b) ->
  Cholesky.exact_factor chol (L1.linear_solver_ s)
    (mat_mul (transpose (Identity (length b))) (Identity (length b))) ->
  L1.z st = setZero (length b) /\ L1.u st = setZero (length b) ->
  let st' := {| L1.x := b; L1.z := setZero (length b); L1.u := setZero (length b);
                L1.z_old := setZero (length b) |} in
  (L1.spec_converged s b st' /\ L1.body s b st = L1.BodyBreak st')
  \/ (~ L1.spec_converged s b st' /\ L1.body s b st = L1.BodyNext st').
Proof.
  intros Ha Hex [Hz Hu] st'.
  destruct (Hex (L1.x_rhs s b st)) as (y & Hy & Hlen & Hsol).
  { rewrite x_rhs_identity by assumption; reflexivity. }
  rewrite mat_vec_gram_Identity in Hsol; simpl in Hlen.
  rewrite <- Hlen, mat_vec_Identity in Hsol.
  rewrite x_rhs_identity in Hsol by assumption; subst y.
  pose proof (body_solved chol s b st b Hy) as H.
  cbv zeta in H; rewrite admm_update_identity in H by assumption.
  exact H.
Qed.

Lemma loop_identity (s : L1.L1Solver chol) (b : VectorXd) :
  L1.a_ s = Identity (length b) ->
  Cholesky.exact_factor chol (L1.linear_solver_ s)
    (mat_mul (transpose (Identity (length b))) (Identity (length b))) ->
  forall (n : nat) (st : L1.admm_state),
    L1.z st = setZero (length b) /\ L1.u st = setZero (length b) ->
    L1.x st = b \/ (1 <= n)%nat ->
    L1.x (L1.final (L1.loop s b n st)) = b.
Proof.
  intros Ha Hex n; induction n as [|n IH]; intros st Hinv Hx; cbn [L1.loop].
  - destruct Hx; [assumption | lia].
  - destruct (body_identity s b st Ha Hex Hinv) as [[_ ->]|[_ ->]]; cbn.
    + reflexivity.
    + apply IH; [split; reflexivity | left; reflexivity].
Qed.

(** With the default tolerances and at least one row, the state reached
    after one iteration passes both residual tests. *)
Lemma identity_converged (s : L1.L1Solver chol) (b : VectorXd) :
  L1.a_ s = Identity (length b) ->
  L1.options_ s = L1.default_Options ->
  (0 < length b)%nat ->
  L1.spec_converged s b
    {| L1.x := b; L1.z := setZero (length b); L1.u := setZero (length b);
       L1.z_old := setZero (length b) |}.
Proof.
  intros Ha Ho Hn.
  assert (Hs : 0 < sqrt (INR (length b))) by (apply sqrt_lt_R0, lt_0_INR; lia).
  unfold L1.spec_converged, L1.spec_primal_residual, L1.spec_dual_residual,
    L1.spec_eps_primal, L1.spec_eps_dual; simpl.
  rewrite Ha, Ho; simpl.
  rewrite mat_vec_Identity, vsub_zero_r, vsub_self, vsub_setZero.
  rewrite (mat_vec_setZero (transpose (Identity (length b)))); simpl.
  rewrite vscale_setZero, !norm_setZero.
  pose proof (norm_nonneg b) as Hb.
  split.
  - assert (0 <= Rmax (Rmax (norm b) 0) (norm b)).
    { eapply Rle_trans; [exact Hb | apply Rmax_r]. }
    nra.
  - nra.
Qed.

End L1Identity.

(* ================================================================== *)
(** * L1 ADMM solver: the stopping rule, the identity system, the
      soft threshold *)
(* ================================================================== *)

(** C5, as stated, fails: the loop is also left, before any residual is
    looked at, when the Cholesky solve reports a failure.  With a factor
    whose [Solve] reports [NumericalIssue], the default options and the
    1x1 identity, [Solve] comes back in the first pass: no pass reached
    the convergence test and the cap of 1000 was not reached. *)
Lemma Solve_left_by_failed_solve :
  exists s : L1.L1Solver Fixture.failing_solve_chol,
    L1.make Fixture.failing_solve_chol L1.default_Options (Identity 1) = Ret s /\
    let r := L1.Solve Fixture.zeros s [1] [0] in
    L1.left_by r = L1.SolveFailed /\
    L1.iterations r = 0%nat /\
    ~ (L1.left_by r = L1.Converged \/
       L1.iterations r = Z.to_nat (L1.max_num_iterations (L1.options_ s))).
Proof.
  eexists; split; [reflexivity|].
  cbv zeta; unfold L1.Solve.
  change (Z.to_nat (L1.max_num_iterations _)) with (S 999).
  rewrite admm_loop_S.
  rewrite (body_failed Fixture.failing_solve_chol _ _ _ _ NumericalIssue eq_refl)
    by discriminate.
  cbn; repeat split; try easy.
  intros [H|H]; discriminate.
Qed.

(** C5 (amended).  [Solve] runs as the stopping rule says, with one more
    exit: each pass solves for [x]; when the Cholesky solve reports a
    failure the call returns at once; otherwise the vectors are updated
    and the loop is left exactly when
    [||A x - z - b|| < sqrt(rows A) eps_abs + eps_rel max(||A x||, ||z||, ||b||)]
    and
    [||rho A^T (z - z_old)|| < sqrt(cols A) eps_abs + eps_rel ||rho A^T u||];
    when no pass leaves the loop, [max_num_iterations] passes are made.
    The run [Solve] makes is the only run the rule allows. *)
Theorem Solve_stopping_rule
  (chol : Cholesky.SparseCholeskyLLt) (uninitialized : nat -> VectorXd)
  (s : L1.L1Solver chol) (rhs solution : VectorXd) :
  let r := L1.Solve uninitialized s rhs solution in
  let n := Z.to_nat (L1.max_num_iterations (L1.options_ s)) in
  let m := rows (L1.a_ s) in
  let st0 := {| L1.x := solution; L1.z := setZero m; L1.u := setZero m;
                L1.z_old := uninitialized m |} in
  L1.admm_run s rhs n st0 (L1.final r) (L1.left_by r) (L1.iterations r) /\
  (forall st' e k,
      L1.admm_run s rhs n st0 st' e k ->
      st' = L1.final r /\ e = L1.left_by r /\ k = L1.iterations r) /\
  match L1.left_by r with
  | L1.Converged =>
      L1.spec_converged s rhs (L1.final r) /\ (1 <= L1.iterations r <= n)%nat
  | L1.SolveFailed => (L1.iterations r < n)%nat
  | L1.IterationCap => L1.iterations r = n
  end.
Proof.
  intros r n m st0.
  assert (Hrun : L1.admm_run s rhs n st0 (L1.final r) (L1.left_by r) (L1.iterations r))
    by apply loop_run.
  split; [exact Hrun | split].
  - intros st' e k H.
    destruct (admm_run_functional chol s rhs n st0 _ _ _ _ _ _ H Hrun) as (? & ? & ?).
    auto.
  - exact (admm_run_exit chol s rhs n st0 _ _ _ Hrun).
Qed.

(** C7.  With [A] the identity of size [n], the default options and a
    Cholesky object whose [Compute] of [A^T A], when it reports success,
    solves [A^T A y = rhs] exactly: the constructor returns exactly when
    [Compute] reports success, and then [Solve(b, &x)] leaves [x = b] for
    every [b] of size [n] and every initial [x]; so each entry of [x] is
    within [eps_abs] of [b], and for [n > 0] the loop is left after the
    first iteration, by convergence. *)
Theorem Solve_identity
  (chol : Cholesky.SparseCholeskyLLt) (uninitialized : nat -> VectorXd)
  (n : nat) :
  let spd_mat := mat_mul (transpose (Identity n)) (Identity n) in
  let ls := Cholesky.Compute chol (Cholesky.Create chol) spd_mat in
  (Cholesky.Info chol ls = Success -> Cholesky.exact_factor chol ls spd_mat) ->
  (Cholesky.Info chol ls = Success <->
   exists s, L1.make chol L1.default_Options (Identity n) = Ret s) /\
  forall (s : L1.L1Solver chol) (b x0 : VectorXd),
    L1.make chol L1.default_Options (Identity n) = Ret s ->
    length b = n ->
    let r := L1.Solve uninitialized s b x0 in
    L1.x (L1.final r) = b /\
    Forall2 (fun xi bi => Rabs (xi - bi) <= L1.absolute_tolerance (L1.options_ s))
            (L1.x (L1.final r)) b /\
    ((0 < n)%nat -> L1.left_by r = L1.Converged /\ L1.iterations r = 1%nat).
Proof.
  intros spd_mat ls Hchol; split.
  { unfold L1.make; fold spd_mat; fold ls.
    destruct (Cholesky.Info chol ls); cbn [is_Success CHECK bind];
      split; try discriminate; eauto; intros [s Hs]; discriminate. }
  intros s b x0 Hmake Hlen; subst n.
  unfold L1.make in Hmake; fold spd_mat in Hmake; fold ls in Hmake.
  assert (Hinfo : Cholesky.Info chol ls = Success).
  { destruct (Cholesky.Info chol ls); cbn in Hmake; try discriminate; reflexivity. }
  rewrite Hinfo in Hmake; cbn [is_Success CHECK bind] in Hmake.
  injection Hmake as <-.
  pose proof (Hchol Hinfo) as Hex.
  set (s := {| L1.options_ := L1.default_Options;
               L1.a_ := Identity (length b);
               L1.linear_solver_ := ls |}) in *.
  assert (Ha : L1.a_ s = Identity (length b)) by reflexivity.
  assert (Hinv : L1.z {| L1.x := x0; L1.z := setZero (length b);
                         L1.u := setZero (length b);
                         L1.z_old := uninitialized (length b) |}
                 = setZero (length b) /\
                 L1.u {| L1.x := x0; L1.z := setZero (length b);
                         L1.u := setZero (length b);
                         L1.z_old := uninitialized (length b) |}
                 = setZero (length b))
    by (split; reflexivity).
  intros r.
  assert (Hx : L1.x (L1.final r) = b).
  { apply loop_identity; auto. right; simpl.
    change (Z.to_nat 1000) with (S 999); lia. }
  split; [exact Hx | split].
  - rewrite Hx; clear.
    induction b as [|t b IH]; constructor; [|exact IH].
    replace (t - t) with 0 by lra; rewrite Rabs_R0; simpl; lra.
  - intros Hn; subst r; unfold L1.Solve.
    change (Z.to_nat (L1.max_num_iterations (L1.options_ s))) with (S 999).
    change (rows (L1.a_ s)) with (length b).
    rewrite admm_loop_S.
    destruct (body_identity chol s b _ Ha Hex Hinv) as [[_ E]|[Hc _]].
    + rewrite E; split; reflexivity.
    + exfalso; apply Hc, identity_converged; auto.
Qed.

(** C7, at [n = 2], [b = (3, -1)], started from [x = (0, 0)]. *)
Lemma Solve_identity_witness :
  exists s : L1.L1Solver Fixture.identity_chol,
    L1.make Fixture.identity_chol L1.default_Options (Identity 2) = Ret s /\
    let r := L1.Solve Fixture.zeros s [3; -1] [0; 0] in
    L1.x (L1.final r) = [3; -1] /\
    L1.left_by r = L1.Converged /\ L1.iterations r = 1%nat.
Proof.
  eexists; split; [reflexivity|].
  assert (Hex : Cholesky.Info Fixture.identity_chol
                  (Cholesky.Compute Fixture.identity_chol
                     (Cholesky.Create Fixture.identity_chol)
                     (mat_mul (transpose (Identity 2)) (Identity 2))) = Success ->
                Cholesky.exact_factor Fixture.identity_chol
                  (Cholesky.Compute Fixture.identity_chol
                     (Cholesky.Create Fixture.identity_chol)
                     (mat_mul (transpose (Identity 2)) (Identity 2)))
                  (mat_mul (transpose (Identity 2)) (Identity 2))).
  { intros _ rhs Hrhs; exists rhs; split; [reflexivity|].
    split; [exact Hrhs|].
    rewrite mat_vec_gram_Identity.
    simpl in Hrhs; rewrite <- Hrhs; apply mat_vec_Identity. }
  destruct (proj2 (Solve_identity Fixture.identity_chol Fixture.zeros 2 Hex)
              _ [3; -1] [0; 0] eq_refl eq_refl) as (Hx & _ & Hc).
  split; [exact Hx | apply Hc; lia].
Defined.

(** C8, as stated, fails for a negative [rho]: with [rho = -1] and
    [v = 0.5] the implemented expression gives 1 and the soft threshold
    gives 1.5. *)
Lemma Shrinkage_negative_rho :
  L1.Shrinkage [0.5] (1 / -1) <> map (fun v => L1.shrink v (1 / -1)) [0.5] /\
  L1.Shrinkage [0.5] (1 / -1) = [1] /\
  map (fun v => L1.shrink v (1 / -1)) [0.5] = [1.5].
Proof.
  assert (E1 : L1.Shrinkage [0.5] (1 / -1) = [1]).
  { rewrite Shrinkage_map; simpl; f_equal.
    replace (1 / -1) with (-1) by lra. real_cases. }
  assert (E2 : map (fun v => L1.shrink v (1 / -1)) [0.5] = [1.5]).
  { simpl; f_equal; unfold L1.shrink.
    replace (1 / -1) with (-1) by lra. real_cases. }
  repeat split; auto.
  rewrite E1, E2; intros H; injection H; lra.
Qed.

(** C8 (amended).  For [rho > 0] and [kappa = 1 / rho], the implemented
    expression [max(0, v - kappa) - max(0, -v - kappa)] equals
    [sign(v) * max(|v| - kappa, 0)] in every component of every vector,
    and the z-update saves the old [z] in [z_old] and assigns
    [shrink(ax_hat - b + u, 1 / rho)] to [z]. *)
Theorem Shrinkage_soft_threshold
  (chol : Cholesky.SparseCholeskyLLt) (s : L1.L1Solver chol)
  (rhs : VectorXd) (st : L1.admm_state) (x' : VectorXd) :
  0 < L1.rho (L1.options_ s) ->
  let kappa := 1 / L1.rho (L1.options_ s) in
  let a := L1.alpha (L1.options_ s) in
  let ax_hat := vadd (vscale a (mat_vec (L1.a_ s) x'))
                     (vscale (1 - a) (vadd (L1.z st) rhs)) in
  (forall vec : VectorXd,
      L1.Shrinkage vec kappa = map (fun v => L1.shrink v kappa) vec) /\
  L1.z (L1.admm_update s rhs st x')
  = map (fun v => L1.shrink v kappa) (vadd (vsub ax_hat rhs) (L1.u st)) /\
  L1.z_old (L1.admm_update s rhs st x') = L1.z st.
Proof.
  intros Hrho kappa a ax_hat.
  assert (Hk : 0 <= kappa).
  { unfold kappa; apply Rlt_le, Rdiv_lt_0_compat; lra. }
  assert (Hs : forall vec, L1.Shrinkage vec kappa
                           = map (fun v => L1.shrink v kappa) vec).
  { intros vec; rewrite Shrinkage_map; apply map_ext; intros v.
    now apply soft_threshold_scalar. }
  split; [exact Hs | split; [|reflexivity]].
  unfold L1.admm_update; simpl; apply Hs.
Qed.

(** C8 (amended), at the default options ([rho = 1]) and the 1x1
    identity: the implemented expression agrees with the soft threshold
    on the vector (3), and an update from [z = (0)] saves (0) in
    [z_old]. *)
Lemma Shrinkage_soft_threshold_witness :
  let s := L1.Build_L1Solver Fixture.identity_chol
             L1.default_Options (Identity 1) tt in
  let st := {| L1.x := [0]; L1.z := [0]; L1.u := [0]; L1.z_old := [7] |} in
  0 < L1.rho (L1.options_ s) /\
  L1.Shrinkage [3] (1 / L1.rho (L1.options_ s))
  = map (fun v => L1.shrink v (1 / L1.rho (L1.options_ s))) [3] /\
  L1.z_old (L1.admm_update s [2] st [5]) = [0].
Proof.
  intros s st.
  assert (H : 0 < L1.rho (L1.options_ s)) by (simpl; lra).
  split; [exact H|].
  destruct (Shrinkage_soft_threshold _ s [2] st [5] H) as (Hs & _ & Hz).
  split; [apply Hs | exact Hz].
Defined.

(* ================================================================== *)
(** * The IRLS refiner *)
(* ================================================================== *)

Section StorageFacts.

Lemma set_coeff_length (v : VectorXd) (i : nat) (w : R) :
  length (set_coeff v i w) = length v.
Proof.
  revert i; induction v as [|t v IH]; intros [|i]; simpl; auto.
Qed.

Lemma coeff_set_coeff_same (v : VectorXd) (i : nat) (w : R) :
  (i < length v)%nat -> coeff (set_coeff v i w) i = w.
Proof.
  unfold coeff; revert i; induction v as [|t v IH]; intros [|i] H; simpl in *;
    try lia; auto.
  apply IH; lia.
Qed.

Lemma coeff_set_coeff_other (v : VectorXd) (i j : nat) (w : R) :
  i <> j -> coeff (set_coeff v i w) j = coeff v j.
Proof.
  unfold coeff; revert i j; induction v as [|t v IH]; intros [|i] [|j] H;
    simpl; auto; try lia.
Qed.

Lemma in_range3_spec (v : VectorXd) (start : Z) :
  IRLS.in_range3 v start = true <->
  (0 <= start /\ start + 3 <= Z.of_nat (length v))%Z.
Proof.
  unfold IRLS.in_range3; rewrite andb_true_iff, Z.leb_le, Z.leb_le; tauto.
Qed.

(** What a checked write of a segment does to the storage. *)
Lemma segment3_set_spec (v v' : VectorXd) (start : Z) (a b c : R) :
  IRLS.segment3_set v start (a, b, c) = Ret v' ->
  let s := Z.to_nat start in
  length v' = length v /\
  (s + 3 <= length v)%nat /\
  coeff v' s = a /\ coeff v' (s + 1) = b /\ coeff v' (s + 2) = c /\
  (forall i, (i < s \/ s + 3 <= i)%nat -> coeff v' i = coeff v i).
Proof.
  unfold IRLS.segment3_set.
  destruct (IRLS.in_range3 v start) eqn:E; [|discriminate].
  apply in_range3_spec in E; intros H; injection H as <-.
  set (s := Z.to_nat start).
  assert (Hs : (s + 3 <= length v)%nat) by (unfold s; lia).
  rewrite !set_coeff_length.
  repeat split; auto.
  - rewrite !coeff_set_coeff_other by lia.
    apply coeff_set_coeff_same; lia.
  - rewrite coeff_set_coeff_other by lia.
    apply coeff_set_coeff_same; rewrite set_coeff_length; lia.
  - apply coeff_set_coeff_same; rewrite !set_coeff_length; lia.
  - intros i Hi; rewrite !coeff_set_coeff_other by lia; reflexivity.
Qed.

Lemma segment3_get_spec (v : VectorXd) (start : Z) (e : Vector3d) :
  IRLS.segment3_get v start = Ret e ->
  (0 <= start)%Z /\ e = segment3 v (Z.to_nat start).
Proof.
  unfold IRLS.segment3_get.
  destruct (IRLS.in_range3 v start) eqn:E; [|discriminate].
  apply in_range3_spec in E; intros H; injection H as <-; split; [lia | easy].
Qed.

End StorageFacts.

(** Inversion of a [bind] that returns. *)
Lemma bind_Ret {A B : Type} (m : outcome A) (k : A -> outcome B) (b : B) :
  bind m k = Ret b -> exists a, m = Ret a /\ k a = Ret b.
Proof. destruct m; simpl; intros H; try discriminate; eauto. Qed.

Tactic Notation "inv_bind" hyp(H) "as" ident(a) ident(Ha) :=
  apply bind_Ret in H; destruct H as (a & Ha & H).


Lemma edge_weight_spec (sigma : R) (residual : VectorXd) (k : nat) (w : R) :
  IRLS.edge_weight sigma residual (Z.of_nat k) = Ret w ->
  w = IRLS.spec_weight sigma residual k.
Proof.
  unfold IRLS.edge_weight; intros H; inv_bind H as e He.
  apply segment3_get_spec in He as [_ He].
  replace (Z.to_nat (3 * Z.of_nat k)) with (3 * k)%nat in He by lia.
  subst e; unfold IRLS.spec_weight.
  destruct (segment3 residual (3 * k)) as [[e0 e1] e2].
  injection H as <-; simpl.
  unfold Rdiv; f_equal; f_equal; ring.
Qed.

(** The weights loop from edge [k0] on: the rows of the edges it visits
    hold the weight of their edge, the rows before are left alone. *)
Lemma compute_weights_spec (sigma : R) (residual : VectorXd) (n : nat) :
  forall (k0 : nat) (weights w : VectorXd),
    IRLS.compute_weights sigma residual n (Z.of_nat k0) weights = Ret w ->
    length w = length weights /\
    (forall k r, (k0 <= k < k0 + n)%nat -> (r < 3)%nat ->
                 coeff w (3 * k + r) = IRLS.spec_weight sigma residual k) /\
    (forall i, (i < 3 * k0)%nat -> coeff w i = coeff weights i).
Proof.
  induction n as [|n IH]; intros k0 weights w H; cbn [IRLS.compute_weights] in H.
  - injection H as <-; repeat split; auto; intros; lia.
  - inv_bind H as wk Hwk. apply edge_weight_spec in Hwk; subst wk.
    inv_bind H as w1 Hw1.
    apply segment3_set_spec in Hw1; cbv zeta in Hw1.
    replace (Z.to_nat (3 * Z.of_nat k0)) with (3 * k0)%nat in Hw1 by lia.
    destruct Hw1 as (Hlen & Hin & H0 & H1 & H2 & Hother).
    replace (Z.of_nat k0 + 1)%Z with (Z.of_nat (S k0)) in H by lia.
    apply IH in H as (Hlen' & Hnew & Hold).
    split; [congruence | split].
    + intros k r Hk Hr.
      destruct (Nat.eq_dec k k0) as [->|Hne].
      * rewrite Hold by lia.
        destruct r as [|[|[|r]]]; try lia.
        -- now rewrite Nat.add_0_r.
        -- assumption.
        -- assumption.
      * apply Hnew; lia.
    + intros i Hi; rewrite Hold by lia; apply Hother; lia.
Qed.

Section RefinerFacts.

Variable chol : Cholesky.SparseCholeskyLLt.
Variable MultiplyRotations : Vector3d -> Vector3d -> Vector3d.

Lemma ComputeResiduals_fields (self self' : IRLS.IRLSRotationLocalRefiner)
      (rr : view_pairs_t) (grot : image_map Vector3d) :
  IRLS.ComputeResiduals MultiplyRotations self rr grot = Ret self' ->
  IRLS.options_ self' = IRLS.options_ self /\
  IRLS.view_id_to_index_ self' = IRLS.view_id_to_index_ self /\
  IRLS.sparse_matrix_ self' = IRLS.sparse_matrix_ self /\
  IRLS.tangent_space_step_ self' = IRLS.tangent_space_step_ self.
Proof.
  unfold IRLS.ComputeResiduals; intros H; inv_bind H as res Hres.
  injection H as <-; simpl; auto.
Qed.

(** Every way through the loop body of [SolveIRLS] that comes back. *)
Lemma body_cases (rr : view_pairs_t) (st : IRLS.loop_state chol)
      (r : IRLS.body_result chol) :
  IRLS.body chol MultiplyRotations rr st = Ret r ->
  let self := IRLS.self_ chol st in
  exists weights : VectorXd,
    IRLS.compute_weights (IRLS.irls_loss_parameter_sigma (IRLS.options_ self))
      (IRLS.tangent_space_residual_ self) (length rr) 0 (IRLS.weights_ chol st)
    = Ret weights /\
    IRLS.weights_ chol (IRLS.state_of chol r) = weights /\
    let at_weight := IRLS.at_weight_of self weights in
    let ls := Cholesky.Factorize chol (IRLS.linear_solver chol st)
                (mat_mul at_weight (IRLS.sparse_matrix_ self)) in
    let sol := Cholesky.Solve chol ls
                 (mat_vec at_weight (IRLS.tangent_space_residual_ self)) in
    (Cholesky.Info chol ls <> Success /\
     r = IRLS.BodyReturnFalse chol
           {| IRLS.self_ := self; IRLS.rotations_ := IRLS.rotations_ chol st;
              IRLS.weights_ := weights; IRLS.linear_solver := ls |})
    \/
    (Cholesky.Info chol ls = Success /\ snd sol <> Success /\
     r = IRLS.BodyReturnFalse chol
           {| IRLS.self_ := IRLS.with_step self (fst sol);
              IRLS.rotations_ := IRLS.rotations_ chol st;
              IRLS.weights_ := weights; IRLS.linear_solver := ls |})
    \/
    (Cholesky.Info chol ls = Success /\ snd sol = Success /\
     exists (grot' : image_map Vector3d) (self' : IRLS.IRLSRotationLocalRefiner),
       IRLS.UpdateGlobalRotations MultiplyRotations
         (IRLS.with_step self (fst sol)) (IRLS.rotations_ chol st) = Ret grot' /\
       IRLS.ComputeResiduals MultiplyRotations
         (IRLS.with_step self (fst sol)) rr grot' = Ret self' /\
       let st' := {| IRLS.self_ := self'; IRLS.rotations_ := grot';
                     IRLS.weights_ := weights; IRLS.linear_solver := ls |} in
       let avg := IRLS.ComputeAverageStepSize self' in
       let threshold := IRLS.irls_step_convergence_threshold (IRLS.options_ self') in
       (avg < threshold /\ r = IRLS.BodyBreak chol st') \/
       (~ avg < threshold /\ r = IRLS.BodyNext chol st')).
Proof.
  intros H self; unfold IRLS.body in H; fold self in H.
  inv_bind H as weights Hw.
  exists weights; split; [exact Hw|].
  cbv zeta in H |- *.
  set (at_weight := IRLS.at_weight_of self weights) in *.
  set (ls := Cholesky.Factorize chol _ _) in *.
  destruct (is_Success (Cholesky.Info chol ls)) eqn:Ei; simpl in H.
  2:{ injection H as <-; split; [reflexivity|]. left; split; [|reflexivity].
      intros E; rewrite E in Ei; discriminate. }
  apply is_Success_true in Ei.
  destruct (Cholesky.Solve chol ls _) as [step info] eqn:Es; simpl.
  destruct (is_Success info) eqn:Ef; simpl in H.
  2:{ injection H as <-; split; [reflexivity|]. right; left.
      repeat split; auto. intros E; rewrite E in Ef; discriminate. }
  apply is_Success_true in Ef.
  inv_bind H as grot' Hg. inv_bind H as self' Hs.
  destruct (Rltb _ _) eqn:Et in H; injection H as <-;
    (split; [reflexivity|]); right; right; repeat split; auto;
    exists grot', self'; repeat split; auto.
  - left; split; [now apply Rltb_true | reflexivity].
  - right; split; [now apply Rltb_false | reflexivity].
Qed.

(** The loop, one iteration at a time. *)
Lemma irls_loop_S (rr : view_pairs_t) (n : nat) (st : IRLS.loop_state chol) :
  IRLS.loop chol MultiplyRotations rr (S n) st
  = (r <- IRLS.body chol MultiplyRotations rr st ;;
     match r with
     | IRLS.BodyReturnFalse _ st' => Ret (false, st')
     | IRLS.BodyBreak _ st' => Ret (true, st')
     | IRLS.BodyNext _ st' => IRLS.loop chol MultiplyRotations rr n st'
     end).
Proof. reflexivity. Qed.

(** [return false] in the body is a failure of the Cholesky object. *)
Lemma body_false_iff (rr : view_pairs_t) (st : IRLS.loop_state chol)
      (r : IRLS.body_result chol) :
  IRLS.body chol MultiplyRotations rr st = Ret r ->
  (exists st', r = IRLS.BodyReturnFalse chol st') <-> IRLS.cholesky_fails chol rr st.
Proof.
  intros H; destruct (body_cases rr st r H) as (weights & Hw & _ & Hc).
  cbv zeta in Hc; unfold IRLS.cholesky_fails; split.
  - intros [st' ->]; exists weights; split; [exact Hw|]; cbv zeta.
    destruct Hc as [[Hi _]|[(Hi & Hs & _)|(Hi & Hs & g & s' & _ & _ & Hr)]]; auto.
    destruct Hr as [[_ Hr]|[_ Hr]]; discriminate.
  - intros (weights' & Hw' & Hf); cbv zeta in Hf.
    rewrite Hw in Hw'; injection Hw' as <-.
    destruct Hc as [[Hi ->]|[(Hi & Hs & ->)|(Hi & Hs & _)]]; eauto.
    destruct Hf; contradiction.
Qed.

Lemma loop_false_iff (rr : view_pairs_t) (n : nat) :
  forall (st st' : IRLS.loop_state chol) (b : bool),
    IRLS.loop chol MultiplyRotations rr n st = Ret (b, st') ->
    (b = false <-> IRLS.failure_within chol MultiplyRotations rr n st).
Proof.
  induction n as [|n IH]; intros st st' b H.
  - injection H as <- <-; split; [discriminate | inversion 1].
  - rewrite irls_loop_S in H; inv_bind H as r Hr.
    pose proof (body_false_iff rr st r Hr) as Hf.
    destruct r as [s1|s1|s1].
    + injection H as <- <-; split; [intros _ | reflexivity].
      apply IRLS.failure_here, Hf; eauto.
    + injection H as <- <-; split; [discriminate|].
      inversion 1; subst.
      * match goal with
        | F : IRLS.cholesky_fails _ _ _ |- _ =>
            apply Hf in F; destruct F; discriminate
        end.
      * congruence.
    + rewrite (IH _ _ _ H); split.
      * intros F; eapply IRLS.failure_after; eauto.
      * inversion 1; subst.
        -- match goal with
           | F : IRLS.cholesky_fails _ _ _ |- _ =>
               apply Hf in F; destruct F; discriminate
           end.
        -- match goal with
           | E : IRLS.body _ _ _ _ = Ret (IRLS.BodyNext _ _) |- _ =>
               rewrite Hr in E; injection E as <-; assumption
           end.
Qed.

End RefinerFacts.

Section RefinerGauge.

Variable chol : Cholesky.SparseCholeskyLLt.
Variable MultiplyRotations : Vector3d -> Vector3d -> Vector3d.

Lemma FindOrDie_Ret {V : Type} (m : image_map V) (k : image_t) (v : V) :
  FindOrDie m k = Ret v -> find m k = Some v.
Proof. unfold FindOrDie; destruct (find m k); intros H; congruence. Qed.

(** [UpdateGlobalRotations] leaves the view of dense index 0 as it is. *)
Lemma UpdateGlobalRotations_gauge (self : IRLS.IRLSRotationLocalRefiner)
      (grot grot' : image_map Vector3d) :
  IRLS.UpdateGlobalRotations MultiplyRotations self grot = Ret grot' ->
  forall id : image_t,
    find (IRLS.view_id_to_index_ self) id = Some 0%Z ->
    find grot' id = find grot id.
Proof.
  revert grot'; induction grot as [|[id' rot] rest IH]; intros grot' H id Hid.
  - injection H as <-; reflexivity.
  - cbn [IRLS.UpdateGlobalRotations] in H.
    inv_bind H as index Hindex. apply FindOrDie_Ret in Hindex.
    inv_bind H as rot' Hrot. inv_bind H as rest' Hrest.
    injection H as <-; simpl.
    destruct (N.eqb_spec id' id) as [->|Hne].
    + rewrite Hid in Hindex; injection Hindex as <-.
      simpl in Hrot; congruence.
    + eapply IH; eauto.
Qed.

Lemma body_gauge (rr : view_pairs_t) (st : IRLS.loop_state chol)
      (r : IRLS.body_result chol) :
  IRLS.body chol MultiplyRotations rr st = Ret r ->
  let st' := IRLS.state_of chol r in
  IRLS.view_id_to_index_ (IRLS.self_ chol st')
  = IRLS.view_id_to_index_ (IRLS.self_ chol st) /\
  forall id : image_t,
    find (IRLS.view_id_to_index_ (IRLS.self_ chol st)) id = Some 0%Z ->
    find (IRLS.rotations_ chol st') id = find (IRLS.rotations_ chol st) id.
Proof.
  intros H; destruct (body_cases chol MultiplyRotations rr st r H)
    as (weights & _ & _ & Hc); cbv zeta in Hc |- *.
  destruct Hc as [[_ ->]|[(_ & _ & ->)|(_ & _ & g & s' & Hg & Hs & Hr)]];
    simpl; auto.
  apply ComputeResiduals_fields in Hs as (_ & Hidx & _).
  assert (Hgauge := UpdateGlobalRotations_gauge _ _ _ Hg).
  destruct Hr as [[_ ->]|[_ ->]]; simpl; split; auto.
Qed.

Lemma loop_gauge (rr : view_pairs_t) (n : nat) :
  forall (st st' : IRLS.loop_state chol) (b : bool),
    IRLS.loop chol MultiplyRotations rr n st = Ret (b, st') ->
    IRLS.view_id_to_index_ (IRLS.self_ chol st')
    = IRLS.view_id_to_index_ (IRLS.self_ chol st) /\
    forall id : image_t,
      find (IRLS.view_id_to_index_ (IRLS.self_ chol st)) id = Some 0%Z ->
      find (IRLS.rotations_ chol st') id = find (IRLS.rotations_ chol st) id.
Proof.
  induction n as [|n IH]; intros st st' b H.
  - injection H as <- <-; auto.
  - rewrite irls_loop_S in H; inv_bind H as r Hr.
    destruct (body_gauge rr st r Hr) as [Hidx Hrot].
    destruct r as [s1|s1|s1]; simpl in Hidx, Hrot.
    1,2: injection H as <- <-; auto.
    destruct (IH _ _ _ H) as [Hidx' Hrot'].
    split; [congruence|].
    intros id Hid; rewrite Hrot' by congruence; auto.
Qed.

End RefinerGauge.

(** [SolveIRLS] as a whole: the rotation of the view of dense index 0 is
    the one the caller passed in, whatever the call returns. *)
Lemma SolveIRLS_gauge
  (chol : Cholesky.SparseCholeskyLLt)
  (MultiplyRotations : Vector3d -> Vector3d -> Vector3d)
  (ViewIdToAscentIndex : image_map Vector3d -> image_map Z)
  (SetupLinearSystem : view_pairs_t -> nat -> image_map Z -> Matrix)
  (uninitialized : nat -> VectorXd)
  (self self' : IRLS.IRLSRotationLocalRefiner)
  (rr : view_pairs_t) (grot grot' : image_map Vector3d) (b : bool) :
  IRLS.SolveIRLS chol MultiplyRotations ViewIdToAscentIndex SetupLinearSystem
                 uninitialized self rr grot = Ret (b, grot', self') ->
  forall id : image_t,
    find (IRLS.view_id_to_index_ self') id = Some 0%Z ->
    find grot' id = find grot id.
Proof.
  unfold IRLS.SolveIRLS; intros H; inv_bind H as self1 Hprep.
  destruct (negb _) in H.
  - injection H as <- <- <-; auto.
  - inv_bind H as self2 Hres.
    apply ComputeResiduals_fields in Hres as (_ & Hidx & _).
    inv_bind H as p Hloop; destruct p as [b' st'].
    injection H as <- <- <-.
    apply loop_gauge in Hloop as [Hidx' Hrot]; simpl in Hidx', Hrot.
    intros id Hid; apply Hrot; congruence.
Qed.

(** [SolveIRLS] returns false exactly on a numerical failure. *)
Lemma SolveIRLS_false_iff
  (chol : Cholesky.SparseCholeskyLLt)
  (MultiplyRotations : Vector3d -> Vector3d -> Vector3d)
  (ViewIdToAscentIndex : image_map Vector3d -> image_map Z)
  (SetupLinearSystem : view_pairs_t -> nat -> image_map Z -> Matrix)
  (uninitialized : nat -> VectorXd)
  (self self' : IRLS.IRLSRotationLocalRefiner)
  (rr : view_pairs_t) (grot grot' : image_map Vector3d) (b : bool) :
  IRLS.SolveIRLS chol MultiplyRotations ViewIdToAscentIndex SetupLinearSystem
                 uninitialized self rr grot = Ret (b, grot', self') ->
  exists self1 : IRLS.IRLSRotationLocalRefiner,
    IRLS.prepare ViewIdToAscentIndex SetupLinearSystem self rr grot = Ret self1 /\
    (b = false <->
     IRLS.numerical_failure chol MultiplyRotations uninitialized self1 rr grot).
Proof.
  unfold IRLS.SolveIRLS; intros H; inv_bind H as self1 Hprep.
  exists self1; split; [exact Hprep|].
  unfold IRLS.numerical_failure; cbv zeta.
  set (ls := Cholesky.AnalyzePattern chol _ _) in *.
  destruct (is_Success (Cholesky.Info chol ls)) eqn:Ei; simpl in H.
  - apply is_Success_true in Ei.
    inv_bind H as self2 Hres. inv_bind H as p Hloop; destruct p as [b' st'].
    injection H as <- <- <-.
    rewrite (loop_false_iff chol MultiplyRotations rr _ _ _ _ Hloop).
    split.
    + intros F; right; exists self2; auto.
    + intros [F|(s2 & Hs2 & F)]; [congruence|].
      rewrite Hres in Hs2; injection Hs2 as <-; exact F.
  - injection H as <- <- <-; split; [intros _ | reflexivity].
    left; intros E; rewrite E in Ei; discriminate.
Qed.

(* ================================================================== *)
(** * The Lagrange-dual estimator *)
(* ================================================================== *)

Section MapFacts.

Context {V : Type}.

Lemma find_assign_same (m : image_map V) (k : image_t) (v : V) :
  find (assign m k v) k = Some v.
Proof.
  induction m as [|[k' v'] m IH]; simpl.
  - now rewrite N.eqb_refl.
  - destruct (N.eqb_spec k' k) as [->|Hne]; simpl.
    + now rewrite N.eqb_refl.
    + destruct (N.eqb_spec k' k); [contradiction | exact IH].
Qed.

Lemma find_assign_other (m : image_map V) (k k' : image_t) (v : V) :
  k <> k' -> find (assign m k v) k' = find m k'.
Proof.
  intros Hne; induction m as [|[k0 v0] m IH]; simpl.
  - destruct (N.eqb_spec k k'); [contradiction | reflexivity].
  - destruct (N.eqb_spec k0 k) as [->|Hne0]; simpl.
    + destruct (N.eqb_spec k k'); [contradiction | reflexivity].
    + destruct (N.eqb_spec k0 k'); [reflexivity | exact IH].
Qed.

Lemma find_Some_In (m : image_map V) (k : image_t) (v : V) :
  find m k = Some v -> In k (map fst m).
Proof.
  induction m as [|[k' v'] m IH]; simpl; [discriminate|].
  destruct (N.eqb_spec k' k); auto.
Qed.

End MapFacts.

Lemma subscript_spec (m m' : image_map Z) (k : image_t) (i : Z) :
  subscript m k = (i, m') ->
  find m' k = Some i /\
  (forall k' j, find m k' = Some j -> find m' k' = Some j).
Proof.
  unfold subscript; destruct (find m k) as [v|] eqn:E; intros H;
    injection H as <- <-.
  - auto.
  - split; [apply find_assign_same|].
    intros k' j Hj; rewrite find_assign_other; [exact Hj|].
    intros ->; congruence.
Qed.

Section EstimatorFacts.

Variable SDPSolver : Type.
Variable Summary : Type.
Variables RBRSDPSolver RankRestrictedSDPSolver RiemannianStaircase :
  Z -> Z -> LagrangeDual.SDPSolverOptions -> SDPSolver.
Variable SetCovariance : SDPSolver -> Matrix -> SDPSolver.
Variable SetAdjacentEdges : SDPSolver -> LagrangeDual.adjacency -> SDPSolver.
Variable SDPSolve : SDPSolver -> Summary -> SDPSolver * Summary.
Variable GetSolution : SDPSolver -> Matrix.
Variable AngleAxisToRotationMatrix : Vector3d -> Matrix.
Variable RotationMatrixToAngleAxis : Matrix -> Vector3d.
Variable ViewIdToAscentIndex : image_map Vector3d -> image_map Z.

Let Estimator : Type := LagrangeDual.LagrangeDualRotationEstimator Summary.

Let EstimateRotations :=
  LagrangeDual.EstimateRotations SDPSolver Summary RBRSDPSolver
    RankRestrictedSDPSolver RiemannianStaircase SetCovariance SetAdjacentEdges
    SDPSolve GetSolution AngleAxisToRotationMatrix RotationMatrixToAngleAxis
    ViewIdToAscentIndex.

Let CreateSDPSolver :=
  LagrangeDual.CreateSDPSolver SDPSolver Summary RBRSDPSolver
    RankRestrictedSDPSolver RiemannianStaircase.

Let FillinRelativeGraph :=
  LagrangeDual.FillinRelativeGraph Summary AngleAxisToRotationMatrix.

Let ensure_index := LagrangeDual.ensure_index Summary ViewIdToAscentIndex.

Lemma ensure_index_fields (self : Estimator) (grot : image_map Vector3d) :
  let self0 := ensure_index self grot in
  LagrangeDual.options_ Summary self0 = LagrangeDual.options_ Summary self /\
  LagrangeDual.images_num_ Summary self0 = LagrangeDual.images_num_ Summary self /\
  LagrangeDual.dim_ Summary self0 = LagrangeDual.dim_ Summary self /\
  LagrangeDual.R_ Summary self0 = LagrangeDual.R_ Summary self /\
  LagrangeDual.alpha_max_ Summary self0 = LagrangeDual.alpha_max_ Summary self /\
  LagrangeDual.summary_ Summary self0 = LagrangeDual.summary_ Summary self.
Proof.
  unfold ensure_index, LagrangeDual.ensure_index.
  destruct (LagrangeDual.view_id_to_index_ Summary self); repeat split; reflexivity.
Qed.

(** What [FillinRelativeGraph] leaves when it comes back: every triplet
    was inside [R_], and only [R_] and the index map have changed. *)
Lemma FillinRelativeGraph_Ret (self self' : Estimator) (view_pairs : view_pairs_t)
      (adj adj' : LagrangeDual.adjacency) :
  FillinRelativeGraph self view_pairs adj = Ret (self', adj') ->
  let filled :=
    LagrangeDual.fill_edges AngleAxisToRotationMatrix (LagrangeDual.dim_ Summary self)
      view_pairs (LagrangeDual.view_id_to_index_ Summary self) [] adj in
  let n := rows (LagrangeDual.R_ Summary self) in
  let m := cols (LagrangeDual.R_ Summary self) in
  forallb (triplet_in_range n m) (snd (fst filled)) = true /\
  adj' = snd filled /\
  self' = {| LagrangeDual.options_ := LagrangeDual.options_ Summary self;
             LagrangeDual.summary_ := LagrangeDual.summary_ Summary self;
             LagrangeDual.images_num_ := LagrangeDual.images_num_ Summary self;
             LagrangeDual.dim_ := LagrangeDual.dim_ Summary self;
             LagrangeDual.R_ :=
               mkMatrix n m
                 (fun i j => sum (map (triplet_at i j) (snd (fst filled))));
             LagrangeDual.Y_ := LagrangeDual.Y_ Summary self;
             LagrangeDual.alpha_max_ := LagrangeDual.alpha_max_ Summary self;
             LagrangeDual.view_id_to_index_ := fst (fst filled) |}.
Proof.
  unfold FillinRelativeGraph, LagrangeDual.FillinRelativeGraph; intros H.
  destruct (LagrangeDual.fill_edges _ _ _ _ _ _) as [[index triplets] adj1].
  unfold setFromTriplets in H; cbn [fst snd].
  destruct (forallb _ triplets); cbn [bind] in H; [|discriminate].
  injection H as <- <-; auto.
Qed.

Lemma FillinRelativeGraph_not_null (self : Estimator) (view_pairs : view_pairs_t)
      (adj : LagrangeDual.adjacency) :
  FillinRelativeGraph self view_pairs adj <> NullDereference.
Proof.
  unfold FillinRelativeGraph, LagrangeDual.FillinRelativeGraph.
  destruct (LagrangeDual.fill_edges _ _ _ _ _ _) as [[index triplets] adj1].
  unfold setFromTriplets; destruct (forallb _ triplets); discriminate.
Qed.

Lemma retrieve_loop_not_null (Y : Matrix) (entries : image_map Vector3d) :
  forall (index : image_map Z) (g : image_map Vector3d),
    LagrangeDual.retrieve_loop RotationMatrixToAngleAxis Y entries index g
    <> NullDereference.
Proof.
  induction entries as [|[view_id rot] rest IH]; intros index g;
    cbn [LagrangeDual.retrieve_loop]; [discriminate|].
  destruct (subscript index view_id) as [i index1].
  unfold LagrangeDual.retrieved_rotation, block33.
  destruct (in_block33 Y 0 (3 * i)); cbn [bind]; [apply IH | discriminate].
Qed.

(** The loop of [RetrieveRotations], when it comes back: the index map
    only grows, every entry it visits is overwritten with the rotation
    retrieved from its block, the others are left alone. *)
Lemma retrieve_loop_spec (Y : Matrix) (entries : image_map Vector3d) :
  forall (index : image_map Z) (g : image_map Vector3d)
         (index' : image_map Z) (g' : image_map Vector3d),
    LagrangeDual.retrieve_loop RotationMatrixToAngleAxis Y entries index g
    = Ret (index', g') ->
    (forall id i, find index id = Some i -> find index' id = Some i) /\
    (forall id, In id (map fst entries) ->
                exists i v, find index' id = Some i /\
                            LagrangeDual.retrieved_rotation
                              RotationMatrixToAngleAxis Y i = Ret v /\
                            find g' id = Some v) /\
    (forall id, ~ In id (map fst entries) -> find g' id = find g id).
Proof.
  induction entries as [|[view_id rot] rest IH]; intros index g index' g' H.
  - injection H as <- <-; repeat split; auto; intros id [].
  - cbn [LagrangeDual.retrieve_loop] in H.
    destruct (subscript index view_id) as [i index1] eqn:Es.
    apply subscript_spec in Es as [Hi Hmono].
    inv_bind H as angle_axis Ha.
    apply IH in H as (Hgrow & Hin & Hout).
    split; [auto | split].
    + intros id Hid.
      destruct (in_dec N.eq_dec id (map fst rest)) as [Hr|Hr]; [auto|].
      destruct Hid as [<-|Hid]; [|contradiction].
      exists i, angle_axis; split; [auto | split; [exact Ha|]].
      rewrite Hout by assumption; apply find_assign_same.
    + intros id Hid; simpl in Hid.
      rewrite Hout by tauto.
      apply find_assign_other; tauto.
Qed.

(** What [EstimateRotations] does when it comes back. *)
Lemma EstimateRotations_Ret (self self' : Estimator) (view_pairs : view_pairs_t)
      (grot grot' : image_map Vector3d) (b : bool) :
  EstimateRotations self view_pairs grot = Ret (b, grot', self') ->
  b = true /\
  LagrangeDual.alpha_max_ Summary self' = LagrangeDual.alpha_max_ Summary self /\
  forall (id : image_t) (v : Vector3d),
    find grot id = Some v ->
    exists (i : Z) (v' : Vector3d),
      find (LagrangeDual.view_id_to_index_ Summary self') id = Some i /\
      LagrangeDual.retrieved_rotation RotationMatrixToAngleAxis
        (LagrangeDual.Y_ Summary self') i = Ret v' /\
      find grot' id = Some v'.
Proof.
  unfold EstimateRotations, LagrangeDual.EstimateRotations; intros H.
  inv_bind H as u1 H1. inv_bind H as u2 H2.
  inv_bind H as filled Hf; destruct filled as [self1 adj].
  apply FillinRelativeGraph_Ret in Hf as (_ & _ & Hself1).
  destruct (LagrangeDual.CreateSDPSolver _ _ _ _ _ _ _ _) as [solver|] in H;
    [|discriminate].
  destruct (SDPSolve _ _) as [solver' summary] in H.
  inv_bind H as retrieved Er; destruct retrieved as [self2 g2].
  injection H as <- <- <-.
  unfold LagrangeDual.RetrieveRotations in Er.
  cbn [LagrangeDual.view_id_to_index_] in Er.
  inv_bind Er as looped El; destruct looped as [index' g'].
  injection Er as <- <-.
  split; [reflexivity | split].
  - cbn; rewrite Hself1; cbn.
    apply (ensure_index_fields self grot).
  - intros id v Hv; cbn.
    apply retrieve_loop_spec in El as (_ & Hin & _).
    apply Hin; eapply find_Some_In; eauto.
Qed.

(** The null pointer is dereferenced exactly when both [CHECK]s pass,
    every triplet of [FillinRelativeGraph] is inside [R_], and the solver
    type is none of the three named ones. *)
Lemma EstimateRotations_null (self : Estimator) (view_pairs : view_pairs_t)
      (grot : image_map Vector3d) :
  EstimateRotations self view_pairs grot = NullDereference <->
  view_pairs <> [] /\ (0 < LagrangeDual.images_num_ Summary self)%Z /\
  (exists filled,
      FillinRelativeGraph (ensure_index self grot) view_pairs [] = Ret filled) /\
  exists v, LagrangeDual.solver_type (LagrangeDual.options_ Summary self)
            = LagrangeDual.OtherSolverType v.
Proof.
  unfold EstimateRotations, LagrangeDual.EstimateRotations.
  destruct view_pairs as [|p rest]; cbn [length Nat.ltb Nat.leb CHECK bind].
  { split; [discriminate | intros [H _]; congruence]. }
  destruct (Z.ltb_spec 0 (LagrangeDual.images_num_ Summary self)) as [HN|HN];
    cbn [CHECK bind].
  2:{ split; [discriminate | intros (_ & H & _); lia]. }
  fold ensure_index FillinRelativeGraph.
  pose proof (FillinRelativeGraph_not_null (ensure_index self grot) (p :: rest) [])
    as Hnn.
  destruct (FillinRelativeGraph (ensure_index self grot) (p :: rest) [])
    as [[self1 adj]| |] eqn:Ef; cbn [bind].
  2:{ split; [discriminate | intros (_ & _ & [f Hf] & _); discriminate]. }
  2:{ congruence. }
  pose proof Ef as Hf.
  apply FillinRelativeGraph_Ret in Hf as (_ & _ & Hself1).
  assert (Ho : LagrangeDual.options_ Summary self1
               = LagrangeDual.options_ Summary self).
  { rewrite Hself1; cbn. apply (ensure_index_fields self grot). }
  unfold LagrangeDual.CreateSDPSolver; rewrite Ho.
  destruct (LagrangeDual.solver_type (LagrangeDual.options_ Summary self)) eqn:Et.
  1-3: split; [| intros (_ & _ & _ & v & Hv); discriminate];
       intros H; exfalso;
       destruct (SDPSolve _ _) as [solver' summary] in H;
       unfold LagrangeDual.RetrieveRotations in H;
       match type of H with
       | bind (bind ?l _) _ = _ =>
           assert (Hl : l <> NullDereference) by apply retrieve_loop_not_null;
           destruct l as [[ix g]| |]; cbn [bind] in H; congruence
       end.
  split; [intros _ | reflexivity].
  split; [discriminate | split; [exact HN | split; eauto]].
Qed.

End EstimatorFacts.

(** Evaluation of the code on concrete input, real arithmetic left as it
    stands. *)
Ltac run_code :=
  lazy -[Rplus Rminus Rmult Ropp Rinv Rdiv IZR INR Rmax Rabs sqrt asin PI pow
         Rlt_dec Rle_dec Rltb Rlt Rle].

Lemma fold_left_add {A : Type} (f : A -> R) (l : list A) (a : R) :
  fold_left (fun acc k => acc + f k) l a = a + sum (map f l).
Proof.
  revert a; induction l as [|t l IH]; intros a; simpl; [lra|].
  rewrite IH; lra.
Qed.

Lemma ComputeAverageStepSize_spec (self : IRLS.IRLSRotationLocalRefiner) :
  let step := IRLS.tangent_space_step_ self in
  let n := (length step / 3)%nat in
  IRLS.ComputeAverageStepSize self
  = 1 / INR n * sum (map (fun k => norm3 (segment3 step (3 * k))) (seq 0 n)).
Proof.
  unfold IRLS.ComputeAverageStepSize; cbv zeta.
  rewrite fold_left_add; unfold Rdiv; ring.
Qed.

(** C4, as stated, fails: the sum is divided by the number of 3-blocks of
    the step, which is one less than the number of views.  For two views
    and the step (1, 0, 0) the code gives 1, and (1/V) times the sum of
    the norms is 1/2. *)
Lemma average_divides_by_step_blocks :
  let V := 2%Z in
  let self := IRLS.SetInitTangentSpaceStep
                (IRLS.make Fixture.zeros V 1 (IRLS.default_IRLSRefinerOptions 1))
                [1; 0; 0] in
  IRLS.ComputeAverageStepSize self = 1 /\
  1 / IZR V * sum [norm3 (segment3 (IRLS.tangent_space_step_ self) 0)] = 1 / 2 /\
  IRLS.ComputeAverageStepSize self
  <> 1 / IZR V * sum [norm3 (segment3 (IRLS.tangent_space_step_ self) 0)].
Proof.
  intros V self.
  assert (Hn : norm3 (segment3 (IRLS.tangent_space_step_ self) 0) = 1).
  { unfold norm3; run_code.
    replace (1 * 1 + 0 * 0 + 0 * 0) with 1 by lra. apply sqrt_1. }
  assert (Ha : IRLS.ComputeAverageStepSize self = 1).
  { rewrite ComputeAverageStepSize_spec; cbv zeta.
    change (length (IRLS.tangent_space_step_ self) / 3)%nat with 1%nat.
    change (seq 0 1) with [0%nat]; cbn [map sum fold_right].
    change (3 * 0)%nat with 0%nat.
    rewrite Hn; simpl; lra. }
  rewrite Ha; cbn [sum fold_right]; rewrite Hn; unfold V.
  repeat split; lra.
Qed.

Section RefinerTheorems.

Variable chol : Cholesky.SparseCholeskyLLt.
Variable MultiplyRotations : Vector3d -> Vector3d -> Vector3d.

(** C4 (amended).  The average step size is the sum of the norms of the
    3-vector increments divided by their number [V - 1], the number of
    views that are not the anchor (the step has [3 (V - 1)] entries,
    [V >= 2]).  In an iteration that comes back: when the factorization
    and the solve both report success, the step is the solution of the
    solve and the iteration ends in [break] exactly when the average
    size of that step is below [irls_step_convergence_threshold], and
    otherwise goes on to the next iteration; when one of them does not
    report success the iteration returns [false].  [break] makes the loop
    return [true], and going on hands the state to the next iteration. *)
Theorem average_step_size (rr : view_pairs_t) (st : IRLS.loop_state chol)
        (r : IRLS.body_result chol) :
  IRLS.body chol MultiplyRotations rr st = Ret r ->
  (forall (self : IRLS.IRLSRotationLocalRefiner) (V : nat),
      (2 <= V)%nat ->
      length (IRLS.tangent_space_step_ self) = (3 * (V - 1))%nat ->
      IRLS.ComputeAverageStepSize self
      = 1 / INR (V - 1)
        * sum (map (fun k => norm3 (segment3 (IRLS.tangent_space_step_ self) (3 * k)))
                   (seq 0 (V - 1)))) /\
  (let self := IRLS.self_ chol st in
   let threshold := IRLS.irls_step_convergence_threshold (IRLS.options_ self) in
   exists weights : VectorXd,
     IRLS.compute_weights (IRLS.irls_loss_parameter_sigma (IRLS.options_ self))
       (IRLS.tangent_space_residual_ self) (length rr) 0 (IRLS.weights_ chol st)
     = Ret weights /\
     let at_weight := IRLS.at_weight_of self weights in
     let ls := Cholesky.Factorize chol (IRLS.linear_solver chol st)
                 (mat_mul at_weight (IRLS.sparse_matrix_ self)) in
     let sol := Cholesky.Solve chol ls
                  (mat_vec at_weight (IRLS.tangent_space_residual_ self)) in
     (Cholesky.Info chol ls = Success /\ snd sol = Success ->
      exists st' : IRLS.loop_state chol,
        IRLS.tangent_space_step_ (IRLS.self_ chol st') = fst sol /\
        let avg := IRLS.ComputeAverageStepSize (IRLS.self_ chol st') in
        (avg < threshold /\ r = IRLS.BodyBreak chol st') \/
        (~ avg < threshold /\ r = IRLS.BodyNext chol st')) /\
     (~ (Cholesky.Info chol ls = Success /\ snd sol = Success) ->
      exists st' : IRLS.loop_state chol, r = IRLS.BodyReturnFalse chol st')) /\
  match r with
  | IRLS.BodyBreak _ st' =>
      IRLS.ComputeAverageStepSize (IRLS.self_ chol st')
      < IRLS.irls_step_convergence_threshold (IRLS.options_ (IRLS.self_ chol st')) /\
      forall m, IRLS.loop chol MultiplyRotations rr (S m) st = Ret (true, st')
  | IRLS.BodyNext _ st' =>
      ~ IRLS.ComputeAverageStepSize (IRLS.self_ chol st')
        < IRLS.irls_step_convergence_threshold (IRLS.options_ (IRLS.self_ chol st')) /\
      forall m, IRLS.loop chol MultiplyRotations rr (S m) st
                = IRLS.loop chol MultiplyRotations rr m st'
  | IRLS.BodyReturnFalse _ st' =>
      forall m, IRLS.loop chol MultiplyRotations rr (S m) st = Ret (false, st')
  end.
Proof.
  intros H; split; [|split].
  - intros self V _ Hlen.
    rewrite ComputeAverageStepSize_spec; cbv zeta; rewrite Hlen.
    replace (3 * (V - 1) / 3)%nat with (V - 1)%nat; [reflexivity|].
    symmetry; rewrite Nat.mul_comm; apply Nat.div_mul; lia.
  - destruct (body_cases chol MultiplyRotations rr st r H)
      as (weights & Hw & _ & Hc); cbv zeta in Hc |- *.
    exists weights; split; [exact Hw | split].
    + intros [Hi Hs].
      destruct Hc as [[Hn _]|[(_ & Hn & _)|(_ & _ & g & s' & _ & Hres & Hr)]];
        [contradiction | contradiction |].
      apply ComputeResiduals_fields in Hres as (Ho & _ & _ & Hstep).
      rewrite Ho in Hr; cbn [IRLS.with_step IRLS.options_] in Hr.
      match type of Hr with
      | context [IRLS.BodyBreak _ ?x] => exists x
      end.
      split; [|exact Hr].
      cbn [IRLS.self_]; rewrite Hstep; reflexivity.
    + intros Hn.
      destruct Hc as [[_ ->]|[(_ & _ & ->)|(Hi & Hs & _)]]; eauto.
      exfalso; apply Hn; split; assumption.
  - destruct (body_cases chol MultiplyRotations rr st r H)
      as (weights & _ & _ & Hc); cbv zeta in Hc.
    assert (Hloop : forall m,
               IRLS.loop chol MultiplyRotations rr (S m) st
               = match r with
                 | IRLS.BodyReturnFalse _ st' => Ret (false, st')
                 | IRLS.BodyBreak _ st' => Ret (true, st')
                 | IRLS.BodyNext _ st' => IRLS.loop chol MultiplyRotations rr m st'
                 end).
    { intros m; rewrite irls_loop_S, H; reflexivity. }
    destruct Hc as [[_ ->]|[(_ & _ & ->)|(_ & _ & g & s' & _ & _ & Hr)]]; auto.
    destruct Hr as [[Hlt ->]|[Hlt ->]]; simpl; split; auto.
Qed.

(** C9.  In an iteration, the weight in each of the three rows of edge
    [k] is [sigma / (||e_k||^2 + sigma^2)^2], where [e_k] is the segment
    of edge [k] in the residual the iteration starts with and [sigma] is
    [irls_loss_parameter_sigma]; the matrix that is factorized is
    [A^T diag(weights) A]. *)
Theorem irls_weights (rr : view_pairs_t) (st : IRLS.loop_state chol)
        (r : IRLS.body_result chol) :
  IRLS.body chol MultiplyRotations rr st = Ret r ->
  let self := IRLS.self_ chol st in
  let sigma := IRLS.irls_loss_parameter_sigma (IRLS.options_ self) in
  let residual := IRLS.tangent_space_residual_ self in
  let weights := IRLS.weights_ chol (IRLS.state_of chol r) in
  (forall k row : nat,
      (k < length rr)%nat -> (row < 3)%nat ->
      coeff weights (3 * k + row)
      = sigma / (squaredNorm3 (segment3 residual (3 * k)) + sigma ^ 2) ^ 2) /\
  IRLS.linear_solver chol (IRLS.state_of chol r)
  = Cholesky.Factorize chol (IRLS.linear_solver chol st)
      (mat_mul (mat_mul (transpose (IRLS.sparse_matrix_ self)) (asDiagonal weights))
               (IRLS.sparse_matrix_ self)).
Proof.
  intros H self sigma residual.
  destruct (body_cases chol MultiplyRotations rr st r H)
    as (w & Hw & Hr & Hc); cbv zeta in Hc |- *.
  rewrite Hr; split.
  - intros k row Hk Hrow.
    apply (compute_weights_spec _ _ (length rr) 0) in Hw as (_ & Hnew & _).
    apply Hnew; lia.
  - destruct Hc as [[_ ->]|[(_ & _ & ->)|(_ & _ & g & s' & _ & _ & Hq)]];
      try reflexivity.
    destruct Hq as [[_ ->]|[_ ->]]; reflexivity.
Qed.

End RefinerTheorems.

(** The first iteration of the two-view example comes back. *)
Lemma two_view_body :
  exists r : IRLS.body_result Fixture.scalar_chol,
    IRLS.body Fixture.scalar_chol Fixture.add_rotations
              Fixture.two_view_pairs Fixture.two_view_state = Ret r.
Proof.
  unfold IRLS.body; run_code.
  destruct (Rltb _ _); eexists; reflexivity.
Defined.

(** C4 (amended), in the two-view example, whose factorization and solve
    report success: the iteration ends in [break] or goes on, by the
    comparison of the average size of the new step with the threshold. *)
Lemma average_step_size_witness :
  exists r : IRLS.body_result Fixture.scalar_chol,
    IRLS.body Fixture.scalar_chol Fixture.add_rotations
              Fixture.two_view_pairs Fixture.two_view_state = Ret r /\
    exists st' : IRLS.loop_state Fixture.scalar_chol,
      let avg := IRLS.ComputeAverageStepSize (IRLS.self_ _ st') in
      let threshold :=
        IRLS.irls_step_convergence_threshold
          (IRLS.options_ (IRLS.self_ _ Fixture.two_view_state)) in
      (avg < threshold /\ r = IRLS.BodyBreak _ st') \/
      (~ avg < threshold /\ r = IRLS.BodyNext _ st').
Proof.
  destruct two_view_body as [r Hr]; exists r; split; [exact Hr|].
  destruct (proj1 (proj2 (average_step_size _ _ _ _ _ Hr)))
    as (weights & _ & Hok & _).
  destruct (Hok (conj eq_refl eq_refl)) as (st' & _ & Hc).
  exists st'; exact Hc.
Defined.

(** C9, in the two-view example: the residual of the edge is (1, 0, 0),
    so each of its three rows has the weight
    [sigma / (1 + sigma^2)^2]. *)
Lemma irls_weights_witness :
  exists r : IRLS.body_result Fixture.scalar_chol,
    IRLS.body Fixture.scalar_chol Fixture.add_rotations
              Fixture.two_view_pairs Fixture.two_view_state = Ret r /\
    let sigma := 5 * PI / 180 in
    forall row : nat,
      (row < 3)%nat ->
      coeff (IRLS.weights_ _ (IRLS.state_of _ r)) row
      = sigma / (squaredNorm3 (1, 0, 0) + sigma ^ 2) ^ 2.
Proof.
  destruct two_view_body as [r Hr]; exists r; split; [exact Hr|].
  intros sigma row Hrow.
  exact (proj1 (irls_weights _ _ _ _ _ Hr) 0%nat row (Nat.lt_0_succ 0) Hrow).
Defined.

(** [2 asin(sqrt(1/4 + lambda / (2 d)) - 1/2)] is not 0 when [lambda / (2 d)]
    is positive and at most 2. *)
Lemma error_bound_nonzero (lambda2 max_degree : R) :
  0 < lambda2 / (2.0 * max_degree) <= 2 ->
  LagrangeDual.error_bound lambda2 max_degree <> 0.
Proof.
  intros [Hpos Hle]; unfold LagrangeDual.error_bound.
  set (q := lambda2 / (2.0 * max_degree)) in *.
  assert (H5 : sqrt 0.25 = 0.5).
  { replace 0.25 with (0.5 * 0.5) by lra. apply sqrt_square; lra. }
  assert (H15 : sqrt 2.25 = 1.5).
  { replace 2.25 with (1.5 * 1.5) by lra. apply sqrt_square; lra. }
  assert (Hlo : 0.5 < sqrt (0.25 + q)).
  { rewrite <- H5; apply sqrt_lt_1; lra. }
  assert (Hhi : sqrt (0.25 + q) <= 1.5).
  { rewrite <- H15; apply sqrt_le_1; lra. }
  intros H.
  assert (Ha : asin (sqrt (0.25 + q) - 0.5) = 0) by lra.
  assert (Hs : sin (asin (sqrt (0.25 + q) - 0.5)) = sqrt (0.25 + q) - 0.5)
    by (apply sin_asin; lra).
  rewrite Ha, sin_0 in Hs; lra.
Qed.

Section EstimatorTheorems.

Variable SDPSolver : Type.
Variable Summary : Type.
Variables RBRSDPSolver RankRestrictedSDPSolver RiemannianStaircase :
  Z -> Z -> LagrangeDual.SDPSolverOptions -> SDPSolver.
Variable SetCovariance : SDPSolver -> Matrix -> SDPSolver.
Variable SetAdjacentEdges : SDPSolver -> LagrangeDual.adjacency -> SDPSolver.
Variable SDPSolve : SDPSolver -> Summary -> SDPSolver * Summary.
Variable GetSolution : SDPSolver -> Matrix.
Variable AngleAxisToRotationMatrix : Vector3d -> Matrix.
Variable RotationMatrixToAngleAxis : Matrix -> Vector3d.
Variable ViewIdToAscentIndex : image_map Vector3d -> image_map Z.

(** What [ComputeErrorBound] stores: the bound for the eigenvalue Spectra
    returns first, or for 0 when Spectra is not successful; the call
    comes back exactly when the two matrices can be set up. *)
Lemma ComputeErrorBound_spec
  (SymEigsSolver : LagrangeDual.SelectionRule -> Matrix -> nat -> nat ->
                   LagrangeDual.SpectraInfo * VectorXd)
  (self : LagrangeDual.LagrangeDualRotationEstimator Summary)
  (view_pairs : view_pairs_t) :
  match LagrangeDual.graph_matrices (LagrangeDual.images_num_ Summary self)
          view_pairs (LagrangeDual.view_id_to_index_ Summary self) with
  | Ret (index, A, D, max_degree) =>
      let '(info, eigenvalues) :=
        SymEigsSolver LagrangeDual.SMALLEST_ALGE (msub D A) 2%nat 5%nat in
      LagrangeDual.ComputeErrorBound Summary SymEigsSolver self view_pairs
      = Ret (LagrangeDual.with_alpha_max Summary
               (LagrangeDual.SetViewIdToIndex Summary self index)
               (LagrangeDual.error_bound
                  (if LagrangeDual.is_SUCCESSFUL info then coeff eigenvalues 0 else 0)
                  max_degree))
  | CheckFailed =>
      LagrangeDual.ComputeErrorBound Summary SymEigsSolver self view_pairs
      = CheckFailed
  | NullDereference =>
      LagrangeDual.ComputeErrorBound Summary SymEigsSolver self view_pairs
      = NullDereference
  end.
Proof.
  unfold LagrangeDual.ComputeErrorBound.
  destruct (LagrangeDual.graph_matrices _ _ _) as [[[[index A] D] max_degree]| |];
    cbn [bind]; try reflexivity.
  destruct (SymEigsSolver _ _ _ _) as [info eigenvalues]; reflexivity.
Qed.

(** C10.  [CreateSDPSolver] gives a solver for [RBR_BCM],
    [RANK_DEFICIENT_BCM] and [RIEMANNIAN_STAIRCASE] and the null pointer
    for every other solver type; [EstimateRotations] dereferences the
    null pointer exactly when it gets as far as [CreateSDPSolver] (its
    two [CHECK]s pass and [FillinRelativeGraph] comes back, every triplet
    being inside [R_]) and the solver type is none of the three. *)
Theorem CreateSDPSolver_null
  (self : LagrangeDual.LagrangeDualRotationEstimator Summary) (n dim : Z) :
  match LagrangeDual.solver_type (LagrangeDual.options_ Summary self) with
  | LagrangeDual.RBR_BCM =>
      LagrangeDual.CreateSDPSolver SDPSolver Summary RBRSDPSolver
        RankRestrictedSDPSolver RiemannianStaircase self n dim
      = Some (RBRSDPSolver n dim (LagrangeDual.options_ Summary self))
  | LagrangeDual.RANK_DEFICIENT_BCM =>
      LagrangeDual.CreateSDPSolver SDPSolver Summary RBRSDPSolver
        RankRestrictedSDPSolver RiemannianStaircase self n dim
      = Some (RankRestrictedSDPSolver n dim (LagrangeDual.options_ Summary self))
  | LagrangeDual.RIEMANNIAN_STAIRCASE =>
      LagrangeDual.CreateSDPSolver SDPSolver Summary RBRSDPSolver
        RankRestrictedSDPSolver RiemannianStaircase self n dim
      = Some (RiemannianStaircase n dim (LagrangeDual.options_ Summary self))
  | LagrangeDual.OtherSolverType _ =>
      LagrangeDual.CreateSDPSolver SDPSolver Summary RBRSDPSolver
        RankRestrictedSDPSolver RiemannianStaircase self n dim
      = None
  end /\
  forall (view_pairs : view_pairs_t) (global_rotations : image_map Vector3d),
    LagrangeDual.EstimateRotations SDPSolver Summary RBRSDPSolver
      RankRestrictedSDPSolver RiemannianStaircase SetCovariance SetAdjacentEdges
      SDPSolve GetSolution AngleAxisToRotationMatrix RotationMatrixToAngleAxis
      ViewIdToAscentIndex self view_pairs global_rotations = NullDereference
    <->
    view_pairs <> [] /\ (0 < LagrangeDual.images_num_ Summary self)%Z /\
    (exists filled,
        LagrangeDual.FillinRelativeGraph Summary AngleAxisToRotationMatrix
          (LagrangeDual.ensure_index Summary ViewIdToAscentIndex self global_rotations)
          view_pairs [] = Ret filled) /\
    exists value : Z,
      LagrangeDual.solver_type (LagrangeDual.options_ Summary self)
      = LagrangeDual.OtherSolverType value.
Proof.
  split.
  - unfold LagrangeDual.CreateSDPSolver.
    destruct (LagrangeDual.solver_type (LagrangeDual.options_ Summary self));
      reflexivity.
  - intros; apply EstimateRotations_null.
Qed.

(** C3 (amended).  [EstimateRotations] does not compute the error bound:
    when it returns, [GetErrorBound] gives the value it gave before the
    call.  The bound is set by [ComputeErrorBound], a call of its own. *)
Theorem EstimateRotations_keeps_error_bound
  (self self' : LagrangeDual.LagrangeDualRotationEstimator Summary)
  (view_pairs : view_pairs_t) (global_rotations rotations' : image_map Vector3d)
  (b : bool) :
  LagrangeDual.EstimateRotations SDPSolver Summary RBRSDPSolver
    RankRestrictedSDPSolver RiemannianStaircase SetCovariance SetAdjacentEdges
    SDPSolve GetSolution AngleAxisToRotationMatrix RotationMatrixToAngleAxis
    ViewIdToAscentIndex self view_pairs global_rotations
  = Ret (b, rotations', self') ->
  LagrangeDual.GetErrorBound Summary self' = LagrangeDual.GetErrorBound Summary self.
Proof.
  intros H; eapply EstimateRotations_Ret in H; apply H.
Qed.

End EstimatorTheorems.

(** The star example: [EstimateRotations] returns [true]; the index map
    is the one of the example, every rotation is the zero vector and the
    bound is still 0. *)
Lemma star_estimate :
  let self := LagrangeDual.make nat 0%nat 5 3 (Fixture.options LagrangeDual.RBR_BCM) in
  exists self' : LagrangeDual.LagrangeDualRotationEstimator nat,
    Fixture.EstimateRotations self Fixture.star_pairs Fixture.five_rotations
    = Ret (true,
           [(0%N, Zero3); (1%N, Zero3); (2%N, Zero3); (3%N, Zero3); (4%N, Zero3)],
           self') /\
    LagrangeDual.view_id_to_index_ nat self' = Fixture.five_index /\
    LagrangeDual.images_num_ nat self' = 5%Z.
Proof.
  intros self; eexists; split; [|split].
  - unfold Fixture.EstimateRotations, LagrangeDual.EstimateRotations.
    run_code; reflexivity.
  - reflexivity.
  - reflexivity.
Defined.

(* ------------------------------------------------------------------ *)
(** ** The matrices of [ComputeErrorBound] *)

Section GraphMatrices.

Lemma subscript_present (m : image_map Z) (k : image_t) (i : Z) :
  find m k = Some i -> subscript m k = (i, m).
Proof. unfold subscript; intros ->; reflexivity. Qed.

(** Looking the edges up again in a larger index map gives the same
    edges and adds nothing to the map. *)
Lemma dense_edges_stable (view_pairs : view_pairs_t) :
  forall (m m' : image_map Z) (edges : list (nat * nat)),
    LagrangeDual.dense_edges view_pairs m = (m', edges) ->
    map_extends m m' /\
    forall m'', map_extends m' m'' ->
                LagrangeDual.dense_edges view_pairs m'' = (m'', edges).
Proof.
  induction view_pairs as [|[key g] rest IH]; intros m m' edges H.
  - injection H as <- <-; split; [intros k v Hk; exact Hk | reflexivity].
  - cbn [LagrangeDual.dense_edges] in H.
    destruct (subscript m (fst key)) as [i m1] eqn:E1.
    destruct (subscript m1 (snd key)) as [j m2] eqn:E2.
    destruct (LagrangeDual.dense_edges rest m2) as [m3 es] eqn:E3.
    injection H as <- <-.
    apply subscript_spec in E1 as [Hi H1], E2 as [Hj H2].
    apply IH in E3 as [H3 Hstable].
    split; [intros k v Hk; auto|].
    intros m'' Hext; cbn [LagrangeDual.dense_edges].
    rewrite (subscript_present m'' (fst key) i) by auto.
    rewrite (subscript_present m'' (snd key) j) by auto.
    now rewrite (Hstable m'' Hext).
Qed.

Lemma count_degrees_dense (view_pairs : view_pairs_t) :
  forall (m : image_map Z) (degrees : list R),
    LagrangeDual.count_degrees view_pairs m degrees
    = (fst (LagrangeDual.dense_edges view_pairs m),
       fold_left LagrangeDual.bump (snd (LagrangeDual.dense_edges view_pairs m)) degrees).
Proof.
  induction view_pairs as [|[key g] rest IH]; intros m degrees; [reflexivity|].
  cbn [LagrangeDual.count_degrees LagrangeDual.dense_edges].
  destruct (subscript m (fst key)) as [i m1].
  destruct (subscript m1 (snd key)) as [j m2].
  rewrite IH.
  destruct (LagrangeDual.dense_edges rest m2) as [m3 es]; reflexivity.
Qed.

Lemma Z_of_nat_eqb (a b : nat) : (Z.of_nat a =? Z.of_nat b)%Z = Nat.eqb a b.
Proof.
  destruct (Nat.eqb_spec a b) as [->|Hne]; [apply Z.eqb_refl|].
  apply Z.eqb_neq; lia.
Qed.

Lemma setFromTriplets_Ret (n m : nat) (ts : list Triplet) (M : Matrix) :
  setFromTriplets n m ts = Ret M ->
  forallb (triplet_in_range n m) ts = true /\
  M = mkMatrix n m (fun i j => sum (map (triplet_at i j) ts)).
Proof.
  unfold setFromTriplets; destruct (forallb _ ts); [|discriminate].
  intros H; injection H as <-; auto.
Qed.

(** The second loop pushes the triplets of the dense edges, as long as
    the triplets of [A] are inside an [n x n] matrix. *)
Lemma graph_triplets_dense (n : nat) (view_pairs : view_pairs_t) (degrees : list R) :
  forall (m : image_map Z) (a_triplets d_triplets : list Triplet) (max_degree : R)
         (m' : image_map Z) (a_triplets' d_triplets' : list Triplet)
         (max_degree' : R),
    LagrangeDual.graph_triplets view_pairs m degrees a_triplets d_triplets max_degree
    = (m', a_triplets', d_triplets', max_degree') ->
    forallb (triplet_in_range n n) a_triplets' = true ->
    let edges := snd (LagrangeDual.dense_edges view_pairs m) in
    m' = fst (LagrangeDual.dense_edges view_pairs m) /\
    a_triplets' = a_triplets ++ flat_map LagrangeDual.a_triplets_of edges /\
    d_triplets' = d_triplets ++ flat_map (LagrangeDual.d_triplets_of degrees) edges /\
    max_degree' = fold_left (LagrangeDual.max_of_edge degrees) edges max_degree /\
    Forall (fun e => (fst e < n)%nat /\ (snd e < n)%nat) edges.
Proof.
  induction view_pairs as [|[key g] rest IH];
    intros m a_triplets d_triplets max_degree m' a' d' md' H Hrange.
  - injection H as <- <- <- <-; cbn; rewrite !app_nil_r; auto.
  - cbn [LagrangeDual.graph_triplets LagrangeDual.dense_edges] in H |- *.
    destruct (subscript m (fst key)) as [i m1].
    destruct (subscript m1 (snd key)) as [j m2].
    destruct (IH _ _ _ _ _ _ _ _ H Hrange) as (Hm & Ha & Hd & Hmd & Hall).
    destruct (LagrangeDual.dense_edges rest m2) as [m3 es].
    cbn [fst snd] in *.
    assert (Hij : (0 <= i < Z.of_nat n)%Z /\ (0 <= j < Z.of_nat n)%Z).
    { rewrite Ha, !forallb_app in Hrange.
      apply andb_prop in Hrange as [Hrange _].
      apply andb_prop in Hrange as [_ Hrange].
      cbn [forallb triplet_in_range] in Hrange.
      apply andb_prop in Hrange as [Hrange _].
      apply andb_prop in Hrange as [Hrange Hj2].
      apply andb_prop in Hrange as [Hrange Hj1].
      apply andb_prop in Hrange as [Hi1 Hi2].
      lia. }
    destruct Hij as [Hi Hj].
    unfold LagrangeDual.a_triplets_of, LagrangeDual.d_triplets_of,
      LagrangeDual.max_of_edge.
    cbn [flat_map fold_left fst snd app].
    rewrite !Z2Nat.id by lia.
    rewrite Ha, Hd, Hmd, <- !app_assoc.
    repeat split; auto.
    constructor; [cbn [fst snd]; lia | exact Hall].
Qed.

(** What [graph_matrices] hands over when it comes back. *)
Lemma graph_matrices_Ret (N : Z) (view_pairs : view_pairs_t)
      (index index' : image_map Z) (A D : Matrix) (max_degree : R) :
  LagrangeDual.graph_matrices N view_pairs index = Ret (index', A, D, max_degree) ->
  let n := Z.to_nat N in
  let edges := snd (LagrangeDual.dense_edges view_pairs index) in
  let degrees := fold_left LagrangeDual.bump edges (repeat 0 n) in
  index' = fst (LagrangeDual.dense_edges view_pairs index) /\
  A = mkMatrix n n
        (fun i j => sum (map (triplet_at i j)
                             (flat_map LagrangeDual.a_triplets_of edges))) /\
  D = mkMatrix n n
        (fun i j => sum (map (triplet_at i j)
                             (flat_map (LagrangeDual.d_triplets_of degrees) edges))) /\
  max_degree = fold_left (LagrangeDual.max_of_edge degrees) edges 0 /\
  Forall (fun e => (fst e < n)%nat /\ (snd e < n)%nat) edges.
Proof.
  unfold LagrangeDual.graph_matrices; intros H.
  rewrite count_degrees_dense in H.
  destruct (LagrangeDual.dense_edges view_pairs index) as [m1 edges] eqn:E.
  cbn [fst snd] in *.
  destruct (LagrangeDual.graph_triplets _ _ _ _ _ _) as [[[m2 ats] dts] md] eqn:Eg in H.
  inv_bind H as A0 HA. inv_bind H as D0 HD.
  injection H as <- <- <- <-.
  apply setFromTriplets_Ret in HA as [Hrange ->], HD as [_ ->].
  apply (graph_triplets_dense (Z.to_nat N)) in Eg; [|exact Hrange].
  apply dense_edges_stable in E as [_ Hstable].
  rewrite (Hstable m1) in Eg by (intros k v Hk; exact Hk).
  cbn [fst snd app] in Eg.
  destruct Eg as (-> & -> & -> & -> & Hall); auto.
Qed.

(** Looking the views up again in a larger index map reads the same
    indices. *)
Lemma index_pairs_stable (view_pairs : view_pairs_t) :
  forall m m'' : image_map Z,
    map_extends (fst (LagrangeDual.dense_edges view_pairs m)) m'' ->
    LagrangeDual.index_pairs view_pairs m''
    = LagrangeDual.index_pairs view_pairs m.
Proof.
  induction view_pairs as [|[key g] rest IH]; intros m m'' Hext; [reflexivity|].
  cbn [LagrangeDual.dense_edges LagrangeDual.index_pairs] in *.
  destruct (subscript m (fst key)) as [i m1] eqn:E1.
  destruct (subscript m1 (snd key)) as [j m2] eqn:E2.
  destruct (LagrangeDual.dense_edges rest m2) as [m3 es] eqn:E3.
  cbn [fst] in Hext.
  apply subscript_spec in E1 as [Hi H1], E2 as [Hj H2].
  pose proof (dense_edges_stable rest m2 m3 es E3) as [H3 _].
  rewrite (subscript_present m'' (fst key) i) by auto.
  rewrite (subscript_present m'' (snd key) j) by auto.
  f_equal; apply IH; rewrite E3; exact Hext.
Qed.

Lemma index_in_range_spec (N : Z) (p : Z * Z) :
  LagrangeDual.index_in_range (Z.to_nat N) p = true <->
  (0 <= fst p < N)%Z /\ (0 <= snd p < N)%Z.
Proof.
  unfold LagrangeDual.index_in_range.
  rewrite !andb_true_iff, !Z.leb_le, !Z.ltb_lt; lia.
Qed.

(** The triplets of the second loop are inside an [n x n] matrix exactly
    when the indices read are. *)
Lemma graph_triplets_range (n : nat) (view_pairs : view_pairs_t) (degrees : list R) :
  forall (m : image_map Z) (a_triplets d_triplets : list Triplet) (max_degree : R),
    let r := LagrangeDual.graph_triplets view_pairs m degrees
               a_triplets d_triplets max_degree in
    forallb (triplet_in_range n n) (snd (fst (fst r)))
    = forallb (triplet_in_range n n) a_triplets
      && forallb (LagrangeDual.index_in_range n) (LagrangeDual.index_pairs view_pairs m)
    /\
    forallb (triplet_in_range n n) (snd (fst r))
    = forallb (triplet_in_range n n) d_triplets
      && forallb (LagrangeDual.index_in_range n) (LagrangeDual.index_pairs view_pairs m).
Proof.
  induction view_pairs as [|[key g] rest IH]; intros m ats dts md.
  - cbn; rewrite !andb_true_r; auto.
  - cbn [LagrangeDual.graph_triplets LagrangeDual.index_pairs].
    destruct (subscript m (fst key)) as [i m1].
    destruct (subscript m1 (snd key)) as [j m2].
    cbv zeta in IH |- *.
    destruct (IH m2 (ats ++ [(i, j, 1); (j, i, 1)])
                 (dts ++ [(i, i, coeff degrees (Z.to_nat i));
                          (j, j, coeff degrees (Z.to_nat j))])
                 (Rmax (Rmax md (coeff degrees (Z.to_nat i)))
                       (coeff degrees (Z.to_nat j)))) as [Ha Hd].
    rewrite Ha, Hd, !forallb_app.
    unfold triplet_in_range, LagrangeDual.index_in_range.
    cbn [forallb fst snd].
    set (P := forallb _ (LagrangeDual.index_pairs rest m2)).
    set (A := forallb _ ats). set (D := forallb _ dts).
    destruct (0 <=? i)%Z, (i <? Z.of_nat n)%Z, (0 <=? j)%Z, (j <? Z.of_nat n)%Z,
      A, D, P; split; reflexivity.
Qed.

(** [graph_matrices] comes back exactly when every index read is in
    [[0, N)]. *)
Lemma graph_matrices_returns (N : Z) (view_pairs : view_pairs_t)
      (index : image_map Z) :
  (forall p, In p (LagrangeDual.index_pairs view_pairs index) ->
             (0 <= fst p < N)%Z /\ (0 <= snd p < N)%Z) <->
  exists (index' : image_map Z) (A D : Matrix) (max_degree : R),
    LagrangeDual.graph_matrices N view_pairs index = Ret (index', A, D, max_degree).
Proof.
  assert (Hb : (forall p, In p (LagrangeDual.index_pairs view_pairs index) ->
                          (0 <= fst p < N)%Z /\ (0 <= snd p < N)%Z) <->
               forallb (LagrangeDual.index_in_range (Z.to_nat N))
                       (LagrangeDual.index_pairs view_pairs index) = true).
  { rewrite forallb_forall; split; intros H p Hp; apply index_in_range_spec; auto. }
  rewrite Hb; clear Hb.
  unfold LagrangeDual.graph_matrices.
  rewrite count_degrees_dense.
  pose proof (index_pairs_stable view_pairs index
                (fst (LagrangeDual.dense_edges view_pairs index))
                (fun k v Hk => Hk)) as Hst.
  destruct (LagrangeDual.dense_edges view_pairs index) as [m1 edges].
  cbn [fst snd] in *.
  pose proof (graph_triplets_range (Z.to_nat N) view_pairs
                (fold_left LagrangeDual.bump edges (repeat 0 (Z.to_nat N)))
                m1 [] [] 0) as Hr.
  cbv zeta in Hr; rewrite Hst in Hr.
  destruct (LagrangeDual.graph_triplets _ _ _ _ _ _) as [[[m2 ats] dts] md].
  cbn [fst snd forallb andb] in Hr; destruct Hr as [Ha Hd].
  unfold setFromTriplets; rewrite Ha, Hd.
  destruct (forallb _ (LagrangeDual.index_pairs view_pairs index)); cbn [bind].
  - split; [intros _; do 4 eexists; reflexivity | reflexivity].
  - split; [discriminate | intros (i' & A & D & x & H); discriminate].
Qed.

Lemma degree_cons (i j : nat) (edges : list (nat * nat)) (v : nat) :
  INR (LagrangeDual.degree ((i, j) :: edges) v)
  = (if Nat.eqb i v then 1 else 0) + (if Nat.eqb j v then 1 else 0)
    + INR (LagrangeDual.degree edges v).
Proof.
  cbn [LagrangeDual.degree]; rewrite !plus_INR.
  destruct (Nat.eqb i v), (Nat.eqb j v); simpl; lra.
Qed.

Lemma coeff_increment (degrees : list R) (i v : nat) :
  (v < length degrees)%nat ->
  coeff (LagrangeDual.increment degrees i) v
  = coeff degrees v + (if Nat.eqb i v then 1 else 0).
Proof.
  intros Hv; unfold LagrangeDual.increment.
  destruct (Nat.eqb_spec i v) as [->|Hne].
  - now rewrite coeff_set_coeff_same.
  - rewrite coeff_set_coeff_other by assumption; lra.
Qed.

Lemma increment_length (degrees : list R) (i : nat) :
  length (LagrangeDual.increment degrees i) = length degrees.
Proof. apply set_coeff_length. Qed.

(** After the first loop, entry [v] of [degrees] is the degree of [v]. *)
Lemma degrees_counted (edges : list (nat * nat)) :
  forall (degrees : list R) (v : nat),
    (v < length degrees)%nat ->
    coeff (fold_left LagrangeDual.bump edges degrees) v
    = coeff degrees v + INR (LagrangeDual.degree edges v).
Proof.
  induction edges as [|[i j] edges IH]; intros degrees v Hv.
  - simpl; lra.
  - cbn [fold_left]; rewrite IH.
    + unfold LagrangeDual.bump; cbn [fst snd].
      rewrite !coeff_increment, degree_cons by (rewrite ?increment_length; lia).
      lra.
    + unfold LagrangeDual.bump; now rewrite !increment_length.
Qed.

(** The diagonal entry of [D] at [v]: the entry [c] of [degrees], once per
    end of an edge at [v]. *)
Lemma d_triplets_diagonal (degrees : list R) (edges : list (nat * nat)) (v : nat) :
  sum (map (triplet_at v v) (flat_map (LagrangeDual.d_triplets_of degrees) edges))
  = coeff degrees v * INR (LagrangeDual.degree edges v).
Proof.
  induction edges as [|[i j] edges IH].
  - simpl; lra.
  - cbn [flat_map]; rewrite map_app; unfold LagrangeDual.d_triplets_of at 1; cbn [fst snd].
    cbn [app map sum fold_right]; fold (sum (map (triplet_at v v)
                                          (flat_map (LagrangeDual.d_triplets_of degrees) edges))).
    rewrite IH, degree_cons; unfold triplet_at; rewrite !Z_of_nat_eqb.
    destruct (Nat.eqb_spec i v) as [->|Hi], (Nat.eqb_spec j v) as [->|Hj];
      simpl; lra.
Qed.

Lemma d_triplets_off_diagonal (degrees : list R) (edges : list (nat * nat))
      (v w : nat) :
  v <> w ->
  sum (map (triplet_at v w) (flat_map (LagrangeDual.d_triplets_of degrees) edges)) = 0.
Proof.
  intros Hvw; induction edges as [|[i j] edges IH]; [reflexivity|].
  cbn [flat_map]; rewrite map_app; unfold LagrangeDual.d_triplets_of at 1; cbn [fst snd].
  cbn [app map sum fold_right]; fold (sum (map (triplet_at v w)
                                        (flat_map (LagrangeDual.d_triplets_of degrees) edges))).
  rewrite IH; unfold triplet_at; rewrite !Z_of_nat_eqb.
  destruct (Nat.eqb_spec i v) as [->|Hi], (Nat.eqb_spec j v) as [->|Hj];
    simpl;
    repeat match goal with
           | |- context [Nat.eqb ?a ?b] => destruct (Nat.eqb_spec a b); try lia
           end; simpl; lra.
Qed.

Lemma a_triplets_adjacent (edges : list (nat * nat)) (v w : nat) :
  sum (map (triplet_at v w) (flat_map LagrangeDual.a_triplets_of edges))
  = INR (LagrangeDual.adjacent edges v w).
Proof.
  induction edges as [|[i j] edges IH]; [reflexivity|].
  cbn [flat_map]; rewrite map_app; unfold LagrangeDual.a_triplets_of at 1; cbn [fst snd].
  cbn [app map sum fold_right]; fold (sum (map (triplet_at v w)
                                        (flat_map LagrangeDual.a_triplets_of edges))).
  rewrite IH; cbn [LagrangeDual.adjacent]; rewrite !plus_INR; unfold triplet_at.
  rewrite !Z_of_nat_eqb.
  destruct (Nat.eqb i v && Nat.eqb j w), (Nat.eqb j v && Nat.eqb i w); simpl; lra.
Qed.

(** X26.  The matrices of [ComputeErrorBound] on any graph.  They can be set
    up exactly when every dense index read for a view pair is in
    [[0, N)]; then [A] is the adjacency matrix, but the diagonal of [D]
    holds the squares of the degrees, so [D - A] is the Laplacian plus
    [deg (deg - 1)] on the diagonal. *)
Lemma graph_matrices_spec (N : Z) (view_pairs : view_pairs_t) (index : image_map Z) :
  let edges := snd (LagrangeDual.dense_edges view_pairs index) in
  let n := Z.to_nat N in
  ((forall p, In p (LagrangeDual.index_pairs view_pairs index) ->
              (0 <= fst p < N)%Z /\ (0 <= snd p < N)%Z) <->
   exists (index' : image_map Z) (A D : Matrix) (max_degree : R),
     LagrangeDual.graph_matrices N view_pairs index
     = Ret (index', A, D, max_degree)) /\
  forall (index' : image_map Z) (A D : Matrix) (max_degree : R),
    LagrangeDual.graph_matrices N view_pairs index = Ret (index', A, D, max_degree) ->
    forall v w : nat,
      (v < n)%nat ->
      coef A v w = INR (LagrangeDual.adjacent edges v w) /\
      coef D v w = (if Nat.eqb v w then INR (LagrangeDual.degree edges v) ^ 2 else 0) /\
      coef (msub D A) v w
      = coef (LagrangeDual.graph_laplacian n edges) v w
        + (if Nat.eqb v w
           then INR (LagrangeDual.degree edges v) * (INR (LagrangeDual.degree edges v) - 1)
           else 0).
Proof.
  intros edges n; split; [apply graph_matrices_returns|].
  intros index' A D max_degree H v w Hv.
  apply graph_matrices_Ret in H as (_ & -> & -> & _ & _); fold edges n.
  assert (Hdeg : coeff (fold_left LagrangeDual.bump edges (repeat 0 n)) v
                 = INR (LagrangeDual.degree edges v)).
  { rewrite degrees_counted by (rewrite repeat_length; exact Hv).
    fold (setZero n); rewrite coeff_setZero; lra. }
  cbn [coef msub LagrangeDual.graph_laplacian].
  rewrite a_triplets_adjacent.
  assert (HD : sum (map (triplet_at v w)
                      (flat_map (LagrangeDual.d_triplets_of
                                   (fold_left LagrangeDual.bump edges (repeat 0 n)))
                                edges))
               = if Nat.eqb v w then INR (LagrangeDual.degree edges v) ^ 2 else 0).
  { destruct (Nat.eqb_spec v w) as [<-|Hne].
    - rewrite d_triplets_diagonal, Hdeg; ring.
    - now apply d_triplets_off_diagonal. }
  rewrite HD.
  split; [reflexivity | split; [reflexivity|]].
  destruct (Nat.eqb v w); ring.
Qed.

End GraphMatrices.

(** Equality of two lists of concrete real expressions. *)
Ltac list_eq :=
  cbn [INR]; repeat (f_equal; try lra).

(** Evaluation of nested [Rmax] on concrete sums. *)
Ltac eval_Rmax :=
  repeat match goal with
         | |- context [Rmax ?a ?b] =>
             first [ rewrite (Rmax_left a b) by lra
                   | rewrite (Rmax_right a b) by lra ]
         end.

(** In the star example the matrix handed to Spectra has the eigenvalue 1
    (eigenvector [e1 - e2]), and so has the graph Laplacian; the largest
    degree is 4. *)
Lemma star_graph_matrices :
  exists (index : image_map Z) (A D : Matrix) (max_degree : R),
    LagrangeDual.graph_matrices 5 Fixture.star_pairs Fixture.five_index
    = Ret (index, A, D, max_degree) /\
    mat_vec (msub D A) [0; 1; -1; 0; 0] = vscale 1 [0; 1; -1; 0; 0] /\
    mat_vec (LagrangeDual.graph_laplacian 5 Fixture.star_edges) [0; 1; -1; 0; 0]
    = vscale 1 [0; 1; -1; 0; 0] /\
    max_degree = 4.
Proof.
  do 4 eexists; split; [run_code; reflexivity|].
  run_code; split; [|split].
  - list_eq.
  - list_eq.
  - eval_Rmax; lra.
Qed.

(** In the star example [ComputeErrorBound] comes back, with the bound
    for the eigenvalue the eigensolver answers, or for 0 when the
    eigensolver is not successful, and the largest degree 4. *)
Lemma star_error_bound
  (eigs : LagrangeDual.SelectionRule -> Matrix -> nat -> nat ->
          LagrangeDual.SpectraInfo * VectorXd)
  (self : LagrangeDual.LagrangeDualRotationEstimator nat) :
  LagrangeDual.view_id_to_index_ nat self = Fixture.five_index ->
  LagrangeDual.images_num_ nat self = 5%Z ->
  exists (index : image_map Z) (A D : Matrix),
    LagrangeDual.graph_matrices 5 Fixture.star_pairs Fixture.five_index
    = Ret (index, A, D, 4) /\
    let '(info, eigenvalues) := eigs LagrangeDual.SMALLEST_ALGE (msub D A) 2%nat 5%nat in
    exists self' : LagrangeDual.LagrangeDualRotationEstimator nat,
      LagrangeDual.ComputeErrorBound nat eigs self Fixture.star_pairs = Ret self' /\
      LagrangeDual.GetErrorBound nat self'
      = LagrangeDual.error_bound
          (if LagrangeDual.is_SUCCESSFUL info then coeff eigenvalues 0 else 0) 4.
Proof.
  intros Hidx HN.
  pose proof (ComputeErrorBound_spec nat eigs self Fixture.star_pairs) as H.
  rewrite Hidx, HN in H.
  destruct star_graph_matrices as (index & A & D & max_degree & Hg & _ & _ & ->).
  rewrite Hg in H.
  exists index, A, D; split; [exact Hg|].
  destruct (eigs _ _ _ _) as [info eigenvalues].
  eexists; split; [exact H | reflexivity].
Qed.

(** C3, as stated, fails.  In the star example, a freshly constructed
    estimator still reports the bound 0 after [EstimateRotations], while
    the bound [ComputeErrorBound] computes for this graph (eigenvalue 1,
    largest degree 4) is not 0. *)
Lemma EstimateRotations_bound_not_computed :
  let self := LagrangeDual.make nat 0%nat 5 3 (Fixture.options LagrangeDual.RBR_BCM) in
  exists (rotations' : image_map Vector3d)
         (self' self'' : LagrangeDual.LagrangeDualRotationEstimator nat),
    Fixture.EstimateRotations self Fixture.star_pairs Fixture.five_rotations
    = Ret (true, rotations', self') /\
    LagrangeDual.GetErrorBound nat self' = 0 /\
    LagrangeDual.ComputeErrorBound nat (Fixture.eigs_answer [1]) self'
                                   Fixture.star_pairs
    = Ret self'' /\
    LagrangeDual.GetErrorBound nat self'' = LagrangeDual.error_bound 1 4 /\
    LagrangeDual.GetErrorBound nat self' <> LagrangeDual.GetErrorBound nat self''.
Proof.
  intros self; destruct star_estimate as (self' & He & Hidx & HN).
  assert (H0 : LagrangeDual.GetErrorBound nat self' = 0).
  { unfold Fixture.EstimateRotations in He.
    apply EstimateRotations_Ret in He as (_ & Ha & _); exact Ha. }
  destruct (star_error_bound (Fixture.eigs_answer [1]) self' Hidx HN)
    as (index & A & D & _ & self'' & Hc & H1).
  change (LagrangeDual.error_bound
            (if LagrangeDual.is_SUCCESSFUL LagrangeDual.SUCCESSFUL
             then coeff [1] 0 else 0) 4)
    with (LagrangeDual.error_bound 1 4) in H1.
  eexists; exists self', self''; repeat split; eauto.
  rewrite H0, H1; intros E; symmetry in E; revert E.
  apply error_bound_nonzero; lra.
Qed.

(** C3 (amended), in the star example. *)
Lemma EstimateRotations_keeps_error_bound_witness :
  let self := LagrangeDual.make nat 0%nat 5 3 (Fixture.options LagrangeDual.RBR_BCM) in
  exists self' : LagrangeDual.LagrangeDualRotationEstimator nat,
    Fixture.EstimateRotations self Fixture.star_pairs Fixture.five_rotations
    = Ret (true,
           [(0%N, Zero3); (1%N, Zero3); (2%N, Zero3); (3%N, Zero3); (4%N, Zero3)],
           self') /\
    LagrangeDual.GetErrorBound nat self' = LagrangeDual.GetErrorBound nat self.
Proof.
  intros self; destruct star_estimate as (self' & He & _).
  exists self'; split; [exact He|].
  exact (EstimateRotations_keeps_error_bound
           Matrix nat Fixture.identity_blocks Fixture.identity_blocks
           Fixture.identity_blocks Fixture.set_covariance
           Fixture.set_adjacent_edges Fixture.sdp_solve Fixture.get_solution
           Fixture.identity_of_zero Fixture.zero_of_identity
           Fixture.index_by_position _ _ _ _ _ _ He).
Defined.

(** C6: the complete graph on five views.  Each vertex has degree 4, but
    the diagonal of the matrix [D] the code builds is 16: a triplet
    [(i, i, degrees[i])] is pushed once per incident edge and
    [setFromTriplets] sums the duplicates.  So the matrix handed to
    Spectra is [17 I - J] with eigenvalues 12 and 17, not the Laplacian
    [5 I - J] with eigenvalues 0 and 5, and [0.25 + 17 / (2 * 4)] has the
    square root 1.54, which leaves an argument above 1 for [asin]. *)
Theorem degree_matrix_sums_duplicates :
  exists (index : image_map Z) (A D : Matrix) (max_degree : R),
    LagrangeDual.graph_matrices 5 Fixture.complete_pairs Fixture.five_index
    = Ret (index, A, D, max_degree) /\
    let L := msub D A in
    let laplacian := LagrangeDual.graph_laplacian 5 Fixture.complete_edges in
    (forall v : nat, (v < 5)%nat ->
                     coef D v v = 16 /\
                     LagrangeDual.degree Fixture.complete_edges v = 4%nat /\
                     coef L v v = 16 /\ coef laplacian v v = 4) /\
    max_degree = 4 /\
    mat_vec L [1; -1; 0; 0; 0] = vscale 17 [1; -1; 0; 0; 0] /\
    mat_vec L [1; 1; 1; 1; 1] = vscale 12 [1; 1; 1; 1; 1] /\
    mat_vec laplacian [1; -1; 0; 0; 0] = vscale 5 [1; -1; 0; 0; 0] /\
    mat_vec laplacian [1; 1; 1; 1; 1] = vscale 0 [1; 1; 1; 1; 1] /\
    1 < sqrt (0.25 + 17 / (2.0 * max_degree)) - 0.5.
Proof.
  do 4 eexists; split; [run_code; reflexivity|].
  run_code.
  assert (Hmax : forall m, m = 4 -> 1 < sqrt (0.25 + 17 / (2.0 * m)) - 0.5).
  { intros m ->.
    assert (H15 : sqrt 2.25 = 1.5).
    { replace 2.25 with (1.5 * 1.5) by lra. apply sqrt_square; lra. }
    assert (sqrt 2.25 < sqrt (0.25 + 17 / (2.0 * 4))) by (apply sqrt_lt_1; lra).
    lra. }
  split; [|split; [eval_Rmax; lra|]].
  - intros v Hv.
    do 5 (destruct v as [|v];
          [run_code; repeat split; try reflexivity; cbn [INR]; lra|]).
    lia.
  - repeat (split; [list_eq|]).
    apply Hmax; eval_Rmax; lra.
Qed.

(* ================================================================== *)
(** * Across the estimators: failure status and the gauge view *)
(* ================================================================== *)

(** [SolveIRLS] in the two-view example, with a Cholesky object that
    works: the call returns. *)
Lemma two_view_SolveIRLS :
  exists (b : bool) (rotations' : image_map Vector3d)
         (self' : IRLS.IRLSRotationLocalRefiner),
    IRLS.SolveIRLS Fixture.scalar_chol Fixture.add_rotations
      Fixture.index_by_position Fixture.two_view_system Fixture.zeros
      Fixture.two_view_refiner Fixture.two_view_pairs Fixture.two_view_rotations
    = Ret (b, rotations', self') /\
    IRLS.view_id_to_index_ self' = [(0%N, 0%Z); (1%N, 1%Z)].
Proof.
  unfold IRLS.SolveIRLS; run_code.
  destruct (Rltb _ _); run_code; do 3 eexists; split; reflexivity.
Defined.

(** [SolveIRLS] in the two-view example, with a Cholesky object whose
    pattern analysis fails: the call returns false at once. *)
Lemma two_view_SolveIRLS_failing :
  IRLS.SolveIRLS Fixture.failing_analysis_chol Fixture.add_rotations
    Fixture.index_by_position Fixture.two_view_system Fixture.zeros
    Fixture.two_view_refiner Fixture.two_view_pairs Fixture.two_view_rotations
  = Ret (false, Fixture.two_view_rotations, Fixture.two_view_refiner).
Proof. reflexivity. Defined.

(** C1, as stated, fails for the Lagrange-dual estimator.  In the star
    example, with an eigensolver that does not converge,
    [EstimateRotations] returns true, and [ComputeErrorBound], which is
    where the eigensolver runs, has no status to return: it stores the
    bound for [lambda2 = 0]. *)
Lemma EstimateRotations_true_when_eigensolver_fails :
  let self := LagrangeDual.make nat 0%nat 5 3 (Fixture.options LagrangeDual.RBR_BCM) in
  exists (rotations' : image_map Vector3d)
         (self' self'' : LagrangeDual.LagrangeDualRotationEstimator nat),
    Fixture.EstimateRotations self Fixture.star_pairs Fixture.five_rotations
    = Ret (true, rotations', self') /\
    (forall L : Matrix,
        fst (Fixture.eigs_not_converging LagrangeDual.SMALLEST_ALGE L 2 5)
        = LagrangeDual.NOT_CONVERGING) /\
    LagrangeDual.ComputeErrorBound nat Fixture.eigs_not_converging self'
                                   Fixture.star_pairs
    = Ret self'' /\
    LagrangeDual.GetErrorBound nat self'' = LagrangeDual.error_bound 0 4.
Proof.
  intros self; destruct star_estimate as (self' & He & Hidx & HN).
  destruct (star_error_bound Fixture.eigs_not_converging self' Hidx HN)
    as (index & A & D & _ & self'' & Hc & Hb).
  eexists; exists self', self''; split; [exact He | split; [reflexivity|]].
  split; [exact Hc | exact Hb].
Qed.

(** C2, as stated, fails for the Lagrange-dual estimator.  In the star
    example the view of dense index 0 enters with the rotation (3, 0, 0)
    and leaves with the rotation retrieved from the first block of [Y],
    the zero vector. *)
Lemma EstimateRotations_overwrites_gauge :
  let self := LagrangeDual.make nat 0%nat 5 3 (Fixture.options LagrangeDual.RBR_BCM) in
  exists (rotations' : image_map Vector3d)
         (self' : LagrangeDual.LagrangeDualRotationEstimator nat),
    Fixture.EstimateRotations self Fixture.star_pairs Fixture.five_rotations
    = Ret (true, rotations', self') /\
    find (LagrangeDual.view_id_to_index_ nat self') 0%N = Some 0%Z /\
    find Fixture.five_rotations 0%N = Some (3, 0, 0) /\
    find rotations' 0%N = Some (0, 0, 0) /\
    find rotations' 0%N <> find Fixture.five_rotations 0%N.
Proof.
  intros self; destruct star_estimate as (self' & He & Hidx & HN).
  eexists; exists self'; split; [exact He|].
  rewrite Hidx; repeat split.
  simpl; intros E; injection E; lra.
Qed.

Section AcrossEstimators.

Variable chol : Cholesky.SparseCholeskyLLt.
Variable MultiplyRotations : Vector3d -> Vector3d -> Vector3d.
Variable ViewIdToAscentIndex : image_map Vector3d -> image_map Z.
Variable SetupLinearSystem : view_pairs_t -> nat -> image_map Z -> Matrix.
Variable uninitialized : nat -> VectorXd.
Variable SDPSolver : Type.
Variable Summary : Type.
Variables RBRSDPSolver RankRestrictedSDPSolver RiemannianStaircase :
  Z -> Z -> LagrangeDual.SDPSolverOptions -> SDPSolver.
Variable SetCovariance : SDPSolver -> Matrix -> SDPSolver.
Variable SetAdjacentEdges : SDPSolver -> LagrangeDual.adjacency -> SDPSolver.
Variable SDPSolve : SDPSolver -> Summary -> SDPSolver * Summary.
Variable GetSolution : SDPSolver -> Matrix.
Variable AngleAxisToRotationMatrix : Vector3d -> Matrix.
Variable RotationMatrixToAngleAxis : Matrix -> Vector3d.
Variable SymEigsSolver :
  LagrangeDual.SelectionRule -> Matrix -> nat -> nat ->
  LagrangeDual.SpectraInfo * VectorXd.

(** C1 (amended).  [SolveIRLS] returns false exactly when the Cholesky
    pattern analysis, a factorization or a solve reports non-success, at
    the first such report, and true otherwise.  The Lagrange-dual
    [EstimateRotations] returns true whenever it returns.  The eigensolver
    runs in [ComputeErrorBound], which returns no status: when the
    eigensolver, run on the call's [D - A], is not successful, the call
    comes back with the bound computed with [lambda2 = 0]. *)
Theorem numerical_failure_status :
  (forall (self self' : IRLS.IRLSRotationLocalRefiner) (rr : view_pairs_t)
          (rotations rotations' : image_map Vector3d) (b : bool),
      IRLS.SolveIRLS chol MultiplyRotations ViewIdToAscentIndex SetupLinearSystem
                     uninitialized self rr rotations = Ret (b, rotations', self') ->
      exists self1 : IRLS.IRLSRotationLocalRefiner,
        IRLS.prepare ViewIdToAscentIndex SetupLinearSystem self rr rotations
        = Ret self1 /\
        (b = false <->
         IRLS.numerical_failure chol MultiplyRotations uninitialized
                                self1 rr rotations)) /\
  (forall (self self' : LagrangeDual.LagrangeDualRotationEstimator Summary)
          (view_pairs : view_pairs_t)
          (rotations rotations' : image_map Vector3d) (b : bool),
      LagrangeDual.EstimateRotations SDPSolver Summary RBRSDPSolver
        RankRestrictedSDPSolver RiemannianStaircase SetCovariance
        SetAdjacentEdges SDPSolve GetSolution AngleAxisToRotationMatrix
        RotationMatrixToAngleAxis ViewIdToAscentIndex self view_pairs rotations
      = Ret (b, rotations', self') ->
      b = true) /\
  (forall (self : LagrangeDual.LagrangeDualRotationEstimator Summary)
          (view_pairs : view_pairs_t)
          (index : image_map Z) (A D : Matrix) (max_degree : R),
      LagrangeDual.graph_matrices (LagrangeDual.images_num_ Summary self)
        view_pairs (LagrangeDual.view_id_to_index_ Summary self)
      = Ret (index, A, D, max_degree) ->
      fst (SymEigsSolver LagrangeDual.SMALLEST_ALGE (msub D A) 2%nat 5%nat)
      <> LagrangeDual.SUCCESSFUL ->
      exists self' : LagrangeDual.LagrangeDualRotationEstimator Summary,
        LagrangeDual.ComputeErrorBound Summary SymEigsSolver self view_pairs
        = Ret self' /\
        LagrangeDual.GetErrorBound Summary self'
        = LagrangeDual.error_bound 0 max_degree).
Proof.
  split; [|split].
  - intros self self' rr rotations rotations' b H.
    eapply SolveIRLS_false_iff; eauto.
  - intros self self' view_pairs rotations rotations' b H.
    eapply EstimateRotations_Ret in H; apply H.
  - intros self view_pairs index A D max_degree Hg.
    pose proof (ComputeErrorBound_spec Summary SymEigsSolver self view_pairs) as H.
    rewrite Hg in H.
    destruct (SymEigsSolver _ _ _ _) as [info eigenvalues]; cbn [fst].
    intros Hinfo; eexists; split; [exact H|].
    destruct info; cbn; congruence.
Qed.

(** C2 (amended).  [SolveIRLS] leaves the rotation of the view of dense
    index 0 as the caller passed it, whatever it returns.  The
    Lagrange-dual [EstimateRotations] has no anchor: it overwrites the
    rotation of every view, the one of dense index 0 included, with the
    rotation retrieved from the view's block of [Y]. *)
Theorem gauge_rotation :
  (forall (self self' : IRLS.IRLSRotationLocalRefiner) (rr : view_pairs_t)
          (rotations rotations' : image_map Vector3d) (b : bool),
      IRLS.SolveIRLS chol MultiplyRotations ViewIdToAscentIndex SetupLinearSystem
                     uninitialized self rr rotations = Ret (b, rotations', self') ->
      forall id : image_t,
        find (IRLS.view_id_to_index_ self') id = Some 0%Z ->
        find rotations' id = find rotations id) /\
  (forall (self self' : LagrangeDual.LagrangeDualRotationEstimator Summary)
          (view_pairs : view_pairs_t)
          (rotations rotations' : image_map Vector3d) (b : bool),
      LagrangeDual.EstimateRotations SDPSolver Summary RBRSDPSolver
        RankRestrictedSDPSolver RiemannianStaircase SetCovariance
        SetAdjacentEdges SDPSolve GetSolution AngleAxisToRotationMatrix
        RotationMatrixToAngleAxis ViewIdToAscentIndex self view_pairs rotations
      = Ret (b, rotations', self') ->
      forall (id : image_t) (v : Vector3d),
        find rotations id = Some v ->
        exists (i : Z) (v' : Vector3d),
          find (LagrangeDual.view_id_to_index_ Summary self') id = Some i /\
          LagrangeDual.retrieved_rotation RotationMatrixToAngleAxis
            (LagrangeDual.Y_ Summary self') i = Ret v' /\
          find rotations' id = Some v').
Proof.
  split.
  - intros self self' rr rotations rotations' b H.
    eapply SolveIRLS_gauge; eauto.
  - intros self self' view_pairs rotations rotations' b H.
    eapply EstimateRotations_Ret in H; apply H.
Qed.

End AcrossEstimators.

(** C1 (amended), in the examples: with a failing pattern analysis
    [SolveIRLS] returns false and a numerical failure is on record; in the
    star example the Lagrange-dual estimator can only return true, and
    with an eigensolver that does not converge [ComputeErrorBound] stores
    the bound for [lambda2 = 0]. *)
Lemma numerical_failure_status_witness :
  let self := LagrangeDual.SetViewIdToIndex nat
                (LagrangeDual.make nat 0%nat 5 3
                   (Fixture.options LagrangeDual.RBR_BCM))
                Fixture.five_index in
  IRLS.numerical_failure Fixture.failing_analysis_chol Fixture.add_rotations
    Fixture.zeros Fixture.two_view_refiner Fixture.two_view_pairs
    Fixture.two_view_rotations /\
  (forall b rotations' self',
      Fixture.EstimateRotations self Fixture.star_pairs Fixture.five_rotations
      = Ret (b, rotations', self') -> b = true) /\
  exists self' : LagrangeDual.LagrangeDualRotationEstimator nat,
    LagrangeDual.ComputeErrorBound nat Fixture.eigs_not_converging self
                                   Fixture.star_pairs
    = Ret self' /\
    LagrangeDual.GetErrorBound nat self' = LagrangeDual.error_bound 0 4.
Proof.
  intros self.
  pose proof (numerical_failure_status
                Fixture.failing_analysis_chol Fixture.add_rotations
                Fixture.index_by_position Fixture.two_view_system Fixture.zeros
                Matrix nat Fixture.identity_blocks Fixture.identity_blocks
                Fixture.identity_blocks Fixture.set_covariance
                Fixture.set_adjacent_edges Fixture.sdp_solve Fixture.get_solution
                Fixture.identity_of_zero Fixture.zero_of_identity
                Fixture.eigs_not_converging) as (Hirls & Hdual & Heigs).
  split; [|split].
  - destruct (Hirls _ _ _ _ _ _ two_view_SolveIRLS_failing) as (self1 & Hp & Hf).
    injection Hp as <-; apply Hf; reflexivity.
  - intros b rotations' self' He.
    exact (Hdual self self' Fixture.star_pairs Fixture.five_rotations
                 rotations' b He).
  - destruct star_graph_matrices as (index & A & D & max_degree & Hg & _ & _ & Hm).
    rewrite Hm in Hg.
    apply (Heigs self Fixture.star_pairs index A D 4 Hg); discriminate.
Defined.

(** C2 (amended), in the examples: after [SolveIRLS] view 0 still has
    the rotation (1, 0, 0); after the Lagrange-dual [EstimateRotations]
    view 0 has the rotation retrieved from block 0. *)
Lemma gauge_rotation_witness :
  (exists (b : bool) (rotations' : image_map Vector3d)
          (self' : IRLS.IRLSRotationLocalRefiner),
      IRLS.SolveIRLS Fixture.scalar_chol Fixture.add_rotations
        Fixture.index_by_position Fixture.two_view_system Fixture.zeros
        Fixture.two_view_refiner Fixture.two_view_pairs Fixture.two_view_rotations
      = Ret (b, rotations', self') /\
      find rotations' 0%N = Some (1, 0, 0)) /\
  (exists (rotations' : image_map Vector3d)
          (self' : LagrangeDual.LagrangeDualRotationEstimator nat)
          (i : Z) (v' : Vector3d),
      find (LagrangeDual.view_id_to_index_ nat self') 0%N = Some i /\
      LagrangeDual.retrieved_rotation Fixture.zero_of_identity
        (LagrangeDual.Y_ nat self') i = Ret v' /\
      find rotations' 0%N = Some v').
Proof.
  pose proof (gauge_rotation
                Fixture.scalar_chol Fixture.add_rotations
                Fixture.index_by_position Fixture.two_view_system Fixture.zeros
                Matrix nat Fixture.identity_blocks Fixture.identity_blocks
                Fixture.identity_blocks Fixture.set_covariance
                Fixture.set_adjacent_edges Fixture.sdp_solve Fixture.get_solution
                Fixture.identity_of_zero Fixture.zero_of_identity)
    as (Hirls & Hdual).
  split.
  - destruct two_view_SolveIRLS as (b & rotations' & self' & Hs & Hidx).
    exists b, rotations', self'; split; [exact Hs|].
    rewrite (Hirls _ _ _ _ _ _ Hs 0%N); [reflexivity|].
    rewrite Hidx; reflexivity.
  - destruct star_estimate as (self' & He & _).
    destruct (Hdual _ _ _ _ _ _ He 0%N (3, 0, 0) eq_refl) as (i & v' & Hi & Hr & Hv).
    eexists; exists self', i, v'; split; [exact Hi | split; [exact Hr | exact Hv]].
Defined.

(* ================================================================== *)
(** * More on the L1 ADMM solver *)
(* ================================================================== *)

Lemma coeff_map (f : R -> R) (v : VectorXd) (i : nat) :
  f 0 = 0 -> coeff (map f v) i = f (coeff v i).
Proof.
  intros H0; unfold coeff; revert i.
  induction v as [|t v IH]; intros [|i]; simpl; auto.
Qed.

Lemma Shrinkage_length (vec : VectorXd) (kappa : R) :
  length (L1.Shrinkage vec kappa) = length vec.
Proof. rewrite Shrinkage_map; apply length_map. Qed.

(** X1.  [Shrinkage] keeps the size of its argument and is an odd function of
    it, whatever [kappa] is. *)
Theorem Shrinkage_odd (vec : VectorXd) (kappa : R) :
  length (L1.Shrinkage vec kappa) = length vec /\
  L1.Shrinkage (map Ropp vec) kappa = map Ropp (L1.Shrinkage vec kappa).
Proof.
  split; [apply Shrinkage_length|].
  rewrite !Shrinkage_map, !map_map.
  apply map_ext; intros v; real_cases.
Qed.

(** X2.  For [kappa >= 0], [Shrinkage] sets the entries within [kappa] of zero
    to zero, moves every other entry towards zero by [kappa], and so never
    makes an entry larger in magnitude. *)
Theorem Shrinkage_dead_zone (vec : VectorXd) (kappa : R) (i : nat) :
  0 <= kappa ->
  let v := coeff vec i in
  let out := coeff (L1.Shrinkage vec kappa) i in
  (Rabs v <= kappa -> out = 0) /\
  (kappa < v -> out = v - kappa) /\
  (v < - kappa -> out = v + kappa) /\
  Rabs out <= Rabs v.
Proof.
  intros Hk v out; unfold out, v.
  rewrite Shrinkage_map, coeff_map by real_cases.
  generalize (coeff vec i); intros t.
  unfold Rmax; destruct (Rle_dec 0 (t - kappa)), (Rle_dec 0 (- t - kappa));
    repeat split; try intros H; unfold Rabs in *;
    repeat match goal with
           | |- context [Rcase_abs ?a] => destruct (Rcase_abs a)
           | H : context [Rcase_abs ?a] |- _ => destruct (Rcase_abs a)
           end; lra.
Qed.

Lemma Shrinkage_dead_zone_witness :
  0 <= 1 /\
  coeff (L1.Shrinkage [0.5; 3; -3] 1) 0 = 0 /\
  coeff (L1.Shrinkage [0.5; 3; -3] 1) 1 = 3 - 1 /\
  coeff (L1.Shrinkage [0.5; 3; -3] 1) 2 = -3 + 1.
Proof.
  assert (H : 0 <= 1) by lra.
  split; [exact H|].
  destruct (Shrinkage_dead_zone [0.5; 3; -3] 1 0 H) as (H0 & _).
  destruct (Shrinkage_dead_zone [0.5; 3; -3] 1 1 H) as (_ & H1 & _).
  destruct (Shrinkage_dead_zone [0.5; 3; -3] 1 2 H) as (_ & _ & H2 & _).
  repeat split.
  - apply H0; unfold coeff; simpl. rewrite Rabs_pos_eq; lra.
  - apply H1; unfold coeff; simpl; lra.
  - apply H2; unfold coeff; simpl; lra.
Defined.

(** A run that ends in a failed solve ends in the state it was in before
    the failing pass, except that [x] holds what the failed solve gave. *)
Lemma admm_run_failed (chol : Cholesky.SparseCholeskyLLt)
      (s : L1.L1Solver chol) (rhs : VectorXd) (n : nat)
      (st st' : L1.admm_state) (k : nat) :
  L1.admm_run s rhs n st st' L1.SolveFailed k ->
  exists (st0 : L1.admm_state) (info : ComputationInfo),
    Cholesky.Solve chol (L1.linear_solver_ s) (L1.x_rhs s rhs st0)
    = (L1.x st', info) /\
    info <> Success /\
    L1.z st' = L1.z st0 /\ L1.u st' = L1.u st0.
Proof.
  intros H; remember L1.SolveFailed as e eqn:He.
  induction H; try discriminate; auto.
  exists st, info; simpl; auto.
Qed.

(** X3.  [Solve] makes at most [max_num_iterations] passes, and with a cap that
    is not positive it makes none: the caller's [x] comes back as it
    was.  When the Cholesky solve fails, the [x] that comes back is the
    vector the failed solve produced, not the last iterate. *)
Theorem Solve_passes
  (chol : Cholesky.SparseCholeskyLLt) (uninitialized : nat -> VectorXd)
  (s : L1.L1Solver chol) (rhs solution : VectorXd) :
  let r := L1.Solve uninitialized s rhs solution in
  (Z.of_nat (L1.iterations r) <= Z.max 0 (L1.max_num_iterations (L1.options_ s)))%Z /\
  ((L1.max_num_iterations (L1.options_ s) <= 0)%Z ->
   L1.x (L1.final r) = solution /\ L1.left_by r = L1.IterationCap) /\
  (L1.left_by r = L1.SolveFailed ->
   exists (st0 : L1.admm_state) (info : ComputationInfo),
     Cholesky.Solve chol (L1.linear_solver_ s) (L1.x_rhs s rhs st0)
     = (L1.x (L1.final r), info) /\
     info <> Success /\
     L1.z (L1.final r) = L1.z st0 /\ L1.u (L1.final r) = L1.u st0).
Proof.
  intros r.
  pose proof (loop_run chol s rhs
                (Z.to_nat (L1.max_num_iterations (L1.options_ s)))
                {| L1.x := solution; L1.z := setZero (rows (L1.a_ s));
                   L1.u := setZero (rows (L1.a_ s));
                   L1.z_old := uninitialized (rows (L1.a_ s)) |}) as Hrun.
  cbv zeta in Hrun; fold (L1.Solve uninitialized s rhs solution) in Hrun; fold r in Hrun.
  split; [|split].
  - apply admm_run_exit in Hrun.
    destruct (L1.left_by r); lia.
  - intros Hmax; unfold r, L1.Solve.
    replace (Z.to_nat (L1.max_num_iterations (L1.options_ s))) with 0%nat by lia.
    split; reflexivity.
  - intros Hf; rewrite Hf in Hrun.
    eapply admm_run_failed; eauto.
Qed.

Lemma Solve_passes_witness :
  let s := L1.SetMaxIterations
             (L1.Build_L1Solver Fixture.identity_chol L1.default_Options
                                (Identity 2) tt) 0 in
  (L1.max_num_iterations (L1.options_ s) <= 0)%Z /\
  L1.x (L1.final (L1.Solve Fixture.zeros s [3; -1] [7; 7])) = [7; 7].
Proof.
  intros s.
  assert (H : (L1.max_num_iterations (L1.options_ s) <= 0)%Z) by (simpl; lia).
  split; [exact H|].
  exact (proj1 (proj1 (proj2 (Solve_passes Fixture.identity_chol Fixture.zeros s
                                [3; -1] [7; 7])) H)).
Defined.

Lemma zipWith_length_eq f (a b : VectorXd) :
  length a = length b -> length (zipWith f a b) = length a.
Proof. intros H; rewrite zipWith_length; lia. Qed.

(** One update keeps [z] and [u] of the size of [b]. *)
Lemma admm_update_sizes (chol : Cholesky.SparseCholeskyLLt)
      (s : L1.L1Solver chol) (rhs : VectorXd) (st : L1.admm_state) (x' : VectorXd) :
  length rhs = rows (L1.a_ s) ->
  length (L1.z st) = rows (L1.a_ s) ->
  length (L1.u st) = rows (L1.a_ s) ->
  let st' := L1.admm_update s rhs st x' in
  length (L1.z st') = rows (L1.a_ s) /\ length (L1.u st') = rows (L1.a_ s) /\
  length (L1.z_old st') = rows (L1.a_ s).
Proof.
  intros Hb Hz Hu; unfold L1.admm_update; cbn [L1.z L1.u L1.z_old].
  unfold vadd, vsub.
  rewrite Shrinkage_length.
  repeat (rewrite ?zipWith_length, ?vscale_length, ?mat_vec_length,
           ?Shrinkage_length, ?Hb, ?Hz, ?Hu).
  repeat split; try lia; auto.
Qed.

(** X4.  The sizes [Solve] keeps: for a right-hand side with one entry per row
    of [A], the vectors [z] and [u] have one entry per row of [A] when
    [Solve] is left, however it is left. *)
Theorem Solve_sizes
  (chol : Cholesky.SparseCholeskyLLt) (uninitialized : nat -> VectorXd)
  (s : L1.L1Solver chol) (rhs solution : VectorXd) :
  length rhs = rows (L1.a_ s) ->
  let r := L1.Solve uninitialized s rhs solution in
  length (L1.z (L1.final r)) = rows (L1.a_ s) /\
  length (L1.u (L1.final r)) = rows (L1.a_ s).
Proof.
  intros Hb r; unfold r, L1.Solve.
  generalize (Z.to_nat (L1.max_num_iterations (L1.options_ s))) as n.
  assert (Hinv : forall n st,
             length (L1.z st) = rows (L1.a_ s) ->
             length (L1.u st) = rows (L1.a_ s) ->
             length (L1.z (L1.final (L1.loop s rhs n st))) = rows (L1.a_ s) /\
             length (L1.u (L1.final (L1.loop s rhs n st))) = rows (L1.a_ s)).
  { induction n as [|n IH]; intros st Hz Hu; [simpl; auto|].
    rewrite admm_loop_S.
    destruct (Cholesky.Solve chol (L1.linear_solver_ s) (L1.x_rhs s rhs st))
      as [x' info] eqn:E.
    destruct (is_Success info) eqn:Hs.
    - apply is_Success_true in Hs; subst info.
      destruct (admm_update_sizes chol s rhs st x' Hb Hz Hu) as (Hz' & Hu' & _).
      destruct (body_solved chol s rhs st x' E) as [[_ ->]|[_ ->]]; cbn; auto.
    - assert (Hi : info <> Success) by (intros ->; discriminate).
      rewrite (body_failed chol s rhs st x' info E Hi); cbn; auto. }
  intros n; apply Hinv; simpl; apply setZero_length.
Qed.

Lemma Solve_sizes_witness :
  let s := L1.Build_L1Solver Fixture.identity_chol L1.default_Options
                             (Identity 2) tt in
  length [3; -1] = rows (L1.a_ s) /\
  length (L1.z (L1.final (L1.Solve Fixture.zeros s [3; -1] [0; 0]))) = 2%nat.
Proof.
  intros s; split; [reflexivity|].
  exact (proj1 (Solve_sizes Fixture.identity_chol Fixture.zeros s [3; -1] [0; 0]
                  eq_refl)).
Defined.

(** X5.  With [A] the identity, [alpha = 1] and any positive [rho], any
    tolerances and an iteration cap of at least one: on a solver that the
    constructor returned, over a Cholesky object whose successful
    [Compute] of [A^T A] solves exactly, [Solve] leaves [x = b]. *)
Lemma Solve_identity_any_rho
  (chol : Cholesky.SparseCholeskyLLt) (uninitialized : nat -> VectorXd)
  (o : L1.Options) (n : nat) :
  let spd_mat := mat_mul (transpose (Identity n)) (Identity n) in
  let ls := Cholesky.Compute chol (Cholesky.Create chol) spd_mat in
  (Cholesky.Info chol ls = Success -> Cholesky.exact_factor chol ls spd_mat) ->
  L1.alpha o = 1 ->
  0 < L1.rho o ->
  (1 <= L1.max_num_iterations o)%Z ->
  forall (s : L1.L1Solver chol) (b x0 : VectorXd),
    L1.make chol o (Identity n) = Ret s ->
    length b = n ->
    L1.x (L1.final (L1.Solve uninitialized s b x0)) = b.
Proof.
  intros spd_mat ls Hchol _ _ Hmax s b x0 Hmake Hlen; subst n.
  unfold L1.make in Hmake; fold spd_mat in Hmake; fold ls in Hmake.
  assert (Hinfo : Cholesky.Info chol ls = Success).
  { destruct (Cholesky.Info chol ls); cbn in Hmake; try discriminate; reflexivity. }
  rewrite Hinfo in Hmake; cbn [is_Success CHECK bind] in Hmake.
  injection Hmake as <-.
  unfold L1.Solve; cbn [L1.a_]; change (rows (Identity (length b))) with (length b).
  apply loop_identity; [reflexivity | exact (Hchol Hinfo) | split; reflexivity |].
  right; cbn [L1.options_]; lia.
Qed.

(** X5 at [n = 2], [rho = 3], tolerances zero, five iterations allowed. *)
Lemma Solve_identity_any_rho_witness :
  let o := {| L1.max_num_iterations := 5; L1.rho := 3; L1.alpha := 1;
              L1.absolute_tolerance := 0; L1.relative_tolerance := 0 |} in
  exists s : L1.L1Solver Fixture.identity_chol,
    L1.make Fixture.identity_chol o (Identity 2) = Ret s /\
    L1.x (L1.final (L1.Solve Fixture.zeros s [3; -1] [0; 0])) = [3; -1].
Proof.
  intros o; eexists; split; [reflexivity|].
  apply (Solve_identity_any_rho Fixture.identity_chol Fixture.zeros o 2);
    [| reflexivity | simpl; lra | simpl; lia | reflexivity | reflexivity].
  intros _ rhs Hrhs; exists rhs; split; [reflexivity|].
  split; [exact Hrhs|].
  rewrite mat_vec_gram_Identity.
  simpl in Hrhs; rewrite <- Hrhs; apply mat_vec_Identity.
Defined.

(* ================================================================== *)
(** * More on the IRLS refiner *)
(* ================================================================== *)

Lemma squaredNorm3_nonneg (e : Vector3d) : 0 <= squaredNorm3 e.
Proof. destruct e as [[a b] c]; simpl; nra. Qed.

Lemma edge_weight_value (sigma : R) (residual : VectorXd) (k : Z) (w : R) :
  IRLS.edge_weight sigma residual k = Ret w ->
  let t := squaredNorm3 (segment3 residual (Z.to_nat (3 * k))) + sigma * sigma in
  w = sigma / (t * t).
Proof.
  unfold IRLS.edge_weight; intros H; inv_bind H as e He.
  apply segment3_get_spec in He as [_ ->].
  injection H as <-; reflexivity.
Qed.

(** X6.  For [sigma > 0] the weight of an edge is positive, at most
    [1 / sigma^3] (its value at a zero residual), and the larger the
    residual the smaller the weight. *)
Theorem edge_weight_monotone (sigma : R) (residual residual' : VectorXd)
        (k k' : Z) (w w' : R) :
  0 < sigma ->
  IRLS.edge_weight sigma residual k = Ret w ->
  IRLS.edge_weight sigma residual' k' = Ret w' ->
  0 < w <= 1 / sigma ^ 3 /\
  (squaredNorm3 (segment3 residual (Z.to_nat (3 * k)))
   <= squaredNorm3 (segment3 residual' (Z.to_nat (3 * k'))) ->
   w' <= w) /\
  (squaredNorm3 (segment3 residual (Z.to_nat (3 * k))) = 0 -> w = 1 / sigma ^ 3).
Proof.
  intros Hs Hw Hw'.
  apply edge_weight_value in Hw, Hw'; cbv zeta in Hw, Hw'.
  pose proof (squaredNorm3_nonneg (segment3 residual (Z.to_nat (3 * k)))) as He.
  pose proof (squaredNorm3_nonneg (segment3 residual' (Z.to_nat (3 * k')))) as He'.
  set (e := squaredNorm3 (segment3 residual (Z.to_nat (3 * k)))) in *.
  set (e' := squaredNorm3 (segment3 residual' (Z.to_nat (3 * k')))) in *.
  assert (Hss : 0 < sigma * sigma) by (apply Rmult_lt_0_compat; lra).
  assert (Hpos : forall x, 0 <= x -> 0 < (x + sigma * sigma) * (x + sigma * sigma))
    by (intros; apply Rmult_lt_0_compat; lra).
  assert (Hmono : forall x y, 0 <= x -> x <= y ->
                              sigma / ((y + sigma * sigma) * (y + sigma * sigma))
                              <= sigma / ((x + sigma * sigma) * (x + sigma * sigma))).
  { intros x y Hx Hxy; unfold Rdiv.
    apply Rmult_le_compat_l; [lra|].
    apply Rinv_le_contravar; [apply Hpos; lra|].
    apply Rmult_le_compat; lra. }
  assert (H0 : sigma / ((0 + sigma * sigma) * (0 + sigma * sigma)) = 1 / sigma ^ 3).
  { field; lra. }
  subst w w'; repeat split.
  - apply Rdiv_lt_0_compat; [lra | apply Hpos; lra].
  - rewrite <- H0; apply Hmono; lra.
  - intros Hle; apply Hmono; lra.
  - intros E; rewrite E; exact H0.
Qed.

Lemma edge_weight_monotone_witness :
  let sigma := 1 in
  0 < sigma /\
  exists w w' : R,
    IRLS.edge_weight sigma [0; 0; 0; 2; 0; 0] 0 = Ret w /\
    IRLS.edge_weight sigma [0; 0; 0; 2; 0; 0] 1 = Ret w' /\
    w' <= w /\ w = 1 / sigma ^ 3.
Proof.
  intros sigma.
  assert (Hs : 0 < sigma) by (unfold sigma; lra).
  split; [exact Hs|].
  do 2 eexists; split; [reflexivity | split; [reflexivity|]].
  destruct (edge_weight_monotone sigma [0; 0; 0; 2; 0; 0] [0; 0; 0; 2; 0; 0]
              0 1 _ _ Hs eq_refl eq_refl) as (_ & Hmono & Hzero).
  split.
  - apply Hmono; unfold segment3, coeff; simpl; lra.
  - apply Hzero; unfold segment3, coeff; simpl; lra.
Defined.

Lemma UpdateGlobalRotations_cons
      (MultiplyRotations : Vector3d -> Vector3d -> Vector3d)
      (self : IRLS.IRLSRotationLocalRefiner)
      (id : image_t) (rotation : Vector3d) (rest : image_map Vector3d) :
  IRLS.UpdateGlobalRotations MultiplyRotations self ((id, rotation) :: rest)
  = (index <- FindOrDie (IRLS.view_id_to_index_ self) id ;;
     rotation' <-
       (if ((index - 1) =? IRLS.kConstantRotationIndex)%Z then Ret rotation
        else
          rotation_change <-
            IRLS.segment3_get (IRLS.tangent_space_step_ self) (3 * (index - 1)) ;;
          Ret (MultiplyRotations rotation rotation_change)) ;;
     rest' <- IRLS.UpdateGlobalRotations MultiplyRotations self rest ;;
     Ret ((id, rotation') :: rest')).
Proof. reflexivity. Qed.

(** X7.  [UpdateGlobalRotations], when it comes back: the same views in the
    same order; a view whose index is 0 keeps its rotation and every other
    view is multiplied, on the right, by the segment of the step that
    starts at [3 (index - 1)], which lies inside the step. *)
Theorem UpdateGlobalRotations_spec
        (MultiplyRotations : Vector3d -> Vector3d -> Vector3d)
        (self : IRLS.IRLSRotationLocalRefiner)
        (rotations rotations' : image_map Vector3d) :
  IRLS.UpdateGlobalRotations MultiplyRotations self rotations = Ret rotations' ->
  map fst rotations' = map fst rotations /\
  forall (id : image_t) (rotation : Vector3d),
    find rotations id = Some rotation ->
    exists index : Z,
      find (IRLS.view_id_to_index_ self) id = Some index /\
      (index = 0%Z -> find rotations' id = Some rotation) /\
      (index <> 0%Z ->
       (1 <= index)%Z /\
       (3 * index <= Z.of_nat (length (IRLS.tangent_space_step_ self)))%Z /\
       find rotations' id
       = Some (MultiplyRotations rotation
                 (segment3 (IRLS.tangent_space_step_ self)
                           (Z.to_nat (3 * (index - 1)))))).
Proof.
  revert rotations'; induction rotations as [|[id' rot] rest IH]; intros rotations' H.
  - injection H as <-; split; [reflexivity | discriminate].
  - rewrite UpdateGlobalRotations_cons in H.
    inv_bind H as index Hindex. apply FindOrDie_Ret in Hindex.
    inv_bind H as rot' Hrot. inv_bind H as rest' Hrest.
    injection H as <-.
    destruct (IH _ Hrest) as [Hkeys Hvals].
    split; [simpl; congruence|].
    intros id rotation Hfind; cbn [find] in Hfind |- *.
    destruct (N.eqb_spec id' id) as [->|Hne]; [|auto].
    injection Hfind as ->; exists index; split; [exact Hindex|].
    unfold IRLS.kConstantRotationIndex in Hrot.
    destruct (Z.eqb_spec (index - 1) (-1)) as [E|E].
    + injection Hrot as <-; split; [reflexivity | lia].
    + inv_bind Hrot as change Hc.
      unfold IRLS.segment3_get in Hc.
      destruct (IRLS.in_range3 _ _) eqn:Er in Hc; [|discriminate].
      apply in_range3_spec in Er; injection Hc as <-; injection Hrot as <-.
      split; [lia | intros _; split; [lia | split; [lia | reflexivity]]].
Qed.

Lemma UpdateGlobalRotations_spec_witness :
  let self := IRLS.SetInitTangentSpaceStep Fixture.two_view_refiner [2; 0; 0] in
  exists rotations' : image_map Vector3d,
    IRLS.UpdateGlobalRotations Fixture.add_rotations self Fixture.two_view_rotations
    = Ret rotations' /\
    map fst rotations' = [0%N; 1%N] /\
    find rotations' 0%N = Some (1, 0, 0).
Proof.
  intros self; eexists; split; [reflexivity|].
  destruct (UpdateGlobalRotations_spec Fixture.add_rotations self
              Fixture.two_view_rotations _ eq_refl) as [Hk Hv].
  split; [exact Hk|].
  destruct (Hv 0%N (1, 0, 0) eq_refl) as (index & Hi & H0 & _).
  injection Hi as <-; apply H0; reflexivity.
Defined.

Lemma forallb_false_ex {A : Type} (f : A -> bool) (l : list A) :
  forallb f l = false <-> exists x, In x l /\ f x = false.
Proof.
  split.
  - intros Hf; induction l as [|k l IHl]; [discriminate|].
    cbn [forallb] in Hf; apply andb_false_iff in Hf as [Hk|Hl].
    + exists k; split; [left; reflexivity | exact Hk].
    + destruct (IHl Hl) as (x & Hin & Hx); exists x; split; [right|]; assumption.
  - intros (x & Hin & Hx).
    destruct (forallb f l) eqn:E; [|reflexivity].
    rewrite forallb_forall in E; rewrite (E x Hin) in Hx; discriminate.
Qed.

Lemma UpdateGlobalRotations_outcome
      (MultiplyRotations : Vector3d -> Vector3d -> Vector3d)
      (self : IRLS.IRLSRotationLocalRefiner)
      (rotations : image_map Vector3d) :
  match IRLS.UpdateGlobalRotations MultiplyRotations self rotations with
  | Ret _ => forallb (view_updatable self) (map fst rotations) = true
  | CheckFailed => forallb (view_updatable self) (map fst rotations) = false
  | NullDereference => False
  end.
Proof.
  induction rotations as [|[id rot] rest IH]; [reflexivity|].
  rewrite UpdateGlobalRotations_cons; cbn [map fst forallb].
  unfold view_updatable at 1 2 3, FindOrDie.
  destruct (find (IRLS.view_id_to_index_ self) id) as [index|]; cbn [bind];
    [|reflexivity].
  destruct ((index - 1) =? IRLS.kConstantRotationIndex)%Z; cbn [bind orb].
  - destruct (IRLS.UpdateGlobalRotations _ self rest); cbn [bind]; exact IH.
  - unfold IRLS.segment3_get.
    destruct (IRLS.in_range3 _ _); cbn [bind]; [|reflexivity].
    destruct (IRLS.UpdateGlobalRotations _ self rest); cbn [bind]; exact IH.
Qed.

(** X8.  [UpdateGlobalRotations] comes back exactly when every view of the
    rotation map has an entry in the index map and, unless its index is
    0, its segment inside the step; otherwise the process dies (in
    [FindOrDie], or in the range assertion of the segment). *)
Theorem UpdateGlobalRotations_returns_iff
        (MultiplyRotations : Vector3d -> Vector3d -> Vector3d)
        (self : IRLS.IRLSRotationLocalRefiner)
        (rotations : image_map Vector3d) :
  ((exists rotations',
       IRLS.UpdateGlobalRotations MultiplyRotations self rotations = Ret rotations')
   <-> forall id, In id (map fst rotations) -> view_updatable self id = true) /\
  (IRLS.UpdateGlobalRotations MultiplyRotations self rotations = CheckFailed
   <-> exists id, In id (map fst rotations) /\ view_updatable self id = false).
Proof.
  pose proof (UpdateGlobalRotations_outcome MultiplyRotations self rotations) as H.
  rewrite <- forallb_forall.
  pose proof (forallb_false_ex (view_updatable self) (map fst rotations)) as Hex.
  rewrite <- Hex.
  destruct (IRLS.UpdateGlobalRotations _ self rotations) as [g'| |];
    [| |destruct H]; rewrite H; split; split;
    try discriminate; try reflexivity; eauto.
  - intros [g' Hg']; discriminate.
Qed.

Lemma UpdateGlobalRotations_returns_iff_witness :
  In 7%N (map fst [(0%N, Zero3); (7%N, Zero3)]) /\
  view_updatable Fixture.two_view_refiner 7%N = false /\
  IRLS.UpdateGlobalRotations Fixture.add_rotations Fixture.two_view_refiner
    [(0%N, Zero3); (7%N, Zero3)] = CheckFailed.
Proof.
  assert (Hin : In 7%N (map fst [(0%N, Zero3); (7%N, Zero3)]))
    by (simpl; auto).
  assert (Hn : view_updatable Fixture.two_view_refiner 7%N = false)
    by reflexivity.
  split; [exact Hin | split; [exact Hn|]].
  apply (proj2 (UpdateGlobalRotations_returns_iff Fixture.add_rotations
                  Fixture.two_view_refiner [(0%N, Zero3); (7%N, Zero3)])).
  exists 7%N; split; [exact Hin | exact Hn].
Defined.

Lemma set_coeff_id (v : VectorXd) (i : nat) :
  set_coeff v i (coeff v i) = v.
Proof.
  unfold coeff; revert i; induction v as [|t v IH]; intros [|i]; simpl; auto.
  now rewrite IH.
Qed.

Lemma segment3_set_id (v : VectorXd) (start : Z) :
  IRLS.in_range3 v start = true ->
  IRLS.segment3_set v start (segment3 v (Z.to_nat start)) = Ret v.
Proof.
  intros E; unfold IRLS.segment3_set, segment3; rewrite E; cbv zeta.
  set (s := Z.to_nat start).
  rewrite set_coeff_id.
  rewrite set_coeff_id.
  now rewrite set_coeff_id.
Qed.

Lemma coeff_ext (v w : VectorXd) :
  length v = length w ->
  (forall i, (i < length v)%nat -> coeff v i = coeff w i) ->
  v = w.
Proof.
  intros Hlen H; apply (nth_ext v w 0 0 Hlen); exact H.
Qed.

Section ResidualFacts.

Variable MultiplyRotations : Vector3d -> Vector3d -> Vector3d.

Lemma ComputeResiduals_from_spec (rr : view_pairs_t) (grot : image_map Vector3d) :
  forall (k0 : nat) (residual residual' : VectorXd),
    IRLS.ComputeResiduals_from MultiplyRotations rr grot (Z.of_nat k0) residual
    = Ret residual' ->
    length residual' = length residual /\
    (rr <> [] -> (3 * (k0 + length rr) <= length residual)%nat) /\
    (forall j view_pair geometry,
        nth_error rr j = Some (view_pair, geometry) ->
        exists rotation1 rotation2 : Vector3d,
          find grot (fst view_pair) = Some rotation1 /\
          find grot (snd view_pair) = Some rotation2 /\
          segment3 residual' (3 * (k0 + j))
          = MultiplyRotations (neg3 rotation2)
              (MultiplyRotations (rotation_2 geometry) rotation1)) /\
    (forall i, (i < 3 * k0 \/ 3 * (k0 + length rr) <= i)%nat ->
               coeff residual' i = coeff residual i).
Proof.
  induction rr as [|[view_pair geometry] rest IH]; intros k0 residual residual' H.
  - injection H as <-; repeat split; auto; [congruence|].
    intros [|j] ? ? Hj; discriminate.
  - cbn [IRLS.ComputeResiduals_from] in H.
    inv_bind H as rotation1 H1. apply FindOrDie_Ret in H1.
    inv_bind H as rotation2 H2. apply FindOrDie_Ret in H2.
    inv_bind H as residual1 Hset.
    remember (MultiplyRotations (neg3 rotation2)
                (MultiplyRotations (rotation_2 geometry) rotation1)) as e eqn:He.
    destruct e as [[a b] c].
    apply segment3_set_spec in Hset; cbv zeta in Hset.
    replace (Z.to_nat (3 * Z.of_nat k0)) with (3 * k0)%nat in Hset by lia.
    destruct Hset as (Hlen & Hin & Ha & Hb & Hc & Hother).
    replace (Z.of_nat k0 + 1)%Z with (Z.of_nat (S k0)) in H by lia.
    apply IH in H as (Hlen' & Hrange & Hedges & Hold).
    cbn [length].
    split; [congruence|].
    split.
    { intros _; destruct rest as [|p rest']; [simpl; lia|].
      rewrite <- Hlen; cbn [length] in *.
      assert (p :: rest' <> []) as Hne by discriminate.
      specialize (Hrange Hne); lia. }
    split.
    + intros [|j] vp g Hj; cbn [nth_error] in Hj.
      * injection Hj as <- <-.
        exists rotation1, rotation2; split; [exact H1 | split; [exact H2|]].
        rewrite <- He; unfold segment3.
        replace (3 * (k0 + 0))%nat with (3 * k0)%nat by lia.
        rewrite !Hold by lia. congruence.
      * replace (3 * (k0 + S j))%nat with (3 * (S k0 + j))%nat by lia.
        eapply Hedges; eauto.
    + intros i Hi; rewrite Hold by lia; apply Hother; lia.
Qed.

Lemma ComputeResiduals_from_again (rr : view_pairs_t) (grot : image_map Vector3d) :
  forall (k0 : nat) (residual residual' : VectorXd),
    IRLS.ComputeResiduals_from MultiplyRotations rr grot (Z.of_nat k0) residual
    = Ret residual' ->
    IRLS.ComputeResiduals_from MultiplyRotations rr grot (Z.of_nat k0) residual'
    = Ret residual'.
Proof.
  induction rr as [|[view_pair geometry] rest IH]; intros k0 residual residual' H.
  - reflexivity.
  - cbn [IRLS.ComputeResiduals_from] in H |- *.
    inv_bind H as rotation1 H1. inv_bind H as rotation2 H2.
    inv_bind H as residual1 Hset.
    rewrite H1, H2; cbn [bind].
    replace (Z.of_nat k0 + 1)%Z with (Z.of_nat (S k0)) in H |- * by lia.
    pose proof (ComputeResiduals_from_spec rest grot _ _ _ H)
      as (Hlen' & _ & _ & Hold).
    pose proof (IH _ _ _ H) as Hagain.
    remember (MultiplyRotations (neg3 rotation2)
                (MultiplyRotations (rotation_2 geometry) rotation1)) as e eqn:He.
    destruct e as [[a b] c].
    pose proof Hset as Hset'.
    apply segment3_set_spec in Hset'; cbv zeta in Hset'.
    replace (Z.to_nat (3 * Z.of_nat k0)) with (3 * k0)%nat in Hset' by lia.
    destruct Hset' as (Hlen & Hin & Ha & Hb & Hc & _).
    assert (Hseg : segment3 residual' (Z.to_nat (3 * Z.of_nat k0)) = (a, b, c)).
    { replace (Z.to_nat (3 * Z.of_nat k0)) with (3 * k0)%nat by lia.
      unfold segment3; rewrite !Hold by lia; congruence. }
    rewrite <- Hseg, segment3_set_id; [exact Hagain|].
    apply in_range3_spec; lia.
Qed.

Lemma ComputeResiduals_again (self self' : IRLS.IRLSRotationLocalRefiner)
      (rr : view_pairs_t) (grot : image_map Vector3d) :
  IRLS.ComputeResiduals MultiplyRotations self rr grot = Ret self' ->
  IRLS.ComputeResiduals MultiplyRotations self' rr grot = Ret self'.
Proof.
  unfold IRLS.ComputeResiduals; intros H; inv_bind H as residual Hres.
  injection H as <-; cbn [IRLS.tangent_space_residual_ IRLS.with_residual].
  change 0%Z with (Z.of_nat 0) in Hres |- *.
  rewrite (ComputeResiduals_from_again _ _ _ _ _ Hres); reflexivity.
Qed.

Lemma ComputeResiduals_step (self self' : IRLS.IRLSRotationLocalRefiner)
      (step : VectorXd) (rr : view_pairs_t) (grot : image_map Vector3d) :
  IRLS.ComputeResiduals MultiplyRotations self rr grot = Ret self' ->
  IRLS.ComputeResiduals MultiplyRotations (IRLS.with_step self step) rr grot
  = Ret (IRLS.with_step self' step).
Proof.
  unfold IRLS.ComputeResiduals; intros H; inv_bind H as residual Hres.
  injection H as <-; cbn [IRLS.tangent_space_residual_ IRLS.with_step].
  rewrite Hres; reflexivity.
Qed.

(** X9.  [ComputeResiduals], when it comes back, has changed only the residual:
    its size is the same, and at least three times the number of edges;
    the segment of the edge visited in position [j] holds
    [MultiplyRotations (- rotation2) (MultiplyRotations relative rotation1)]
    for the rotations of its two views; the entries after the last edge
    are the old ones; and a second call on the same rotations changes
    nothing. *)
Theorem ComputeResiduals_spec (self self' : IRLS.IRLSRotationLocalRefiner)
        (rr : view_pairs_t) (grot : image_map Vector3d) :
  IRLS.ComputeResiduals MultiplyRotations self rr grot = Ret self' ->
  self' = IRLS.with_residual self (IRLS.tangent_space_residual_ self') /\
  length (IRLS.tangent_space_residual_ self')
  = length (IRLS.tangent_space_residual_ self) /\
  (rr <> [] -> (3 * length rr <= length (IRLS.tangent_space_residual_ self))%nat) /\
  (forall j view_pair geometry,
      nth_error rr j = Some (view_pair, geometry) ->
      exists rotation1 rotation2 : Vector3d,
        find grot (fst view_pair) = Some rotation1 /\
        find grot (snd view_pair) = Some rotation2 /\
        segment3 (IRLS.tangent_space_residual_ self') (3 * j)
        = MultiplyRotations (neg3 rotation2)
            (MultiplyRotations (rotation_2 geometry) rotation1)) /\
  (forall i, (3 * length rr <= i)%nat ->
             coeff (IRLS.tangent_space_residual_ self') i
             = coeff (IRLS.tangent_space_residual_ self) i) /\
  IRLS.ComputeResiduals MultiplyRotations self' rr grot = Ret self'.
Proof.
  intros H; pose proof (ComputeResiduals_again _ _ _ _ H) as Hagain.
  unfold IRLS.ComputeResiduals in H; inv_bind H as residual Hres.
  injection H as <-; cbn [IRLS.tangent_space_residual_ IRLS.with_residual].
  change 0%Z with (Z.of_nat 0) in Hres.
  apply ComputeResiduals_from_spec in Hres as (Hlen & Hrange & Hedges & Hold).
  split; [reflexivity|].
  split; [exact Hlen|].
  split; [exact Hrange|].
  split; [exact Hedges|].
  split; [intros i Hi; apply Hold; right; simpl; lia | exact Hagain].
Qed.

Lemma ComputeResiduals_from_outcome (rr : view_pairs_t) (grot : image_map Vector3d) :
  forall (k0 : nat) (residual : VectorXd),
    match IRLS.ComputeResiduals_from MultiplyRotations rr grot (Z.of_nat k0) residual with
    | Ret _ =>
        forallb (edge_has_rotations grot) rr && residual_holds residual k0 rr = true
    | CheckFailed =>
        forallb (edge_has_rotations grot) rr && residual_holds residual k0 rr = false
    | NullDereference => False
    end.
Proof.
  induction rr as [|[view_pair geometry] rest IH]; intros k0 residual;
    [reflexivity|].
  cbn [IRLS.ComputeResiduals_from forallb].
  unfold edge_has_rotations at 1 2 3, FindOrDie; cbn [fst snd].
  destruct (find grot (fst view_pair)) as [rotation1|]; cbn [bind]; [|reflexivity].
  destruct (find grot (snd view_pair)) as [rotation2|]; cbn [bind]; [|reflexivity].
  cbn [andb].
  unfold IRLS.segment3_set.
  destruct (IRLS.in_range3 residual (3 * Z.of_nat k0)) eqn:Er.
  - apply in_range3_spec in Er.
    destruct (MultiplyRotations _ _) as [[a b] c]; cbn [bind].
    replace (Z.of_nat k0 + 1)%Z with (Z.of_nat (S k0)) by lia.
    specialize (IH (S k0)
                   (set_coeff (set_coeff (set_coeff residual (Z.to_nat (3 * Z.of_nat k0)) a)
                                         (Z.to_nat (3 * Z.of_nat k0) + 1) b)
                              (Z.to_nat (3 * Z.of_nat k0) + 2) c)).
    assert (Hh : residual_holds residual k0 ((view_pair, geometry) :: rest)
                 = residual_holds
                     (set_coeff (set_coeff (set_coeff residual
                                              (Z.to_nat (3 * Z.of_nat k0)) a)
                                           (Z.to_nat (3 * Z.of_nat k0) + 1) b)
                                (Z.to_nat (3 * Z.of_nat k0) + 2) c)
                     (S k0) rest).
    { unfold residual_holds; rewrite !set_coeff_length.
      destruct rest as [|e rest'].
      - cbn [length]; apply Nat.leb_le; lia.
      - cbn [length]; f_equal; lia. }
    rewrite Hh; exact IH.
  - cbn [bind].
    apply andb_false_iff; right.
    unfold residual_holds; cbn [length]; apply Nat.leb_gt.
    destruct (IRLS.in_range3 residual (3 * Z.of_nat k0)) eqn:Er'; [discriminate|].
    unfold IRLS.in_range3 in Er'.
    apply andb_false_iff in Er' as [Hneg|Hlen];
      [apply Z.leb_gt in Hneg | apply Z.leb_gt in Hlen]; lia.
Qed.

(** X10.  [ComputeResiduals] comes back exactly when every edge has a rotation
    for each of its two views and the residual has three entries for each
    edge; otherwise the process dies (in [FindOrDie], or in the range
    assertion of the segment). *)
Theorem ComputeResiduals_returns_iff (self : IRLS.IRLSRotationLocalRefiner)
        (rr : view_pairs_t) (grot : image_map Vector3d) :
  let ok := forallb (edge_has_rotations grot) rr
            && residual_holds (IRLS.tangent_space_residual_ self) 0 rr in
  ((exists self', IRLS.ComputeResiduals MultiplyRotations self rr grot = Ret self')
   <-> ok = true) /\
  (IRLS.ComputeResiduals MultiplyRotations self rr grot = CheckFailed <-> ok = false).
Proof.
  cbv zeta; unfold IRLS.ComputeResiduals.
  pose proof (ComputeResiduals_from_outcome rr grot 0
                (IRLS.tangent_space_residual_ self)) as H.
  change (Z.of_nat 0) with 0%Z in H.
  destruct (IRLS.ComputeResiduals_from _ rr grot 0 _) as [residual| |];
    [| |destruct H]; rewrite H; cbn [bind]; split; split;
    try discriminate; try reflexivity; eauto.
  intros [self' Hs]; discriminate.
Qed.

End ResidualFacts.

Lemma ComputeResiduals_spec_witness :
  exists self' : IRLS.IRLSRotationLocalRefiner,
    IRLS.ComputeResiduals Fixture.add_rotations Fixture.two_view_refiner
      Fixture.two_view_pairs Fixture.two_view_rotations = Ret self' /\
    length (IRLS.tangent_space_residual_ self') = 3%nat /\
    IRLS.ComputeResiduals Fixture.add_rotations self'
      Fixture.two_view_pairs Fixture.two_view_rotations = Ret self'.
Proof.
  eexists; split; [reflexivity|].
  destruct (ComputeResiduals_spec Fixture.add_rotations Fixture.two_view_refiner _
              Fixture.two_view_pairs Fixture.two_view_rotations eq_refl)
    as (_ & Hlen & _ & _ & _ & Hagain).
  split; [exact Hlen | exact Hagain].
Defined.

Lemma ComputeResiduals_returns_iff_witness :
  let self := IRLS.with_residual Fixture.two_view_refiner [0; 0] in
  (exists self', IRLS.ComputeResiduals Fixture.add_rotations Fixture.two_view_refiner
                   Fixture.two_view_pairs Fixture.two_view_rotations = Ret self') /\
  IRLS.ComputeResiduals Fixture.add_rotations self Fixture.two_view_pairs
    Fixture.two_view_rotations = CheckFailed.
Proof.
  intros self; split.
  - apply (proj1 (ComputeResiduals_returns_iff Fixture.add_rotations
                    Fixture.two_view_refiner Fixture.two_view_pairs
                    Fixture.two_view_rotations)); reflexivity.
  - apply (proj2 (ComputeResiduals_returns_iff Fixture.add_rotations self
                    Fixture.two_view_pairs Fixture.two_view_rotations)); reflexivity.
Defined.

(* ================================================================== *)
(** * [SolveIRLS] as a whole *)
(* ================================================================== *)

Lemma UpdateGlobalRotations_keys
      (MultiplyRotations : Vector3d -> Vector3d -> Vector3d)
      (self : IRLS.IRLSRotationLocalRefiner)
      (rotations rotations' : image_map Vector3d) :
  IRLS.UpdateGlobalRotations MultiplyRotations self rotations = Ret rotations' ->
  map fst rotations' = map fst rotations.
Proof.
  revert rotations'; induction rotations as [|[id rot] rest IH]; intros rotations' H.
  - injection H as <-; reflexivity.
  - rewrite UpdateGlobalRotations_cons in H.
    inv_bind H as index Hindex. inv_bind H as rot' Hrot. inv_bind H as rest' Hrest.
    injection H as <-; simpl; f_equal; auto.
Qed.

Lemma compute_weights_fresh (sigma : R) (residual : VectorXd) (n : nat) :
  forall (k0 : nat) (w1 w2 : VectorXd),
    length w1 = (3 * (k0 + n))%nat ->
    length w2 = (3 * (k0 + n))%nat ->
    (forall i, (i < 3 * k0)%nat -> coeff w1 i = coeff w2 i) ->
    IRLS.compute_weights sigma residual n (Z.of_nat k0) w1
    = IRLS.compute_weights sigma residual n (Z.of_nat k0) w2.
Proof.
  induction n as [|n IH]; intros k0 w1 w2 H1 H2 Hagree;
    cbn [IRLS.compute_weights].
  - f_equal; apply coeff_ext; [lia|].
    intros i Hi; apply Hagree; lia.
  - destruct (IRLS.edge_weight sigma residual (Z.of_nat k0)) as [w| |];
      cbn [bind]; try reflexivity.
    replace (Z.of_nat k0 + 1)%Z with (Z.of_nat (S k0)) by lia.
    destruct (IRLS.segment3_set w1 (3 * Z.of_nat k0) (w, w, w)) as [w1'| |] eqn:E1;
      destruct (IRLS.segment3_set w2 (3 * Z.of_nat k0) (w, w, w)) as [w2'| |] eqn:E2;
      cbn [bind];
      try (unfold IRLS.segment3_set in E1, E2;
           destruct (IRLS.in_range3 w1 _) eqn:R1 in E1;
           destruct (IRLS.in_range3 w2 _) eqn:R2 in E2;
           try discriminate;
           unfold IRLS.in_range3 in R1, R2; rewrite H1 in R1; rewrite H2 in R2;
           congruence).
    apply segment3_set_spec in E1, E2; cbv zeta in E1, E2.
    replace (Z.to_nat (3 * Z.of_nat k0)) with (3 * k0)%nat in E1, E2 by lia.
    destruct E1 as (L1 & _ & A1 & B1 & C1 & O1).
    destruct E2 as (L2 & _ & A2 & B2 & C2 & O2).
    apply IH; [lia | lia |].
    intros i Hi.
    destruct (Nat.eq_dec i (3 * k0)) as [->|N0]; [congruence|].
    destruct (Nat.eq_dec i (3 * k0 + 1)) as [->|N1]; [congruence|].
    destruct (Nat.eq_dec i (3 * k0 + 2)) as [->|N2]; [congruence|].
    rewrite O1, O2 by lia; apply Hagree; lia.
Qed.

Section Refinement.

Variable chol : Cholesky.SparseCholeskyLLt.
Variable MultiplyRotations : Vector3d -> Vector3d -> Vector3d.

(** A property of the state that every pass of the loop keeps holds when
    the loop is left. *)
Lemma irls_loop_invariant (P : IRLS.loop_state chol -> Prop) (rr : view_pairs_t) :
  (forall st r, P st -> IRLS.body chol MultiplyRotations rr st = Ret r ->
                P (IRLS.state_of chol r)) ->
  forall (n : nat) (st st' : IRLS.loop_state chol) (b : bool),
    P st -> IRLS.loop chol MultiplyRotations rr n st = Ret (b, st') -> P st'.
Proof.
  intros Hbody; induction n as [|n IH]; intros st st' b HP H.
  - injection H as <- <-; exact HP.
  - rewrite irls_loop_S in H; inv_bind H as r Hr.
    pose proof (Hbody _ _ HP Hr) as HP'.
    destruct r as [s1|s1|s1]; simpl in HP'.
    1,2: injection H as <- <-; exact HP'.
    eapply IH; eauto.
Qed.

Lemma body_keeps (rr : view_pairs_t) (st : IRLS.loop_state chol)
      (r : IRLS.body_result chol) :
  IRLS.body chol MultiplyRotations rr st = Ret r ->
  let st' := IRLS.state_of chol r in
  map fst (IRLS.rotations_ chol st') = map fst (IRLS.rotations_ chol st) /\
  IRLS.options_ (IRLS.self_ chol st') = IRLS.options_ (IRLS.self_ chol st) /\
  IRLS.sparse_matrix_ (IRLS.self_ chol st')
  = IRLS.sparse_matrix_ (IRLS.self_ chol st).
Proof.
  intros H; destruct (body_cases chol MultiplyRotations rr st r H)
    as (weights & _ & _ & Hc); cbv zeta in Hc |- *.
  destruct Hc as [[_ ->]|[(_ & _ & ->)|(_ & _ & g & s' & Hg & Hs & Hr)]];
    simpl; auto.
  apply ComputeResiduals_fields in Hs as (Hopt & _ & Hmat & _).
  apply UpdateGlobalRotations_keys in Hg.
  destruct Hr as [[_ ->]|[_ ->]]; simpl; auto.
Qed.

Lemma body_residual_current (rr : view_pairs_t) (st : IRLS.loop_state chol)
      (r : IRLS.body_result chol) :
  IRLS.ComputeResiduals MultiplyRotations (IRLS.self_ chol st) rr
    (IRLS.rotations_ chol st) = Ret (IRLS.self_ chol st) ->
  IRLS.body chol MultiplyRotations rr st = Ret r ->
  let st' := IRLS.state_of chol r in
  IRLS.ComputeResiduals MultiplyRotations (IRLS.self_ chol st') rr
    (IRLS.rotations_ chol st') = Ret (IRLS.self_ chol st').
Proof.
  intros HP H; destruct (body_cases chol MultiplyRotations rr st r H)
    as (weights & _ & _ & Hc); cbv zeta in Hc |- *.
  destruct Hc as [[_ ->]|[(_ & _ & ->)|(_ & _ & g & s' & Hg & Hs & Hr)]];
    simpl; auto.
  - apply ComputeResiduals_step; exact HP.
  - apply ComputeResiduals_again in Hs.
    destruct Hr as [[_ ->]|[_ ->]]; simpl; exact Hs.
Qed.

Lemma body_fresh_weights (rr : view_pairs_t) (st : IRLS.loop_state chol)
      (weights : VectorXd) :
  length (IRLS.weights_ chol st) = (length rr * 3)%nat ->
  length weights = (length rr * 3)%nat ->
  IRLS.body chol MultiplyRotations rr st
  = IRLS.body chol MultiplyRotations rr
      {| IRLS.self_ := IRLS.self_ chol st;
         IRLS.rotations_ := IRLS.rotations_ chol st;
         IRLS.weights_ := weights;
         IRLS.linear_solver := IRLS.linear_solver chol st |}.
Proof.
  intros H1 H2; unfold IRLS.body; cbn [IRLS.self_ IRLS.rotations_ IRLS.weights_
                                       IRLS.linear_solver].
  change 0%Z with (Z.of_nat 0).
  rewrite (compute_weights_fresh _ _ (length rr) 0 (IRLS.weights_ chol st) weights);
    [reflexivity | lia | lia | intros i Hi; lia].
Qed.

End Refinement.

Section WholeCall.

Variable chol : Cholesky.SparseCholeskyLLt.
Variable MultiplyRotations : Vector3d -> Vector3d -> Vector3d.
Variable ViewIdToAscentIndex : image_map Vector3d -> image_map Z.
Variable SetupLinearSystem : view_pairs_t -> nat -> image_map Z -> Matrix.
Variable uninitialized : nat -> VectorXd.

Lemma prepare_Ret (self self1 : IRLS.IRLSRotationLocalRefiner)
      (rr : view_pairs_t) (grot : image_map Vector3d) :
  IRLS.prepare ViewIdToAscentIndex SetupLinearSystem self rr grot = Ret self1 ->
  grot <> [] /\ rr <> [] /\
  IRLS.options_ self1 = IRLS.options_ self /\
  IRLS.tangent_space_step_ self1 = IRLS.tangent_space_step_ self /\
  IRLS.tangent_space_residual_ self1 = IRLS.tangent_space_residual_ self /\
  (IRLS.view_id_to_index_ self <> [] ->
   IRLS.view_id_to_index_ self1 = IRLS.view_id_to_index_ self) /\
  (rows (IRLS.sparse_matrix_ self) <> 0%nat ->
   IRLS.sparse_matrix_ self1 = IRLS.sparse_matrix_ self).
Proof.
  unfold IRLS.prepare; intros H.
  destruct grot as [|p grot']; [discriminate|].
  destruct rr as [|e rr']; [discriminate|].
  cbn [length Nat.ltb Nat.leb CHECK bind] in H.
  injection H as <-.
  split; [discriminate|]. split; [discriminate|].
  destruct (IRLS.view_id_to_index_ self) as [|i idx] eqn:Ei;
    cbn [IRLS.SetViewIdToIndex IRLS.sparse_matrix_];
    destruct (rows (IRLS.sparse_matrix_ self) =? 0)%nat eqn:Em;
    cbn; rewrite ?Ei; repeat split; auto; try congruence;
    apply Nat.eqb_eq in Em; congruence.
Qed.

(** X11.  [SolveIRLS], when it comes back, whatever it returns: the rotation map
    has the views it had, in the same order; the options are the same; an
    index map and a matrix that were set before the call are the ones the
    refiner has afterwards. *)
Theorem SolveIRLS_keeps
        (self self' : IRLS.IRLSRotationLocalRefiner)
        (rr : view_pairs_t) (grot grot' : image_map Vector3d) (b : bool) :
  IRLS.SolveIRLS chol MultiplyRotations ViewIdToAscentIndex SetupLinearSystem
                 uninitialized self rr grot = Ret (b, grot', self') ->
  map fst grot' = map fst grot /\
  IRLS.options_ self' = IRLS.options_ self /\
  (IRLS.view_id_to_index_ self <> [] ->
   IRLS.view_id_to_index_ self' = IRLS.view_id_to_index_ self) /\
  (rows (IRLS.sparse_matrix_ self) <> 0%nat ->
   IRLS.sparse_matrix_ self' = IRLS.sparse_matrix_ self).
Proof.
  unfold IRLS.SolveIRLS; intros H; inv_bind H as self1 Hprep.
  apply prepare_Ret in Hprep as (_ & _ & Hopt & _ & _ & Hidx & Hmat).
  destruct (negb _) in H.
  - injection H as <- <- <-; auto.
  - inv_bind H as self2 Hres.
    apply ComputeResiduals_fields in Hres as (Hopt2 & Hidx2 & Hmat2 & _).
    inv_bind H as p Hloop; destruct p as [b' st'].
    injection H as <- <- <-.
    pose proof (loop_gauge chol MultiplyRotations rr _ _ _ _ Hloop) as [Hidx3 _].
    apply (irls_loop_invariant chol MultiplyRotations
             (fun st => map fst (IRLS.rotations_ chol st) = map fst grot /\
                        IRLS.options_ (IRLS.self_ chol st) = IRLS.options_ self2 /\
                        IRLS.sparse_matrix_ (IRLS.self_ chol st)
                        = IRLS.sparse_matrix_ self2)) in Hloop.
    + destruct Hloop as (Hk & Ho & Hm); cbn in Hidx3.
      split; [exact Hk|]. split; [congruence|].
      split; intros Hne; [rewrite Hidx3, Hidx2; auto | rewrite Hm, Hmat2; auto].
    + intros st r (Hk & Ho & Hm) Hr.
      apply body_keeps in Hr as (Hk' & Ho' & Hm'); cbv zeta in *.
      repeat split; congruence.
    + simpl; auto.
Qed.

(** X12.  Unless the pattern analysis failed, the residual that [SolveIRLS]
    leaves in the refiner is the residual of the rotations it hands back:
    for the edge visited in position [j], the rotation error of its two
    views. *)
Theorem SolveIRLS_residual_current
        (self self' : IRLS.IRLSRotationLocalRefiner)
        (rr : view_pairs_t) (grot grot' : image_map Vector3d) (b : bool) :
  IRLS.SolveIRLS chol MultiplyRotations ViewIdToAscentIndex SetupLinearSystem
                 uninitialized self rr grot = Ret (b, grot', self') ->
  b = true \/
  Cholesky.Info chol
    (Cholesky.AnalyzePattern chol (Cholesky.Create chol)
                             (IRLS.system_matrix self')) = Success ->
  forall j view_pair geometry,
    nth_error rr j = Some (view_pair, geometry) ->
    exists rotation1 rotation2 : Vector3d,
      find grot' (fst view_pair) = Some rotation1 /\
      find grot' (snd view_pair) = Some rotation2 /\
      segment3 (IRLS.tangent_space_residual_ self') (3 * j)
      = MultiplyRotations (neg3 rotation2)
          (MultiplyRotations (rotation_2 geometry) rotation1).
Proof.
  unfold IRLS.SolveIRLS; intros H Hok; inv_bind H as self1 Hprep.
  destruct (is_Success _) eqn:Ei in H; cbn [negb] in H.
  2:{ injection H as <- <- <-.
      destruct Hok as [Hb|Hinfo]; [discriminate|].
      rewrite Hinfo in Ei; discriminate. }
  inv_bind H as self2 Hres.
  inv_bind H as p Hloop; destruct p as [b' st'].
  injection H as <- <- <-.
  apply ComputeResiduals_again in Hres.
  apply (irls_loop_invariant chol MultiplyRotations
           (fun st => IRLS.ComputeResiduals MultiplyRotations (IRLS.self_ chol st) rr
                        (IRLS.rotations_ chol st) = Ret (IRLS.self_ chol st)))
    in Hloop.
  - unfold IRLS.ComputeResiduals in Hloop; inv_bind Hloop as residual Hfrom.
    injection Hloop as Hself.
    assert (Hr : residual = IRLS.tangent_space_residual_ (IRLS.self_ chol st'))
      by (rewrite <- Hself at 1; reflexivity).
    subst residual; change 0%Z with (Z.of_nat 0) in Hfrom.
    apply ComputeResiduals_from_spec in Hfrom as (_ & _ & Hedges & _).
    exact Hedges.
  - intros st r HP Hr; exact (body_residual_current chol MultiplyRotations rr st r HP Hr).
  - exact Hres.
Qed.

(** X13.  [SolveIRLS] never reads the weights before it has written them: two
    runs that differ only in the content of the freshly allocated weights
    array give the same result. *)
Theorem SolveIRLS_weights_written
        (other : nat -> VectorXd)
        (self : IRLS.IRLSRotationLocalRefiner)
        (rr : view_pairs_t) (grot : image_map Vector3d) :
  length (uninitialized (length rr * 3)%nat) = (length rr * 3)%nat ->
  length (other (length rr * 3)%nat) = (length rr * 3)%nat ->
  IRLS.SolveIRLS chol MultiplyRotations ViewIdToAscentIndex SetupLinearSystem
                 uninitialized self rr grot
  = IRLS.SolveIRLS chol MultiplyRotations ViewIdToAscentIndex SetupLinearSystem
                   other self rr grot.
Proof.
  intros H1 H2; unfold IRLS.SolveIRLS.
  destruct (IRLS.prepare _ _ self rr grot) as [self1| |]; cbn [bind]; try reflexivity.
  destruct (negb _); [reflexivity|].
  destruct (IRLS.ComputeResiduals _ self1 rr grot) as [self2| |]; cbn [bind];
    try reflexivity.
  destruct (Z.to_nat _) as [|n]; [reflexivity|].
  rewrite !irls_loop_S.
  rewrite (body_fresh_weights chol MultiplyRotations rr _
             (other (length rr * 3)%nat)) by assumption.
  reflexivity.
Qed.

(** X14.  With an index map and a system matrix set beforehand, [SolveIRLS]
    calls neither [ViewIdToAscentIndex] nor [SetupLinearSystem]: its
    result is the same whatever these two functions are. *)
Theorem SolveIRLS_preset
        (OtherIndex : image_map Vector3d -> image_map Z)
        (OtherSystem : view_pairs_t -> nat -> image_map Z -> Matrix)
        (self : IRLS.IRLSRotationLocalRefiner)
        (rr : view_pairs_t) (grot : image_map Vector3d) :
  IRLS.view_id_to_index_ self <> [] ->
  rows (IRLS.sparse_matrix_ self) <> 0%nat ->
  IRLS.SolveIRLS chol MultiplyRotations ViewIdToAscentIndex SetupLinearSystem
                 uninitialized self rr grot
  = IRLS.SolveIRLS chol MultiplyRotations OtherIndex OtherSystem
                   uninitialized self rr grot.
Proof.
  intros Hidx Hmat; unfold IRLS.SolveIRLS.
  assert (Hprep : forall V S,
             IRLS.prepare V S self rr grot
             = (_ <- CHECK (0 <? length grot)%nat ;;
                _ <- CHECK (0 <? length rr)%nat ;; Ret self)).
  { intros V S; unfold IRLS.prepare.
    destruct (IRLS.view_id_to_index_ self); [contradiction|].
    apply Nat.eqb_neq in Hmat; rewrite Hmat; reflexivity. }
  rewrite !Hprep; reflexivity.
Qed.

(** X15.  [SolveIRLS] dies on an empty rotation map and on an empty set of
    relative rotations; with no iteration allowed it hands the rotations
    back as they came, and returns true or false as the pattern analysis
    succeeded or failed. *)
Theorem SolveIRLS_edge_cases
        (self : IRLS.IRLSRotationLocalRefiner)
        (rr : view_pairs_t) (grot : image_map Vector3d) :
  (grot = [] \/ rr = [] ->
   IRLS.SolveIRLS chol MultiplyRotations ViewIdToAscentIndex SetupLinearSystem
                  uninitialized self rr grot = CheckFailed) /\
  ((IRLS.max_num_irls_iterations (IRLS.options_ self) <= 0)%Z ->
   forall b grot' self',
     IRLS.SolveIRLS chol MultiplyRotations ViewIdToAscentIndex SetupLinearSystem
                    uninitialized self rr grot = Ret (b, grot', self') ->
     grot' = grot /\
     IRLS.tangent_space_step_ self' = IRLS.tangent_space_step_ self /\
     b = is_Success
           (Cholesky.Info chol
              (Cholesky.AnalyzePattern chol (Cholesky.Create chol)
                                       (IRLS.system_matrix self')))).
Proof.
  split.
  - intros Hempty; unfold IRLS.SolveIRLS, IRLS.prepare.
    destruct grot as [|p grot']; [reflexivity|].
    destruct rr as [|e rr']; [reflexivity|].
    destruct Hempty; discriminate.
  - intros Hmax b grot' self'; unfold IRLS.SolveIRLS; intros H.
    inv_bind H as self1 Hprep.
    apply prepare_Ret in Hprep as (_ & _ & Hopt & Hstep & _).
    destruct (is_Success _) eqn:Ei in H; cbn [negb] in H.
    2:{ injection H as <- <- <-; rewrite Ei; auto. }
    inv_bind H as self2 Hres.
    apply ComputeResiduals_fields in Hres as (Hopt2 & _ & Hmat2 & Hstep2).
    replace (Z.to_nat _) with 0%nat in H by (rewrite Hopt2, Hopt; lia).
    cbn in H; injection H as <- <- <-.
    unfold IRLS.system_matrix; rewrite Hmat2.
    unfold IRLS.system_matrix in Ei; rewrite Ei.
    repeat split; congruence.
Qed.

End WholeCall.

Lemma SolveIRLS_keeps_witness :
  exists (b : bool) (rotations' : image_map Vector3d)
         (self' : IRLS.IRLSRotationLocalRefiner),
    IRLS.SolveIRLS Fixture.scalar_chol Fixture.add_rotations
      Fixture.index_by_position Fixture.two_view_system Fixture.zeros
      Fixture.two_view_refiner Fixture.two_view_pairs Fixture.two_view_rotations
    = Ret (b, rotations', self') /\
    map fst rotations' = [0%N; 1%N] /\
    IRLS.options_ self' = Fixture.one_iteration.
Proof.
  destruct two_view_SolveIRLS as (b & rotations' & self' & H & _).
  exists b, rotations', self'; split; [exact H|].
  destruct (SolveIRLS_keeps _ _ _ _ _ _ _ _ _ _ _ H) as (Hk & Ho & _).
  split; [exact Hk | exact Ho].
Defined.

Lemma SolveIRLS_residual_current_witness :
  exists (b : bool) (rotations' : image_map Vector3d)
         (self' : IRLS.IRLSRotationLocalRefiner),
    IRLS.SolveIRLS Fixture.scalar_chol Fixture.add_rotations
      Fixture.index_by_position Fixture.two_view_system Fixture.zeros
      Fixture.two_view_refiner Fixture.two_view_pairs Fixture.two_view_rotations
    = Ret (b, rotations', self') /\
    exists rotation1 rotation2 : Vector3d,
      find rotations' 0%N = Some rotation1 /\
      find rotations' 1%N = Some rotation2 /\
      segment3 (IRLS.tangent_space_residual_ self') 0
      = Fixture.add_rotations (neg3 rotation2)
          (Fixture.add_rotations (1, 0, 0) rotation1).
Proof.
  destruct two_view_SolveIRLS as (b & rotations' & self' & H & _).
  exists b, rotations', self'; split; [exact H|].
  exact (SolveIRLS_residual_current _ _ _ _ _ _ _ _ _ _ _ H
           (or_intror eq_refl) 0%nat _ _ eq_refl).
Defined.

Lemma SolveIRLS_weights_written_witness :
  IRLS.SolveIRLS Fixture.scalar_chol Fixture.add_rotations
    Fixture.index_by_position Fixture.two_view_system Fixture.zeros
    Fixture.two_view_refiner Fixture.two_view_pairs Fixture.two_view_rotations
  = IRLS.SolveIRLS Fixture.scalar_chol Fixture.add_rotations
      Fixture.index_by_position Fixture.two_view_system (fun n => repeat 7 n)
      Fixture.two_view_refiner Fixture.two_view_pairs Fixture.two_view_rotations.
Proof.
  apply (SolveIRLS_weights_written Fixture.scalar_chol Fixture.add_rotations
           Fixture.index_by_position Fixture.two_view_system Fixture.zeros
           (fun n => repeat 7 n) Fixture.two_view_refiner Fixture.two_view_pairs
           Fixture.two_view_rotations); reflexivity.
Defined.

Lemma SolveIRLS_preset_witness :
  IRLS.SolveIRLS Fixture.scalar_chol Fixture.add_rotations
    Fixture.index_by_position Fixture.two_view_system Fixture.zeros
    Fixture.two_view_refiner Fixture.two_view_pairs Fixture.two_view_rotations
  = IRLS.SolveIRLS Fixture.scalar_chol Fixture.add_rotations
      (fun _ => []) (fun _ _ _ => mkMatrix 0 0 (fun _ _ => 0)) Fixture.zeros
      Fixture.two_view_refiner Fixture.two_view_pairs Fixture.two_view_rotations.
Proof.
  apply (SolveIRLS_preset Fixture.scalar_chol Fixture.add_rotations
           Fixture.index_by_position Fixture.two_view_system Fixture.zeros
           (fun _ => []) (fun _ _ _ => mkMatrix 0 0 (fun _ _ => 0))
           Fixture.two_view_refiner Fixture.two_view_pairs
           Fixture.two_view_rotations); discriminate.
Defined.

Lemma SolveIRLS_edge_cases_witness :
  IRLS.SolveIRLS Fixture.scalar_chol Fixture.add_rotations
    Fixture.index_by_position Fixture.two_view_system Fixture.zeros
    Fixture.two_view_refiner Fixture.two_view_pairs [] = CheckFailed.
Proof.
  apply (proj1 (SolveIRLS_edge_cases Fixture.scalar_chol Fixture.add_rotations
                  Fixture.index_by_position Fixture.two_view_system Fixture.zeros
                  Fixture.two_view_refiner Fixture.two_view_pairs [])).
  left; reflexivity.
Defined.

(* ================================================================== *)
(** * The average step size *)
(* ================================================================== *)

Lemma norm3_nonneg (v : Vector3d) : 0 <= norm3 v.
Proof. apply sqrt_pos. Qed.

Lemma norm3_zero (v : Vector3d) : norm3 v = 0 <-> v = Zero3.
Proof.
  unfold norm3; split.
  - intros H; apply sqrt_eq_0 in H; [|apply squaredNorm3_nonneg].
    destruct v as [[a b] c]; simpl in H.
    assert (a = 0) by nra. assert (b = 0) by nra. assert (c = 0) by nra.
    subst; reflexivity.
  - intros ->; simpl.
    replace (0 * 0 + 0 * 0 + 0 * 0) with 0 by ring; apply sqrt_0.
Qed.

Lemma sum_nonneg_zero {A : Type} (f : A -> R) (l : list A) :
  (forall a, 0 <= f a) ->
  0 <= sum (map f l) /\
  (sum (map f l) = 0 <-> forall a, In a l -> f a = 0).
Proof.
  intros Hf; induction l as [|t l [IH0 IH]]; simpl.
  - split; [lra | tauto].
  - pose proof (Hf t); split; [lra|]; split.
    + intros Hs a [<-|Hin]; [lra | apply IH; [lra | exact Hin]].
    + intros Hall; rewrite (Hall t) by auto.
      rewrite (proj2 IH) by auto; lra.
Qed.

(** X16.  For a step with at least one 3-block the average step size is not
    negative, and it is zero exactly when every 3-block of the step is
    zero. *)
Theorem ComputeAverageStepSize_nonneg (self : IRLS.IRLSRotationLocalRefiner) :
  (3 <= length (IRLS.tangent_space_step_ self))%nat ->
  0 <= IRLS.ComputeAverageStepSize self /\
  (IRLS.ComputeAverageStepSize self = 0 <->
   forall k, (k < length (IRLS.tangent_space_step_ self) / 3)%nat ->
             segment3 (IRLS.tangent_space_step_ self) (3 * k) = Zero3).
Proof.
  intros Hlen; rewrite ComputeAverageStepSize_spec; cbv zeta.
  set (step := IRLS.tangent_space_step_ self) in *.
  set (n := (length step / 3)%nat).
  assert (Hn : (1 <= n)%nat) by (unfold n; apply Nat.div_le_lower_bound; lia).
  assert (HR : 0 < INR n) by (apply lt_0_INR; lia).
  assert (Hi : 0 < 1 / INR n) by (apply Rdiv_lt_0_compat; lra).
  destruct (sum_nonneg_zero (fun k => norm3 (segment3 step (3 * k))) (seq 0 n)
              (fun k => norm3_nonneg _)) as [Hs0 Hs].
  split; [apply Rmult_le_pos; lra|].
  split.
  - intros Hz k Hk.
    apply Rmult_integral in Hz as [Hz|Hz]; [lra|].
    apply norm3_zero; apply (proj1 Hs Hz); apply in_seq; lia.
  - intros Hall; rewrite (proj2 Hs); [ring|].
    intros k Hk; apply in_seq in Hk; apply norm3_zero, Hall; lia.
Qed.

Lemma ComputeAverageStepSize_nonneg_witness :
  let self := IRLS.SetInitTangentSpaceStep Fixture.two_view_refiner [0; 0; 0; 5] in
  (3 <= length (IRLS.tangent_space_step_ self))%nat /\
  IRLS.ComputeAverageStepSize self = 0.
Proof.
  intros self.
  assert (H : (3 <= length (IRLS.tangent_space_step_ self))%nat) by (simpl; lia).
  split; [exact H|].
  apply (proj2 (ComputeAverageStepSize_nonneg self H)).
  intros k Hk; change (length (IRLS.tangent_space_step_ self) / 3)%nat with 1%nat in Hk.
  assert (k = 0%nat) as -> by lia; reflexivity.
Defined.

(** X17.  The entries of the step after its last whole 3-block (there are
    [size mod 3] of them) do not enter the average step size. *)
Theorem ComputeAverageStepSize_whole_blocks
        (self : IRLS.IRLSRotationLocalRefiner) (step rest : VectorXd) (n : nat) :
  length step = (3 * n)%nat ->
  (length rest < 3)%nat ->
  IRLS.ComputeAverageStepSize (IRLS.SetInitTangentSpaceStep self (step ++ rest))
  = IRLS.ComputeAverageStepSize (IRLS.SetInitTangentSpaceStep self step).
Proof.
  intros Hlen Hrest; rewrite !ComputeAverageStepSize_spec; cbv zeta.
  cbn [IRLS.SetInitTangentSpaceStep IRLS.with_step IRLS.tangent_space_step_].
  rewrite length_app, Hlen.
  replace ((3 * n + length rest) / 3)%nat with n.
  2:{ apply Nat.div_unique with (r := length rest); lia. }
  replace (3 * n / 3)%nat with n.
  2:{ apply Nat.div_unique with (r := 0%nat); lia. }
  f_equal; f_equal; apply map_ext_in; intros k Hk; apply in_seq in Hk.
  unfold segment3, coeff; rewrite !app_nth1 by lia; reflexivity.
Qed.

Lemma ComputeAverageStepSize_whole_blocks_witness :
  IRLS.ComputeAverageStepSize
    (IRLS.SetInitTangentSpaceStep Fixture.two_view_refiner ([1; 2; 2] ++ [9; 9]))
  = IRLS.ComputeAverageStepSize
      (IRLS.SetInitTangentSpaceStep Fixture.two_view_refiner [1; 2; 2]).
Proof.
  apply (ComputeAverageStepSize_whole_blocks Fixture.two_view_refiner
           [1; 2; 2] [9; 9] 1); simpl; lia.
Defined.

(* ================================================================== *)
(** * More on the Lagrange-dual estimator *)
(* ================================================================== *)

Lemma sum_app (l1 l2 : list R) : sum (l1 ++ l2) = sum l1 + sum l2.
Proof. induction l1 as [|t l1 IH]; simpl; [lra | rewrite IH; lra]. Qed.

Lemma triplet_at_swap (a b : nat) (x y : Z) (v : R) :
  triplet_at a b (x, y, v) = triplet_at b a (y, x, v).
Proof. unfold triplet_at; rewrite andb_comm; reflexivity. Qed.

(** The triplets of one edge are those of a symmetric matrix. *)
Lemma edge_triplets_symmetric (dim i j : Z) (R_ij : Matrix) (a b : nat) :
  sum (map (triplet_at a b) (LagrangeDual.edge_triplets dim i j R_ij))
  = sum (map (triplet_at b a) (LagrangeDual.edge_triplets dim i j R_ij)).
Proof.
  unfold LagrangeDual.edge_triplets.
  cbn [flat_map app map sum fold_right].
  rewrite !(triplet_at_swap a b).
  ring.
Qed.

Lemma neighbours_push_back (adj : LagrangeDual.adjacency) (i j k : Z) :
  neighbours (LagrangeDual.push_back adj i j) k
  = if (k =? i)%Z then neighbours adj k ++ [j] else neighbours adj k.
Proof.
  induction adj as [|[k' l] rest IH]; cbn [LagrangeDual.push_back neighbours].
  - rewrite Z.eqb_sym; reflexivity.
  - destruct (Z.eqb_spec k' i) as [->|Hne]; cbn [neighbours].
    + rewrite (Z.eqb_sym i k); destruct (k =? i)%Z; reflexivity.
    + rewrite IH; destruct (Z.eqb_spec k' k) as [->|Hk]; [|reflexivity].
      destruct (Z.eqb_spec k i); [congruence | reflexivity].
Qed.

Section RelativeGraph.

Variable Summary : Type.
Variable AngleAxisToRotationMatrix : Vector3d -> Matrix.

Lemma fill_edges_symmetric (dim : Z) (view_pairs : view_pairs_t) :
  forall (index : image_map Z) (triplets : list Triplet)
         (adj_edges : LagrangeDual.adjacency),
    (forall a b, sum (map (triplet_at a b) triplets)
                 = sum (map (triplet_at b a) triplets)) ->
    (forall i j, In j (neighbours adj_edges i) <-> In i (neighbours adj_edges j)) ->
    let '(_, triplets', adj_edges') :=
      LagrangeDual.fill_edges AngleAxisToRotationMatrix dim view_pairs index
                              triplets adj_edges in
    (forall a b, sum (map (triplet_at a b) triplets')
                 = sum (map (triplet_at b a) triplets')) /\
    (forall i j, In j (neighbours adj_edges' i) <-> In i (neighbours adj_edges' j)).
Proof.
  induction view_pairs as [|[key geometry] rest IH]; intros index triplets adj Ht Ha;
    cbn [LagrangeDual.fill_edges].
  - split; assumption.
  - destruct (subscript index (fst key)) as [i index1].
    destruct (subscript index1 (snd key)) as [j index2].
    apply IH.
    + intros a b; rewrite !map_app, !sum_app, Ht, edge_triplets_symmetric; reflexivity.
    + intros a b; rewrite !neighbours_push_back.
      pose proof (Ha a b) as Hab.
      destruct (Z.eqb_spec a j), (Z.eqb_spec a i), (Z.eqb_spec b j), (Z.eqb_spec b i);
        rewrite ?in_app_iff; cbn [In]; intuition congruence.
Qed.

(** X18.  [FillinRelativeGraph] on empty adjacency lists, when it comes
    back: the matrix [R_] it builds is symmetric and has the dimensions
    [R_] had; the adjacency lists are symmetric ([j] is listed under [i]
    exactly when [i] is listed under [j]); options, summary, [Y_] and the
    error bound are left alone. *)
Theorem FillinRelativeGraph_symmetric
        (self self' : LagrangeDual.LagrangeDualRotationEstimator Summary)
        (view_pairs : view_pairs_t) (adj_edges : LagrangeDual.adjacency) :
  LagrangeDual.FillinRelativeGraph Summary AngleAxisToRotationMatrix
                                   self view_pairs []
  = Ret (self', adj_edges) ->
  (forall a b, coef (LagrangeDual.R_ Summary self') a b
               = coef (LagrangeDual.R_ Summary self') b a) /\
  rows (LagrangeDual.R_ Summary self') = rows (LagrangeDual.R_ Summary self) /\
  cols (LagrangeDual.R_ Summary self') = cols (LagrangeDual.R_ Summary self) /\
  (forall i j, In j (neighbours adj_edges i) <-> In i (neighbours adj_edges j)) /\
  LagrangeDual.options_ Summary self' = LagrangeDual.options_ Summary self /\
  LagrangeDual.summary_ Summary self' = LagrangeDual.summary_ Summary self /\
  LagrangeDual.Y_ Summary self' = LagrangeDual.Y_ Summary self /\
  LagrangeDual.alpha_max_ Summary self' = LagrangeDual.alpha_max_ Summary self.
Proof.
  intros H; apply FillinRelativeGraph_Ret in H as (_ & -> & ->).
  pose proof (fill_edges_symmetric (LagrangeDual.dim_ Summary self) view_pairs
                (LagrangeDual.view_id_to_index_ Summary self) [] []
                (fun _ _ => eq_refl) (fun _ _ => conj (fun H => H) (fun H => H))) as H.
  destruct (LagrangeDual.fill_edges _ _ _ _ _ _) as [[index triplets] adj].
  destruct H as [Ht Ha]; cbn; repeat split; auto; apply Ha.
Qed.

End RelativeGraph.

(** In the star example [FillinRelativeGraph] comes back. *)
Lemma star_FillinRelativeGraph :
  let self :=
    LagrangeDual.SetViewIdToIndex nat
      (LagrangeDual.make nat 0%nat 5 3 (Fixture.options LagrangeDual.RBR_BCM))
      Fixture.five_index in
  exists (self' : LagrangeDual.LagrangeDualRotationEstimator nat)
         (adj_edges : LagrangeDual.adjacency),
    LagrangeDual.FillinRelativeGraph nat Fixture.identity_of_zero
                                     self Fixture.star_pairs []
    = Ret (self', adj_edges).
Proof.
  intros self; do 2 eexists.
  unfold LagrangeDual.FillinRelativeGraph; run_code; reflexivity.
Defined.

(** X18 in the star example. *)
Lemma FillinRelativeGraph_symmetric_witness :
  let self :=
    LagrangeDual.SetViewIdToIndex nat
      (LagrangeDual.make nat 0%nat 5 3 (Fixture.options LagrangeDual.RBR_BCM))
      Fixture.five_index in
  exists (self' : LagrangeDual.LagrangeDualRotationEstimator nat)
         (adj_edges : LagrangeDual.adjacency),
    LagrangeDual.FillinRelativeGraph nat Fixture.identity_of_zero
                                     self Fixture.star_pairs []
    = Ret (self', adj_edges) /\
    (forall a b, coef (LagrangeDual.R_ nat self') a b
                 = coef (LagrangeDual.R_ nat self') b a) /\
    rows (LagrangeDual.R_ nat self') = 15%nat.
Proof.
  intros self; destruct star_FillinRelativeGraph as (self' & adj_edges & H).
  exists self', adj_edges; split; [exact H|].
  destruct (FillinRelativeGraph_symmetric nat Fixture.identity_of_zero
              _ _ _ _ H) as (Hsym & Hrows & _).
  split; [exact Hsym | rewrite Hrows; reflexivity].
Defined.

Lemma assign_keys {V : Type} (m : image_map V) (k : image_t) (v : V) :
  In k (map fst m) -> map fst (assign m k v) = map fst m.
Proof.
  induction m as [|[k' v'] m IH]; intros Hin; [destruct Hin|].
  cbn [assign]; destruct (N.eqb_spec k' k) as [->|Hne]; [reflexivity|].
  destruct Hin as [E|Hin]; [contradiction|].
  cbn [map fst]; now rewrite IH.
Qed.

(** Two maps with the same keys in the same order, none of them twice,
    and the same value at every key, are the same map. *)
Lemma image_map_ext {V : Type} (m1 : image_map V) :
  forall m2 : image_map V,
    map fst m1 = map fst m2 ->
    NoDup (map fst m1) ->
    (forall k, In k (map fst m1) -> find m1 k = find m2 k) ->
    m1 = m2.
Proof.
  induction m1 as [|[k1 v1] m1 IH]; intros [|[k2 v2] m2] Hk Hnd Hf;
    try discriminate; [reflexivity|].
  cbn [map fst] in Hk, Hnd; injection Hk as <- Hk.
  inversion Hnd as [|? ? Hnotin Hnd']; subst.
  pose proof (Hf k1 (or_introl eq_refl)) as H1.
  cbn [find] in H1; rewrite N.eqb_refl in H1; injection H1 as <-.
  f_equal; apply IH; auto.
  intros k Hin; specialize (Hf k (or_intror Hin)); cbn [find] in Hf.
  destruct (N.eqb_spec k1 k) as [->|Hne]; [contradiction | exact Hf].
Qed.

(** [m[k]] on the index map never changes an entry; a key it adds has the
    value 0. *)
Lemma subscript_grows (m m' : image_map Z) (k : image_t) (i : Z) :
  subscript m k = (i, m') ->
  forall k' j, find m' k' = Some j ->
               find m k' = Some j \/ (find m k' = None /\ j = 0%Z).
Proof.
  unfold subscript; destruct (find m k) as [v|] eqn:E; intros H;
    injection H as <- <-; intros k' j Hj; [auto|].
  destruct (N.eq_dec k k') as [<-|Hne].
  - rewrite find_assign_same in Hj; injection Hj as <-; auto.
  - rewrite find_assign_other in Hj by exact Hne; auto.
Qed.

(** [m[k]] reads the same value before and after another [m[k']]. *)
Lemma subscript_stable (m m' : image_map Z) (k k' : image_t) (i : Z) :
  subscript m k = (i, m') ->
  fst (subscript m' k') = fst (subscript m k').
Proof.
  unfold subscript; destruct (find m k) as [v|] eqn:E; intros H;
    injection H as <- <-; [reflexivity|].
  destruct (N.eq_dec k k') as [<-|Hne].
  - rewrite find_assign_same, E; reflexivity.
  - rewrite find_assign_other by exact Hne.
    destruct (find m k'); reflexivity.
Qed.

Lemma retrieved_rotation_Ret (RotationMatrixToAngleAxis : Matrix -> Vector3d)
      (Y : Matrix) (i : Z) :
  (in_block33 Y 0 (3 * i) = true ->
   exists v, LagrangeDual.retrieved_rotation RotationMatrixToAngleAxis Y i = Ret v) /\
  (in_block33 Y 0 (3 * i) = false ->
   LagrangeDual.retrieved_rotation RotationMatrixToAngleAxis Y i = CheckFailed).
Proof.
  unfold LagrangeDual.retrieved_rotation, block33.
  destruct (in_block33 Y 0 (3 * i)); cbn [bind]; split; intros H;
    try discriminate; eauto.
Qed.

Section Retrieval.

Variable RotationMatrixToAngleAxis : Matrix -> Vector3d.

Lemma retrieve_loop_keys (Y : Matrix) (entries : image_map Vector3d) :
  forall (index index' : image_map Z) (g g' : image_map Vector3d),
    LagrangeDual.retrieve_loop RotationMatrixToAngleAxis Y entries index g
    = Ret (index', g') ->
    incl (map fst entries) (map fst g) ->
    map fst g' = map fst g.
Proof.
  induction entries as [|[id rot] rest IH]; intros index index' g g' H Hincl;
    cbn [LagrangeDual.retrieve_loop] in H.
  - injection H as <- <-; reflexivity.
  - destruct (subscript index id) as [i index1].
    inv_bind H as angle_axis Ha.
    assert (Hin : In id (map fst g)) by (apply Hincl; left; reflexivity).
    rewrite (IH _ _ _ _ H); [apply assign_keys; exact Hin|].
    rewrite assign_keys by exact Hin.
    intros k Hk; apply Hincl; right; exact Hk.
Qed.

(** The index map the loop of [RetrieveRotations] comes back with, or the
    way it dies, depends on the views of the rotation map only. *)
Lemma retrieve_loop_index (Y : Matrix) (entries1 : image_map Vector3d) :
  forall (entries2 : image_map Vector3d) (index : image_map Z)
         (g1 g2 : image_map Vector3d),
    map fst entries1 = map fst entries2 ->
    bind (LagrangeDual.retrieve_loop RotationMatrixToAngleAxis Y entries1 index g1)
         (fun r => Ret (fst r))
    = bind (LagrangeDual.retrieve_loop RotationMatrixToAngleAxis Y entries2 index g2)
           (fun r => Ret (fst r)).
Proof.
  induction entries1 as [|[id rot] rest IH]; intros [|[id2 rot2] rest2] index g1 g2 Hk;
    try discriminate; [reflexivity|].
  cbn [map fst] in Hk; injection Hk as <- Hk.
  cbn [LagrangeDual.retrieve_loop].
  destruct (subscript index id) as [i index1].
  destruct (LagrangeDual.retrieved_rotation RotationMatrixToAngleAxis Y i)
    as [angle_axis| |]; cbn [bind]; [|reflexivity ..].
  apply IH; exact Hk.
Qed.

Lemma retrieve_loop_grows (Y : Matrix) (entries : image_map Vector3d) :
  forall (index index' : image_map Z) (g g' : image_map Vector3d),
    LagrangeDual.retrieve_loop RotationMatrixToAngleAxis Y entries index g
    = Ret (index', g') ->
    forall k j, find index' k = Some j ->
                find index k = Some j \/ (find index k = None /\ j = 0%Z).
Proof.
  induction entries as [|[id rot] rest IH]; intros index index' g g' H k j Hj;
    cbn [LagrangeDual.retrieve_loop] in H.
  - injection H as <- <-; auto.
  - destruct (subscript index id) as [i index1] eqn:Es.
    inv_bind H as angle_axis Ha.
    destruct (IH _ _ _ _ H k j Hj) as [H1|[H1 ->]].
    + exact (subscript_grows _ _ _ _ Es k j H1).
    + right; split; [|reflexivity].
      destruct (find index k) as [v|] eqn:E; [|reflexivity].
      apply subscript_spec in Es as [_ Hkeep].
      rewrite (Hkeep _ _ E) in H1; discriminate.
Qed.

(** The loop of [RetrieveRotations] comes back when [Y] has the block of
    every view of the rotation map, at the index that [m[k]] reads. *)
Lemma retrieve_loop_total (Y : Matrix) (entries : image_map Vector3d) :
  forall (index : image_map Z) (g : image_map Vector3d),
    (forall id, In id (map fst entries) ->
                in_block33 Y 0 (3 * fst (subscript index id)) = true) ->
    exists (index' : image_map Z) (g' : image_map Vector3d),
      LagrangeDual.retrieve_loop RotationMatrixToAngleAxis Y entries index g
      = Ret (index', g').
Proof.
  induction entries as [|[id rot] rest IH]; intros index g Hin;
    cbn [LagrangeDual.retrieve_loop]; [eauto|].
  destruct (subscript index id) as [i index1] eqn:Es.
  pose proof (Hin id (or_introl eq_refl)) as Hi; rewrite Es in Hi; cbn [fst] in Hi.
  destruct (proj1 (retrieved_rotation_Ret RotationMatrixToAngleAxis Y i) Hi)
    as [v ->]; cbn [bind].
  apply IH; intros id' Hid'.
  rewrite (subscript_stable _ _ _ id' _ Es); apply Hin; right; exact Hid'.
Qed.

(** And only then. *)
Lemma retrieve_loop_blocks (Y : Matrix) (entries : image_map Vector3d) :
  forall (index index' : image_map Z) (g g' : image_map Vector3d),
    LagrangeDual.retrieve_loop RotationMatrixToAngleAxis Y entries index g
    = Ret (index', g') ->
    forall id, In id (map fst entries) ->
               in_block33 Y 0 (3 * fst (subscript index id)) = true.
Proof.
  induction entries as [|[id rot] rest IH]; intros index index' g g' H id' Hid';
    [destruct Hid'|].
  cbn [LagrangeDual.retrieve_loop] in H.
  destruct (subscript index id) as [i index1] eqn:Es.
  inv_bind H as angle_axis Ha.
  destruct (N.eq_dec id id') as [<-|Hne].
  - rewrite Es; cbn [fst].
    destruct (in_block33 Y 0 (3 * i)) eqn:Eb; [reflexivity|].
    rewrite (proj2 (retrieved_rotation_Ret RotationMatrixToAngleAxis Y i) Eb) in Ha.
    discriminate.
  - destruct Hid' as [E|Hid']; [cbn in E; contradiction|].
    rewrite <- (subscript_stable _ _ _ id' _ Es).
    exact (IH _ _ _ _ H id' Hid').
Qed.

(** X19.  The matrix that [RetrieveRotations] converts for the view of index
    [i] is the transposed block of [Y], or its negation, whichever has a
    determinant that is not negative; without such a block in [Y] the
    program dies. *)
Theorem retrieved_rotation_sign (Y : Matrix) (i : Z) :
  (forall B : Matrix,
      block33 Y 0 (3 * i) = Ret B ->
      let block := transpose B in
      exists M : Matrix,
        LagrangeDual.retrieved_rotation RotationMatrixToAngleAxis Y i
        = Ret (RotationMatrixToAngleAxis M) /\
        (M = block \/ M = mneg block) /\
        determinant3 M = Rabs (determinant3 block) /\
        0 <= determinant3 M) /\
  (block33 Y 0 (3 * i) = CheckFailed ->
   LagrangeDual.retrieved_rotation RotationMatrixToAngleAxis Y i = CheckFailed).
Proof.
  split; [|intros H; unfold LagrangeDual.retrieved_rotation; rewrite H; reflexivity].
  intros B HB block; unfold LagrangeDual.retrieved_rotation; rewrite HB.
  cbn [bind]; fold block.
  assert (Hneg : determinant3 (mneg block) = - determinant3 block).
  { unfold determinant3, mneg, mscale; cbn [coef]; ring. }
  unfold Rltb; destruct (Rlt_dec (determinant3 block) 0) as [Hlt|Hge].
  - exists (mneg block); split; [reflexivity|].
    split; [right; reflexivity|].
    rewrite Hneg, Rabs_left by exact Hlt; split; lra.
  - exists block; split; [reflexivity|].
    split; [left; reflexivity|].
    rewrite Rabs_right by lra; split; lra.
Qed.

End Retrieval.

(** X19 on identity blocks: block 4 of five is there, block 5 is not. *)
Lemma retrieved_rotation_sign_witness :
  let Y := Fixture.identity_blocks 5 3 (Fixture.options LagrangeDual.RBR_BCM) in
  (exists M : Matrix,
      LagrangeDual.retrieved_rotation Fixture.zero_of_identity Y 4
      = Ret (Fixture.zero_of_identity M) /\
      0 <= determinant3 M) /\
  LagrangeDual.retrieved_rotation Fixture.zero_of_identity Y 5 = CheckFailed.
Proof.
  intros Y; split.
  - destruct (proj1 (retrieved_rotation_sign Fixture.zero_of_identity Y 4)
                _ eq_refl) as (M & HM & _ & _ & Hdet).
    exists M; split; [exact HM | exact Hdet].
  - apply (proj2 (retrieved_rotation_sign Fixture.zero_of_identity Y 5)).
    reflexivity.
Defined.

Section EstimatorCall.

Variable SDPSolver : Type.
Variable Summary : Type.
Variables RBRSDPSolver RankRestrictedSDPSolver RiemannianStaircase :
  Z -> Z -> LagrangeDual.SDPSolverOptions -> SDPSolver.
Variable SetCovariance : SDPSolver -> Matrix -> SDPSolver.
Variable SetAdjacentEdges : SDPSolver -> LagrangeDual.adjacency -> SDPSolver.
Variable SDPSolve : SDPSolver -> Summary -> SDPSolver * Summary.
Variable GetSolution : SDPSolver -> Matrix.
Variable AngleAxisToRotationMatrix : Vector3d -> Matrix.
Variable RotationMatrixToAngleAxis : Matrix -> Vector3d.
Variable ViewIdToAscentIndex : image_map Vector3d -> image_map Z.

Let Estimator : Type := LagrangeDual.LagrangeDualRotationEstimator Summary.

Let EstimateRotations :=
  LagrangeDual.EstimateRotations SDPSolver Summary RBRSDPSolver
    RankRestrictedSDPSolver RiemannianStaircase SetCovariance SetAdjacentEdges
    SDPSolve GetSolution AngleAxisToRotationMatrix RotationMatrixToAngleAxis
    ViewIdToAscentIndex.

Let FillinRelativeGraph :=
  LagrangeDual.FillinRelativeGraph Summary AngleAxisToRotationMatrix.

Let ensure_index := LagrangeDual.ensure_index Summary ViewIdToAscentIndex.

Let CreateSDPSolver :=
  LagrangeDual.CreateSDPSolver SDPSolver Summary RBRSDPSolver
    RankRestrictedSDPSolver RiemannianStaircase.

(** The index map [EstimateRotations] works with: the one that was set,
    or the one [ViewIdToAscentIndex] gives. *)
Let index_in_use (self : Estimator) (grot : image_map Vector3d) : image_map Z :=
  match LagrangeDual.view_id_to_index_ Summary self with
  | [] => ViewIdToAscentIndex grot
  | m => m
  end.

Lemma ensure_index_in_use (self : Estimator) (grot : image_map Vector3d) :
  LagrangeDual.view_id_to_index_ Summary (ensure_index self grot)
  = index_in_use self grot.
Proof.
  unfold ensure_index, LagrangeDual.ensure_index, index_in_use.
  destruct (LagrangeDual.view_id_to_index_ Summary self) eqn:E;
    [reflexivity | exact E].
Qed.

Lemma fill_edges_grows (dim : Z) (view_pairs : view_pairs_t) :
  forall (index : image_map Z) (triplets : list Triplet)
         (adj : LagrangeDual.adjacency),
    let index' :=
      fst (fst (LagrangeDual.fill_edges AngleAxisToRotationMatrix dim view_pairs
                                        index triplets adj)) in
    (forall k j, find index k = Some j -> find index' k = Some j) /\
    (forall k j, find index' k = Some j ->
                 find index k = Some j \/ (find index k = None /\ j = 0%Z)).
Proof.
  induction view_pairs as [|[key geometry] rest IH]; intros index triplets adj;
    cbn [LagrangeDual.fill_edges].
  - cbn; auto.
  - destruct (subscript index (fst key)) as [i index1] eqn:E1.
    destruct (subscript index1 (snd key)) as [j index2] eqn:E2.
    specialize (IH index2 (triplets ++ LagrangeDual.edge_triplets dim i j
                                       (AngleAxisToRotationMatrix
                                          (rotation_2 geometry)))
                   (LagrangeDual.push_back (LagrangeDual.push_back adj i j) j i)).
    cbv zeta in IH |- *; destruct IH as [Hkeep Hnew].
    pose proof (subscript_spec _ _ _ _ E1) as [_ K1].
    pose proof (subscript_spec _ _ _ _ E2) as [_ K2].
    split; [auto|].
    intros k v Hv.
    destruct (Hnew k v Hv) as [H2|[H2 ->]].
    + destruct (subscript_grows _ _ _ _ E2 k v H2) as [H1|[H1 ->]].
      * exact (subscript_grows _ _ _ _ E1 k v H1).
      * right; split; [|reflexivity].
        destruct (find index k) as [w|] eqn:E; [|reflexivity].
        rewrite (K1 _ _ E) in H1; discriminate.
    + right; split; [|reflexivity].
      destruct (find index k) as [w|] eqn:E; [|reflexivity].
      rewrite (K2 _ _ (K1 _ _ E)) in H2; discriminate.
Qed.

(** [EstimateRotations] past its two [CHECK]s, step by step: the graph
    is filled in, the solver is created and run, the rotations are
    retrieved. *)
Lemma EstimateRotations_steps (self : Estimator) (view_pairs : view_pairs_t)
      (grot : image_map Vector3d) :
  view_pairs <> [] ->
  (0 < LagrangeDual.images_num_ Summary self)%Z ->
  EstimateRotations self view_pairs grot
  = ' (self1, adj_edges) <- FillinRelativeGraph (ensure_index self grot) view_pairs [] ;;
    match CreateSDPSolver self1 (LagrangeDual.images_num_ Summary self)
                          (LagrangeDual.dim_ Summary self1) with
    | None => NullDereference
    | Some solver =>
        let solved :=
          SDPSolve (SetAdjacentEdges
                      (SetCovariance solver (mneg (LagrangeDual.R_ Summary self1)))
                      adj_edges)
                   (LagrangeDual.summary_ Summary self1) in
        let Y := GetSolution (fst solved) in
        ' (index, rotations) <-
          LagrangeDual.retrieve_loop RotationMatrixToAngleAxis Y grot
            (LagrangeDual.view_id_to_index_ Summary self1) grot ;;
        Ret (true, rotations,
             {| LagrangeDual.options_ := LagrangeDual.options_ Summary self1;
                LagrangeDual.summary_ := snd solved;
                LagrangeDual.images_num_ := LagrangeDual.images_num_ Summary self1;
                LagrangeDual.dim_ := LagrangeDual.dim_ Summary self1;
                LagrangeDual.R_ := LagrangeDual.R_ Summary self1;
                LagrangeDual.Y_ := Y;
                LagrangeDual.alpha_max_ := LagrangeDual.alpha_max_ Summary self1;
                LagrangeDual.view_id_to_index_ := index |})
    end.
Proof.
  intros Hvp HN.
  unfold EstimateRotations, LagrangeDual.EstimateRotations.
  destruct view_pairs as [|p rest]; [congruence|].
  cbn [length Nat.ltb Nat.leb CHECK bind].
  destruct (Z.ltb_spec 0 (LagrangeDual.images_num_ Summary self)) as [_|HN'];
    [|lia].
  cbn [CHECK bind].
  fold ensure_index FillinRelativeGraph.
  destruct (FillinRelativeGraph (ensure_index self grot) (p :: rest) [])
    as [[self1 adj]| |]; cbn [bind]; try reflexivity.
  fold CreateSDPSolver.
  destruct (CreateSDPSolver self1 _ _) as [solver|]; [|reflexivity].
  destruct (SDPSolve _ _) as [solver' summary]; cbn [fst snd].
  unfold LagrangeDual.RetrieveRotations; cbn [LagrangeDual.view_id_to_index_].
  destruct (LagrangeDual.retrieve_loop _ _ _ _ _) as [[index g]| |]; reflexivity.
Qed.

(** X20.  [EstimateRotations], when it comes back: the rotation map has the
    views it had, in the same order; no entry of the index map in use has
    changed; and a view that the index map in use does not know is given
    the index 0 and the rotation of the first block of [Y]. *)
Theorem EstimateRotations_views
        (self self' : Estimator) (view_pairs : view_pairs_t)
        (grot grot' : image_map Vector3d) (b : bool) :
  EstimateRotations self view_pairs grot = Ret (b, grot', self') ->
  map fst grot' = map fst grot /\
  (forall id i, find (index_in_use self grot) id = Some i ->
                find (LagrangeDual.view_id_to_index_ Summary self') id = Some i) /\
  (forall id, In id (map fst grot) ->
              find (index_in_use self grot) id = None ->
              find (LagrangeDual.view_id_to_index_ Summary self') id = Some 0%Z /\
              exists v : Vector3d,
                LagrangeDual.retrieved_rotation RotationMatrixToAngleAxis
                  (LagrangeDual.Y_ Summary self') 0 = Ret v /\
                find grot' id = Some v).
Proof.
  intros H.
  assert (Hvp : view_pairs <> []).
  { intros ->; discriminate H. }
  assert (HN : (0 < LagrangeDual.images_num_ Summary self)%Z).
  { unfold EstimateRotations, LagrangeDual.EstimateRotations in H.
    inv_bind H as u1 H1. inv_bind H as u2 H2.
    destruct (Z.ltb_spec 0 (LagrangeDual.images_num_ Summary self));
      [assumption | discriminate]. }
  rewrite (EstimateRotations_steps self view_pairs grot Hvp HN) in H.
  inv_bind H as filled Hf; destruct filled as [self1 adj].
  apply FillinRelativeGraph_Ret in Hf as (_ & _ & Hself1).
  pose proof (fill_edges_grows
                (LagrangeDual.dim_ Summary (ensure_index self grot)) view_pairs
                (LagrangeDual.view_id_to_index_ Summary (ensure_index self grot))
                [] []) as Hfill.
  cbv zeta in Hfill; destruct Hfill as [Hkeep Hnew].
  assert (Hidx1 : LagrangeDual.view_id_to_index_ Summary self1
                  = fst (fst (LagrangeDual.fill_edges AngleAxisToRotationMatrix
                                (LagrangeDual.dim_ Summary (ensure_index self grot))
                                view_pairs
                                (LagrangeDual.view_id_to_index_ Summary
                                   (ensure_index self grot)) [] [])))
    by (rewrite Hself1; reflexivity).
  rewrite <- Hidx1 in Hkeep, Hnew; rewrite ensure_index_in_use in Hkeep, Hnew.
  destruct (CreateSDPSolver self1 _ _) as [solver|]; [|discriminate].
  cbv zeta in H.
  inv_bind H as looped El; destruct looped as [index' g'].
  injection H as <- <- <-.
  cbn [LagrangeDual.view_id_to_index_ LagrangeDual.Y_].
  pose proof (retrieve_loop_keys _ _ _ _ _ _ _ El (fun k Hk => Hk)) as Hkeys.
  pose proof (retrieve_loop_grows _ _ _ _ _ _ _ El) as Hgrow.
  apply retrieve_loop_spec in El as (Hkeep' & Hin & _).
  split; [exact Hkeys|].
  split; [intros id i Hi; apply Hkeep', Hkeep, Hi|].
  intros id Hid Hnone.
  destruct (Hin id Hid) as (i & v & Hi & Hrot & Hv).
  assert (i = 0%Z) as ->.
  { destruct (Hgrow id i Hi) as [Hi1|[_ ->]]; [|reflexivity].
    destruct (Hnew id i Hi1) as [Hi0|[_ ->]]; [congruence | reflexivity]. }
  split; [exact Hi | exists v; split; assumption].
Qed.

(** X21.  [EstimateRotations] does not read the rotations it is given: two
    rotation maps with the same views in the same order, under the same
    index map, give the same result. *)
Theorem EstimateRotations_ignores_initial_rotations
        (self : Estimator) (view_pairs : view_pairs_t)
        (grot1 grot2 : image_map Vector3d) :
  map fst grot1 = map fst grot2 ->
  NoDup (map fst grot1) ->
  index_in_use self grot1 = index_in_use self grot2 ->
  EstimateRotations self view_pairs grot1 = EstimateRotations self view_pairs grot2.
Proof.
  intros Hkeys Hnd Hindex.
  destruct view_pairs as [|p rest] eqn:Evp; [reflexivity|]; rewrite <- Evp.
  assert (Hvp : view_pairs <> []) by (rewrite Evp; discriminate).
  clear Evp.
  destruct (Z.ltb_spec 0 (LagrangeDual.images_num_ Summary self)) as [HN|HN].
  2:{ unfold EstimateRotations, LagrangeDual.EstimateRotations.
      destruct (CHECK (0 <? length view_pairs)%nat) as [u1| |]; cbn [bind];
        try reflexivity.
      destruct (Z.ltb_spec 0 (LagrangeDual.images_num_ Summary self)); [lia|].
      reflexivity. }
  rewrite !(EstimateRotations_steps self view_pairs _ Hvp HN).
  assert (Hself : ensure_index self grot1 = ensure_index self grot2).
  { unfold index_in_use in Hindex.
    unfold ensure_index, LagrangeDual.ensure_index.
    destruct (LagrangeDual.view_id_to_index_ Summary self);
      [rewrite Hindex|]; reflexivity. }
  rewrite Hself.
  destruct (FillinRelativeGraph (ensure_index self grot2) view_pairs [])
    as [[self1 adj]| |]; cbn [bind]; try reflexivity.
  destruct (CreateSDPSolver self1 _ _) as [solver|]; [|reflexivity].
  cbv zeta.
  set (Y := GetSolution _).
  set (index := LagrangeDual.view_id_to_index_ Summary self1).
  pose proof (retrieve_loop_index RotationMatrixToAngleAxis Y grot1 grot2 index
                grot1 grot2 Hkeys) as Hidx.
  destruct (LagrangeDual.retrieve_loop _ Y grot1 index grot1)
    as [[index1 g1]| |] eqn:E1;
    destruct (LagrangeDual.retrieve_loop _ Y grot2 index grot2)
      as [[index2 g2]| |] eqn:E2;
    cbn [bind fst] in Hidx |- *; try discriminate; try reflexivity.
  injection Hidx as <-.
  pose proof (retrieve_loop_keys _ _ _ _ _ _ _ E1 (fun k Hk => Hk)) as Hk1.
  pose proof (retrieve_loop_keys _ _ _ _ _ _ _ E2 (fun k Hk => Hk)) as Hk2.
  apply retrieve_loop_spec in E1 as (_ & Hin1 & _).
  apply retrieve_loop_spec in E2 as (_ & Hin2 & _).
  assert (Hg : g1 = g2).
  { apply image_map_ext; [congruence | rewrite Hk1; exact Hnd|].
    intros k Hk; rewrite Hk1 in Hk.
    destruct (Hin1 k Hk) as (i1 & v1 & Hi1 & Hr1 & ->).
    rewrite Hkeys in Hk.
    destruct (Hin2 k Hk) as (i2 & v2 & Hi2 & Hr2 & ->).
    congruence. }
  rewrite Hg; reflexivity.
Qed.

(** X22.  When [EstimateRotations] dies and when it returns.  Without a view
    pair, or with [N] not positive, a [CHECK] fails.  Past the [CHECK]s
    the call dies when [FillinRelativeGraph] does (a triplet outside
    [R_]).  When [FillinRelativeGraph] has come back and
    [CreateSDPSolver] has given a solver, the call returns, and returns
    true, exactly when the solution [Y] of that solver has the block of
    every view of the rotation map, at the index that
    [view_id_to_index_[view_id]] reads; otherwise it dies in
    [RetrieveRotations]. *)
Theorem EstimateRotations_checks
        (self : Estimator) (view_pairs : view_pairs_t)
        (grot : image_map Vector3d) :
  (view_pairs = [] \/ (LagrangeDual.images_num_ Summary self <= 0)%Z ->
   EstimateRotations self view_pairs grot = CheckFailed) /\
  (view_pairs <> [] ->
   (0 < LagrangeDual.images_num_ Summary self)%Z ->
   FillinRelativeGraph (ensure_index self grot) view_pairs [] = CheckFailed ->
   EstimateRotations self view_pairs grot = CheckFailed) /\
  (forall (self1 : Estimator) (adj_edges : LagrangeDual.adjacency)
          (solver : SDPSolver),
      view_pairs <> [] ->
      (0 < LagrangeDual.images_num_ Summary self)%Z ->
      FillinRelativeGraph (ensure_index self grot) view_pairs []
      = Ret (self1, adj_edges) ->
      CreateSDPSolver self1 (LagrangeDual.images_num_ Summary self)
                      (LagrangeDual.dim_ Summary self1) = Some solver ->
      let Y :=
        GetSolution
          (fst (SDPSolve
                  (SetAdjacentEdges
                     (SetCovariance solver (mneg (LagrangeDual.R_ Summary self1)))
                     adj_edges)
                  (LagrangeDual.summary_ Summary self1))) in
      let has_blocks :=
        forall id, In id (map fst grot) ->
                   in_block33 Y 0
                     (3 * fst (subscript (LagrangeDual.view_id_to_index_ Summary self1)
                                         id)) = true in
      (has_blocks <->
       exists grot' self',
         EstimateRotations self view_pairs grot = Ret (true, grot', self')) /\
      (~ has_blocks -> EstimateRotations self view_pairs grot = CheckFailed)).
Proof.
  split; [|split].
  - unfold EstimateRotations, LagrangeDual.EstimateRotations.
    intros [-> | HN]; [reflexivity|].
    destruct (CHECK (0 <? length view_pairs)%nat) as [u1| |] eqn:E1; cbn [bind];
      [|reflexivity|].
    + destruct (Z.ltb_spec 0 (LagrangeDual.images_num_ Summary self)); [lia|].
      reflexivity.
    + unfold CHECK in E1; destruct (0 <? length view_pairs)%nat; discriminate.
  - intros Hvp HN Hf.
    rewrite (EstimateRotations_steps self view_pairs grot Hvp HN), Hf; reflexivity.
  - intros self1 adj_edges solver Hvp HN Hf Hs Y has_blocks.
    rewrite (EstimateRotations_steps self view_pairs grot Hvp HN), Hf.
    cbn [bind]; rewrite Hs; cbv zeta; fold Y.
    assert (Hto : has_blocks ->
                  exists grot' self',
                    (' (index, rotations) <-
                       LagrangeDual.retrieve_loop RotationMatrixToAngleAxis Y grot
                         (LagrangeDual.view_id_to_index_ Summary self1) grot ;;
                     Ret (true, rotations,
                          {| LagrangeDual.options_ := LagrangeDual.options_ Summary self1;
                             LagrangeDual.summary_ :=
                               snd (SDPSolve
                                      (SetAdjacentEdges
                                         (SetCovariance solver
                                            (mneg (LagrangeDual.R_ Summary self1)))
                                         adj_edges)
                                      (LagrangeDual.summary_ Summary self1));
                             LagrangeDual.images_num_ :=
                               LagrangeDual.images_num_ Summary self1;
                             LagrangeDual.dim_ := LagrangeDual.dim_ Summary self1;
                             LagrangeDual.R_ := LagrangeDual.R_ Summary self1;
                             LagrangeDual.Y_ := Y;
                             LagrangeDual.alpha_max_ :=
                               LagrangeDual.alpha_max_ Summary self1;
                             LagrangeDual.view_id_to_index_ := index |}))
                    = Ret (true, grot', self')).
    { intros Hblocks.
      destruct (retrieve_loop_total RotationMatrixToAngleAxis Y grot
                  (LagrangeDual.view_id_to_index_ Summary self1) grot Hblocks)
        as (index' & g' & ->).
      cbn [bind]; eauto. }
    assert (Hfrom : forall r,
               LagrangeDual.retrieve_loop RotationMatrixToAngleAxis Y grot
                 (LagrangeDual.view_id_to_index_ Summary self1) grot = Ret r ->
               has_blocks).
    { intros [index' g'] El; exact (retrieve_loop_blocks _ _ _ _ _ _ _ El). }
    split; [split; [exact Hto|]|].
    + intros (grot' & self' & H).
      inv_bind H as looped El; exact (Hfrom _ El).
    + intros Hno.
      pose proof (retrieve_loop_not_null RotationMatrixToAngleAxis Y grot
                    (LagrangeDual.view_id_to_index_ Summary self1) grot) as Hnn.
      destruct (LagrangeDual.retrieve_loop RotationMatrixToAngleAxis Y grot
                  (LagrangeDual.view_id_to_index_ Summary self1) grot)
        as [r| |] eqn:El; [|reflexivity | congruence].
      exfalso; apply Hno; exact (Hfrom _ eq_refl).
Qed.

End EstimatorCall.

Lemma EstimateRotations_views_witness :
  let self := LagrangeDual.make nat 0%nat 5 3 (Fixture.options LagrangeDual.RBR_BCM) in
  exists (rotations' : image_map Vector3d)
         (self' : LagrangeDual.LagrangeDualRotationEstimator nat),
    Fixture.EstimateRotations self Fixture.star_pairs Fixture.five_rotations
    = Ret (true, rotations', self') /\
    map fst rotations' = [0; 1; 2; 3; 4]%N.
Proof.
  intros self; destruct star_estimate as (self' & He & _).
  eexists; exists self'; split; [exact He|].
  exact (proj1 (EstimateRotations_views Matrix nat Fixture.identity_blocks
                  Fixture.identity_blocks Fixture.identity_blocks
                  Fixture.set_covariance Fixture.set_adjacent_edges
                  Fixture.sdp_solve Fixture.get_solution Fixture.identity_of_zero
                  Fixture.zero_of_identity Fixture.index_by_position
                  _ _ _ _ _ _ He)).
Defined.

Lemma EstimateRotations_ignores_initial_rotations_witness :
  let self := LagrangeDual.make nat 0%nat 5 3 (Fixture.options LagrangeDual.RBR_BCM) in
  Fixture.EstimateRotations self Fixture.star_pairs Fixture.five_rotations
  = Fixture.EstimateRotations self Fixture.star_pairs
      [(0%N, Zero3); (1%N, (1, 2, 3)); (2%N, Zero3); (3%N, Zero3); (4%N, Zero3)].
Proof.
  intros self.
  apply (EstimateRotations_ignores_initial_rotations Matrix nat
           Fixture.identity_blocks Fixture.identity_blocks Fixture.identity_blocks
           Fixture.set_covariance Fixture.set_adjacent_edges
           Fixture.sdp_solve Fixture.get_solution Fixture.identity_of_zero
           Fixture.zero_of_identity Fixture.index_by_position).
  - reflexivity.
  - repeat constructor; cbn [In map fst Fixture.five_rotations];
      intuition discriminate.
  - reflexivity.
Defined.

(** X22 in the star example: without view pairs the call dies; with the
    star, whose solution has the five blocks, it returns true. *)
Lemma EstimateRotations_checks_witness :
  let self :=
    LagrangeDual.SetViewIdToIndex nat
      (LagrangeDual.make nat 0%nat 5 3 (Fixture.options LagrangeDual.RBR_BCM))
      Fixture.five_index in
  Fixture.EstimateRotations self [] Fixture.five_rotations = CheckFailed /\
  exists rotations' self',
    Fixture.EstimateRotations self Fixture.star_pairs Fixture.five_rotations
    = Ret (true, rotations', self').
Proof.
  intros self; split.
  - apply (proj1 (EstimateRotations_checks Matrix nat Fixture.identity_blocks
                    Fixture.identity_blocks Fixture.identity_blocks
                    Fixture.set_covariance Fixture.set_adjacent_edges
                    Fixture.sdp_solve Fixture.get_solution Fixture.identity_of_zero
                    Fixture.zero_of_identity Fixture.index_by_position
                    self [] Fixture.five_rotations)).
    left; reflexivity.
  - destruct star_FillinRelativeGraph as (self1 & adj_edges & Hf).
    pose proof (FillinRelativeGraph_Ret _ _ _ _ _ _ _ Hf) as (_ & _ & Hself1).
    assert (Hs : LagrangeDual.CreateSDPSolver Matrix nat Fixture.identity_blocks
                   Fixture.identity_blocks Fixture.identity_blocks self1
                   (LagrangeDual.images_num_ nat self) (LagrangeDual.dim_ nat self1)
                 = Some (Fixture.identity_blocks 5 3
                           (Fixture.options LagrangeDual.RBR_BCM)))
      by (rewrite Hself1; reflexivity).
    apply (proj1 (proj1 (proj2 (proj2 (EstimateRotations_checks Matrix nat
                           Fixture.identity_blocks
                           Fixture.identity_blocks Fixture.identity_blocks
                           Fixture.set_covariance Fixture.set_adjacent_edges
                           Fixture.sdp_solve Fixture.get_solution
                           Fixture.identity_of_zero
                           Fixture.zero_of_identity Fixture.index_by_position
                           self Fixture.star_pairs Fixture.five_rotations))
                        self1 adj_edges _ ltac:(discriminate) eq_refl Hf Hs))).
    intros id Hid; rewrite Hself1.
    cbn [map fst Fixture.five_rotations In] in Hid.
    repeat (destruct Hid as [<-|Hid]; [reflexivity|]); destruct Hid.
Defined.

(* ================================================================== *)
(** * The error bound *)
(* ================================================================== *)

Lemma max_of_edge_fold (degrees : list R) (edges : list (nat * nat)) :
  forall m : R,
    let M := fold_left (LagrangeDual.max_of_edge degrees) edges m in
    m <= M /\
    (forall e, In e edges ->
               coeff degrees (fst e) <= M /\ coeff degrees (snd e) <= M) /\
    (M = m \/
     exists e, In e edges /\
               (M = coeff degrees (fst e) \/ M = coeff degrees (snd e))).
Proof.
  induction edges as [|e edges IH]; intros m; cbn [fold_left].
  - cbv zeta; split; [lra | split; [intros e [] | left; reflexivity]].
  - specialize (IH (LagrangeDual.max_of_edge degrees m e)); cbv zeta in IH |- *.
    set (M := fold_left _ edges _) in *.
    destruct IH as (Hm & Hall & Hsome).
    assert (Hstep : m <= LagrangeDual.max_of_edge degrees m e /\
                    coeff degrees (fst e) <= LagrangeDual.max_of_edge degrees m e /\
                    coeff degrees (snd e) <= LagrangeDual.max_of_edge degrees m e /\
                    (LagrangeDual.max_of_edge degrees m e = m \/
                     LagrangeDual.max_of_edge degrees m e = coeff degrees (fst e) \/
                     LagrangeDual.max_of_edge degrees m e = coeff degrees (snd e))).
    { unfold LagrangeDual.max_of_edge, Rmax.
      repeat destruct (Rle_dec _ _); repeat split; auto; lra. }
    destruct Hstep as (S1 & S2 & S3 & S4).
    split; [lra|].
    split.
    + intros e' [<-|Hin]; [split; lra | apply Hall; exact Hin].
    + destruct Hsome as [HM|(e' & Hin & He')].
      * destruct S4 as [E|[E|E]]; [left; congruence | right | right];
          exists e; split; [left; reflexivity | rewrite HM, E; auto |
                            left; reflexivity | rewrite HM, E; auto].
      * right; exists e'; split; [right; exact Hin | exact He'].
Qed.

Lemma degree_endpoint (edges : list (nat * nat)) (v : nat) :
  (LagrangeDual.degree edges v = 0%nat /\
   forall e, In e edges -> fst e <> v /\ snd e <> v)
  \/ ((1 <= LagrangeDual.degree edges v)%nat /\
      exists e, In e edges /\ (fst e = v \/ snd e = v)).
Proof.
  induction edges as [|[i j] edges IH]; cbn [LagrangeDual.degree].
  - left; split; [reflexivity | intros e []].
  - destruct (Nat.eqb_spec i v) as [Hi|Hi].
    { right; split; [lia|]. exists (i, j); split; [left; reflexivity | left; exact Hi]. }
    destruct (Nat.eqb_spec j v) as [Hj|Hj].
    { right; split; [lia|]. exists (i, j); split; [left; reflexivity | right; exact Hj]. }
    destruct IH as [[H0 Hnone]|[H1 (e & Hin & He)]].
    + left; split; [lia|].
      intros e [<-|Hin]; [split; assumption | apply Hnone; exact Hin].
    + right; split; [lia|]. exists e; split; [right; exact Hin | exact He].
Qed.

Lemma counted_degree (n : nat) (edges : list (nat * nat)) (v : nat) :
  (v < n)%nat ->
  coeff (fold_left LagrangeDual.bump edges (repeat 0 n)) v
  = INR (LagrangeDual.degree edges v).
Proof.
  intros Hv; rewrite degrees_counted by (rewrite repeat_length; exact Hv).
  fold (setZero n); rewrite coeff_setZero; lra.
Qed.

Lemma dense_edges_nonempty (view_pairs : view_pairs_t) (index : image_map Z) :
  view_pairs <> [] -> snd (LagrangeDual.dense_edges view_pairs index) <> [].
Proof.
  destruct view_pairs as [|[key g] rest]; [congruence|]; intros _.
  cbn [LagrangeDual.dense_edges].
  destruct (subscript index (fst key)) as [i m1].
  destruct (subscript m1 (snd key)) as [j m2].
  destruct (LagrangeDual.dense_edges rest m2); discriminate.
Qed.

(** The running maximum over edges with indices below [n] of the counted
    degrees is at least 1 when there is an edge. *)
Lemma max_degree_positive (n : nat) (edges : list (nat * nat)) :
  (forall e, In e edges -> (fst e < n)%nat /\ (snd e < n)%nat) ->
  edges <> [] ->
  1 <= fold_left
         (LagrangeDual.max_of_edge (fold_left LagrangeDual.bump edges (repeat 0 n)))
         edges 0.
Proof.
  intros Hrange Hne.
  destruct edges as [|e edges]; [congruence|].
  set (degrees := fold_left LagrangeDual.bump (e :: edges) (repeat 0 n)).
  destruct (max_of_edge_fold degrees (e :: edges) 0) as (_ & Hall & _).
  destruct (Hall e (or_introl eq_refl)) as [Hfst _].
  destruct (Hrange e (or_introl eq_refl)) as [Hin _].
  unfold degrees in Hfst at 1; rewrite counted_degree in Hfst by exact Hin.
  destruct (degree_endpoint (e :: edges) (fst e)) as [[_ Hnone]|[H1 _]].
  - destruct (Hnone e (or_introl eq_refl)) as [Hc _]; congruence.
  - apply le_INR in H1; change (INR 1) with 1 in H1.
    cbv zeta in Hfst; lra.
Qed.

(** X23.  The largest degree of [ComputeErrorBound], when the matrices can be
    set up: it bounds the degree of every vertex, it is the degree of some
    vertex and at least 1 when there is an edge, and it is 0 when there is
    none. *)
Theorem max_degree_spec (N : Z) (view_pairs : view_pairs_t)
        (index index' : image_map Z) (A D : Matrix) (max_degree : R) :
  LagrangeDual.graph_matrices N view_pairs index = Ret (index', A, D, max_degree) ->
  let edges := snd (LagrangeDual.dense_edges view_pairs index) in
  let n := Z.to_nat N in
  (forall e, In e edges -> (fst e < n)%nat /\ (snd e < n)%nat) /\
  (forall v, INR (LagrangeDual.degree edges v) <= max_degree) /\
  (view_pairs <> [] ->
   1 <= max_degree /\
   exists v, (v < n)%nat /\ max_degree = INR (LagrangeDual.degree edges v)) /\
  (view_pairs = [] -> max_degree = 0).
Proof.
  intros H; apply graph_matrices_Ret in H as (_ & _ & _ & -> & Hall0).
  cbv zeta.
  assert (Hrange : forall e,
             In e (snd (LagrangeDual.dense_edges view_pairs index)) ->
             (fst e < Z.to_nat N)%nat /\ (snd e < Z.to_nat N)%nat).
  { apply Forall_forall; exact Hall0. }
  pose proof (max_degree_positive (Z.to_nat N) _ Hrange) as Hpos.
  pose proof (dense_edges_nonempty view_pairs index) as Hne.
  set (edges := snd (LagrangeDual.dense_edges view_pairs index)) in *.
  set (degrees := fold_left LagrangeDual.bump edges (repeat 0 (Z.to_nat N))) in *.
  destruct (max_of_edge_fold degrees edges 0) as (H0 & Hall & Hsome);
    cbv zeta in H0, Hall, Hsome.
  split; [exact Hrange | split; [|split]].
  - intros v.
    destruct (degree_endpoint edges v) as [[Hz _]|[_ (e & Hin & He)]].
    + rewrite Hz; simpl; exact H0.
    + destruct (Hrange e Hin) as [Hf Hs], (Hall e Hin) as [Af As].
      unfold degrees in Af at 1, As at 1.
      rewrite counted_degree in Af, As by assumption.
      destruct He as [<-|<-]; assumption.
  - intros Hvp; split; [apply Hpos, Hne; exact Hvp|].
    destruct Hsome as [HM|(e & Hin & He)].
    + specialize (Hpos (Hne Hvp)); lra.
    + destruct (Hrange e Hin) as [Hf Hs].
      destruct He as [He|He]; [exists (fst e) | exists (snd e)];
        (split; [assumption|]); rewrite He; unfold degrees;
        apply counted_degree; assumption.
  - intros ->; reflexivity.
Qed.

(** X23 in the star example. *)
Lemma max_degree_spec_witness :
  exists (index : image_map Z) (A D : Matrix) (max_degree : R),
    LagrangeDual.graph_matrices 5 Fixture.star_pairs Fixture.five_index
    = Ret (index, A, D, max_degree) /\
    1 <= max_degree /\
    INR (LagrangeDual.degree
           (snd (LagrangeDual.dense_edges Fixture.star_pairs Fixture.five_index)) 0)
    <= max_degree.
Proof.
  destruct star_graph_matrices as (index & A & D & max_degree & Hg & _).
  exists index, A, D, max_degree; split; [exact Hg|].
  destruct (max_degree_spec 5 Fixture.star_pairs Fixture.five_index _ _ _ _ Hg)
    as (_ & Hall & Hsome & _).
  split.
  - apply Hsome; discriminate.
  - apply (Hall 0%nat).
Defined.



Section ErrorBound.

Variable Summary : Type.
Variable SymEigsSolver :
  LagrangeDual.SelectionRule -> Matrix -> nat -> nat ->
  LagrangeDual.SpectraInfo * VectorXd.

(** X25.  When every dense index that [ComputeErrorBound] reads is in
    [[0, N)] and the graph has an edge, the matrices [A] and [D] are set
    up, and when Spectra is not successful on the call's [D - A], the
    call comes back and the bound it stores is 0. *)
Theorem ComputeErrorBound_eigensolver_fails
        (self : LagrangeDual.LagrangeDualRotationEstimator Summary)
        (view_pairs : view_pairs_t) :
  (forall p,
      In p (LagrangeDual.index_pairs view_pairs
              (LagrangeDual.view_id_to_index_ Summary self)) ->
      (0 <= fst p < LagrangeDual.images_num_ Summary self)%Z /\
      (0 <= snd p < LagrangeDual.images_num_ Summary self)%Z) ->
  view_pairs <> [] ->
  exists (index : image_map Z) (A D : Matrix) (max_degree : R),
    LagrangeDual.graph_matrices (LagrangeDual.images_num_ Summary self) view_pairs
      (LagrangeDual.view_id_to_index_ Summary self)
    = Ret (index, A, D, max_degree) /\
    (fst (SymEigsSolver LagrangeDual.SMALLEST_ALGE (msub D A) 2%nat 5%nat)
     <> LagrangeDual.SUCCESSFUL ->
     exists self' : LagrangeDual.LagrangeDualRotationEstimator Summary,
       LagrangeDual.ComputeErrorBound Summary SymEigsSolver self view_pairs
       = Ret self' /\
       LagrangeDual.GetErrorBound Summary self' = 0).
Proof.
  intros Hrange Hne.
  apply graph_matrices_returns in Hrange as (index & A & D & max_degree & Hg).
  exists index, A, D, max_degree; split; [exact Hg|].
  intros Hfail.
  pose proof (ComputeErrorBound_spec Summary SymEigsSolver self view_pairs) as H.
  rewrite Hg in H.
  apply graph_matrices_Ret in Hg as (_ & _ & _ & Hmax & Hall).
  assert (Hpos : 1 <= max_degree).
  { rewrite Hmax; apply max_degree_positive.
    - apply Forall_forall; exact Hall.
    - apply dense_edges_nonempty; exact Hne. }
  destruct (SymEigsSolver _ _ _ _) as [info eigenvalues]; cbn [fst] in Hfail.
  assert (Hi : LagrangeDual.is_SUCCESSFUL info = false)
    by (destruct info; [congruence | reflexivity ..]).
  rewrite Hi in H; eexists; split; [exact H|].
  cbn; unfold LagrangeDual.error_bound.
  replace (0 / (2.0 * max_degree)) with 0 by (unfold Rdiv; ring).
  rewrite Rplus_0_r.
  replace 0.25 with (0.5 * 0.5) by lra.
  rewrite sqrt_square by lra.
  replace (0.5 - 0.5) with 0 by lra.
  rewrite asin_0; ring.
Qed.

End ErrorBound.

(** X25 in the star example, with an eigensolver that does not converge. *)
Lemma ComputeErrorBound_eigensolver_fails_witness :
  let self :=
    LagrangeDual.SetViewIdToIndex nat
      (LagrangeDual.make nat 0%nat 5 3 (Fixture.options LagrangeDual.RBR_BCM))
      Fixture.five_index in
  exists self' : LagrangeDual.LagrangeDualRotationEstimator nat,
    LagrangeDual.ComputeErrorBound nat Fixture.eigs_not_converging self
                                   Fixture.star_pairs = Ret self' /\
    LagrangeDual.GetErrorBound nat self' = 0.
Proof.
  intros self.
  assert (Hrange : forall p,
             In p (LagrangeDual.index_pairs Fixture.star_pairs
                     (LagrangeDual.view_id_to_index_ nat self)) ->
             (0 <= fst p < LagrangeDual.images_num_ nat self)%Z /\
             (0 <= snd p < LagrangeDual.images_num_ nat self)%Z).
  { intros p Hp; vm_compute in Hp.
    repeat (destruct Hp as [<-|Hp]; [vm_compute; intuition discriminate|]);
      destruct Hp. }
  destruct (ComputeErrorBound_eigensolver_fails nat Fixture.eigs_not_converging
              self Fixture.star_pairs Hrange ltac:(discriminate))
    as (index & A & D & max_degree & _ & Hfail).
  apply Hfail; discriminate.
Defined.

(** The matrices of [ComputeErrorBound] in the star example: [A] counts
    the edges between two vertices and the diagonal of [D] holds the
    squares of the degrees. *)
Lemma graph_matrices_spec_witness :
  exists (index : image_map Z) (A D : Matrix) (max_degree : R),
    LagrangeDual.graph_matrices 5 Fixture.star_pairs Fixture.five_index
    = Ret (index, A, D, max_degree) /\
    coef A 0 1 = 1 /\ coef D 0 0 = 16 /\ coef D 1 1 = 1.
Proof.
  assert (Hrange : forall p,
             In p (LagrangeDual.index_pairs Fixture.star_pairs Fixture.five_index) ->
             (0 <= fst p < 5)%Z /\ (0 <= snd p < 5)%Z).
  { intros p Hp; vm_compute in Hp.
    repeat (destruct Hp as [<-|Hp]; [vm_compute; intuition discriminate|]);
      destruct Hp. }
  destruct (graph_matrices_spec 5 Fixture.star_pairs Fixture.five_index)
    as [Hret H].
  destruct (proj1 Hret Hrange) as (index & A & D & max_degree & Hg).
  exists index, A, D, max_degree; split; [exact Hg|].
  specialize (H _ _ _ _ Hg); cbv zeta in H.
  assert (H0 : (0 < Z.to_nat 5)%nat) by (vm_compute; lia).
  assert (H1 : (1 < Z.to_nat 5)%nat) by (vm_compute; lia).
  destruct (H 0%nat 1%nat H0) as (HA & _).
  destruct (H 0%nat 0%nat H0) as (_ & HD0 & _).
  destruct (H 1%nat 1%nat H1) as (_ & HD1 & _).
  split; [|split].
  - rewrite HA; vm_compute; lra.
  - rewrite HD0; vm_compute; lra.
  - rewrite HD1; vm_compute; lra.
Defined.

(* ================================================================== *)
(** * The hash of a pair of identifiers *)
(* ================================================================== *)

Lemma pair_key_value (p : ImagePair) :
  (fst p < 2 ^ 32)%N -> (snd p < 2 ^ 32)%N ->
  PairHash.s p = (fst p * 2 ^ 32 + snd p)%N /\ (PairHash.s p < 2 ^ 64)%N.
Proof.
  intros Hf Hs; unfold PairHash.s, PairHash.wrap64.
  rewrite N.shiftl_mul_pow2.
  assert (H64 : (2 ^ 64 = 2 ^ 32 * 2 ^ 32)%N) by reflexivity.
  assert (Hlt : (fst p * 2 ^ 32 + snd p < 2 ^ 64)%N) by nia.
  rewrite (N.mod_small (fst p * 2 ^ 32)) by nia.
  rewrite N.mod_small by exact Hlt.
  split; [reflexivity | exact Hlt].
Qed.

(** X27.  For identifiers that fit in 32 bits the value hashed for a pair is
    [first * 2^32 + second], without wrap-around: the pair can be read
    back from it, so two pairs with the same value are the same pair (in
    particular, [(a, b)] and [(b, a)] differ unless [a = b]), and the hash
    of two different pairs is the same only if [std::hash<uint64_t>]
    collides on two different 64-bit values. *)
Theorem pair_hash_injective (hash_uint64 : N -> N) (p q : ImagePair) :
  (fst p <= PairHash.kInvalidImageId)%N ->
  (snd p <= PairHash.kInvalidImageId)%N ->
  (fst q <= PairHash.kInvalidImageId)%N ->
  (snd q <= PairHash.kInvalidImageId)%N ->
  PairHash.s p = (fst p * 2 ^ 32 + snd p)%N /\
  (PairHash.s p / 2 ^ 32 = fst p)%N /\
  (PairHash.s p mod 2 ^ 32 = snd p)%N /\
  (PairHash.s p = PairHash.s q -> p = q) /\
  (PairHash.s (fst p, snd p) = PairHash.s (snd p, fst p) -> fst p = snd p) /\
  (PairHash.hash hash_uint64 p = PairHash.hash hash_uint64 q ->
   p = q \/
   exists x y, (x < 2 ^ 64)%N /\ (y < 2 ^ 64)%N /\ x <> y /\
               hash_uint64 x = hash_uint64 y).
Proof.
  unfold PairHash.kInvalidImageId; intros Hpf Hps Hqf Hqs.
  assert (H32 : (2 ^ 32 - 1 < 2 ^ 32)%N) by reflexivity.
  destruct (pair_key_value p) as [Hp Hp64]; [lia | lia |].
  destruct (pair_key_value q) as [Hq Hq64]; [lia | lia |].
  assert (Hdiv : forall a b, (b < 2 ^ 32)%N ->
                             ((a * 2 ^ 32 + b) / 2 ^ 32 = a)%N /\
                             ((a * 2 ^ 32 + b) mod 2 ^ 32 = b)%N).
  { intros a b Hb; split.
    - rewrite N.div_add_l by discriminate.
      rewrite N.div_small by exact Hb; lia.
    - rewrite N.add_comm, N.Div0.mod_add; apply N.mod_small; exact Hb. }
  assert (Hinj : PairHash.s p = PairHash.s q -> p = q).
  { intros E; rewrite Hp, Hq in E.
    destruct (Hdiv (fst p) (snd p)) as [D1 M1]; [lia|].
    destruct (Hdiv (fst q) (snd q)) as [D2 M2]; [lia|].
    rewrite E in D1, M1.
    destruct p as [a b], q as [c d]; cbn [fst snd] in *; congruence. }
  split; [exact Hp|].
  split; [rewrite Hp; apply Hdiv; lia|].
  split; [rewrite Hp; apply Hdiv; lia|].
  split; [exact Hinj|].
  split.
  - intros E.
    destruct (pair_key_value (fst p, snd p)) as [H1 _]; cbn [fst snd]; [lia | lia |].
    destruct (pair_key_value (snd p, fst p)) as [H2 _]; cbn [fst snd]; [lia | lia |].
    rewrite H1, H2 in E; cbn [fst snd] in E.
    destruct (Hdiv (fst p) (snd p)) as [D1 _]; [lia|].
    destruct (Hdiv (snd p) (fst p)) as [D2 _]; [lia|].
    rewrite E in D1; congruence.
  - unfold PairHash.hash; intros E.
    destruct (N.eq_dec (PairHash.s p) (PairHash.s q)) as [Es|Es].
    + left; apply Hinj; exact Es.
    + right; exists (PairHash.s p), (PairHash.s q); auto.
Qed.

Lemma pair_hash_injective_witness :
  PairHash.s (1%N, 2%N) = 4294967298%N /\
  (PairHash.s (1%N, 2%N) / 2 ^ 32 = 1)%N.
Proof.
  destruct (pair_hash_injective (fun x => x) (1%N, 2%N) (2%N, 1%N))
    as (Hs & Hd & _); try (vm_compute; discriminate).
  split; [exact Hs | exact Hd].
Defined.

(* ================================================================== *)
(** * The Graclus graph *)
(* ================================================================== *)

Lemma to_int_small (z : Z) :
  (- 2 ^ 31 <= z < 2 ^ 31)%Z -> GraphCut.to_int z = z.
Proof.
  intros Hz; unfold GraphCut.to_int.
  rewrite Z.mod_small; [ring|].
  change (2 ^ 32)%Z with (2 ^ 31 + 2 ^ 31)%Z; lia.
Qed.

Lemma to_size_t_small (z : Z) :
  (0 <= z < 2 ^ 31)%Z -> GraphCut.to_size_t z = z.
Proof.
  intros Hz; unfold GraphCut.to_size_t; apply Z.mod_small.
  assert (2 ^ 31 < 2 ^ 64)%Z by reflexivity; lia.
Qed.

Lemma lookup_app {V : Type} (m : list (Z * V)) (k k' : Z) (v : V) :
  GraphCut.lookup (m ++ [(k, v)]) k'
  = match GraphCut.lookup m k' with
    | Some x => Some x
    | None => if (k =? k')%Z then Some v else None
    end.
Proof.
  induction m as [|[k0 v0] m IH]; cbn [app GraphCut.lookup]; [reflexivity|].
  destruct (k0 =? k')%Z; [reflexivity | exact IH].
Qed.

Lemma row_of_emplace_back (adj : GraphCut.adjacency_list) (k i : Z) (e : Z * Z) :
  GraphCut.row_of (GraphCut.emplace_back adj k e) i
  = if (i =? k)%Z then GraphCut.row_of adj i ++ [e] else GraphCut.row_of adj i.
Proof.
  unfold GraphCut.row_of.
  induction adj as [|[k' l] rest IH]; cbn [GraphCut.emplace_back GraphCut.lookup].
  - rewrite Z.eqb_sym; destruct (i =? k)%Z; reflexivity.
  - destruct (Z.eqb_spec k' k) as [->|Hne]; cbn [GraphCut.lookup].
    + rewrite (Z.eqb_sym k i); destruct (i =? k)%Z; reflexivity.
    + destruct (Z.eqb_spec k' i) as [->|Hk]; [|exact IH].
      destruct (Z.eqb_spec i k); [congruence | reflexivity].
Qed.

(** One call of [GetVertexIdx] on consistent maps with fewer than [2^31]
    entries. *)
Lemma GetVertexIdx_step (g : GraphCut.GraclusGraph) (id : Z) :
  GraphCut.consistent g ->
  (Z.of_nat (length (GraphCut.vertex_id_to_idx_ g)) < 2 ^ 31)%Z ->
  let idx := fst (GraphCut.GetVertexIdx g id) in
  let g' := snd (GraphCut.GetVertexIdx g id) in
  GraphCut.consistent g' /\
  GraphCut.lookup (GraphCut.vertex_id_to_idx_ g') id = Some idx /\
  (forall id0 idx0,
      GraphCut.lookup (GraphCut.vertex_id_to_idx_ g) id0 = Some idx0 ->
      GraphCut.lookup (GraphCut.vertex_id_to_idx_ g') id0 = Some idx0) /\
  (length (GraphCut.vertex_id_to_idx_ g)
   <= length (GraphCut.vertex_id_to_idx_ g')
   <= S (length (GraphCut.vertex_id_to_idx_ g)))%nat /\
  (forall id0, GraphCut.lookup (GraphCut.vertex_id_to_idx_ g') id0 <> None ->
               GraphCut.lookup (GraphCut.vertex_id_to_idx_ g) id0 <> None \/ id0 = id).
Proof.
  intros (Hlen & Hinv & Hdom) Hsmall; cbv zeta.
  unfold GraphCut.GetVertexIdx.
  destruct (GraphCut.lookup (GraphCut.vertex_id_to_idx_ g) id) as [idx|] eqn:E;
    cbn [fst snd].
  { split; [split; [|split]; assumption|].
    split; [exact E | split; [auto | split; [lia | auto]]]. }
  set (n := length (GraphCut.vertex_id_to_idx_ g)) in *.
  rewrite to_int_small by lia.
  assert (Hfree : GraphCut.lookup (GraphCut.vertex_idx_to_id_ g) (Z.of_nat n) = None).
  { destruct (GraphCut.lookup (GraphCut.vertex_idx_to_id_ g) (Z.of_nat n)) as [x|] eqn:Ex;
      [|reflexivity].
    assert (0 <= Z.of_nat n < Z.of_nat n)%Z by (apply Hdom; eauto); lia. }
  unfold GraphCut.emplace; rewrite E, Hfree.
  unfold GraphCut.with_maps.
  cbn [GraphCut.vertex_id_to_idx_ GraphCut.vertex_idx_to_id_].
  split; [|split; [|split; [|split]]].
  - unfold GraphCut.consistent;
      cbn [GraphCut.vertex_id_to_idx_ GraphCut.vertex_idx_to_id_].
    cbv zeta; rewrite !length_app; cbn [length]; fold n.
    split; [lia|]. split.
    + intros id0 idx0; rewrite !lookup_app.
      destruct (GraphCut.lookup (GraphCut.vertex_id_to_idx_ g) id0) as [x|] eqn:E0.
      * pose proof (proj1 (Hinv id0 x) E0) as Hx.
        split.
        -- intros H; injection H as <-; rewrite Hx; reflexivity.
        -- destruct (GraphCut.lookup (GraphCut.vertex_idx_to_id_ g) idx0) as [y|] eqn:E1.
           ++ intros H; injection H as ->.
              apply Hinv in E1; congruence.
           ++ destruct (Z.eqb_spec (Z.of_nat n) idx0) as [<-|Hne]; [|discriminate].
              intros H; injection H as <-; congruence.
      * destruct (GraphCut.lookup (GraphCut.vertex_idx_to_id_ g) idx0) as [y|] eqn:E1.
        -- split.
           ++ destruct (Z.eqb_spec id id0) as [<-|Hne]; [|discriminate].
              intros H; injection H as <-; congruence.
           ++ intros H; injection H as ->.
              apply Hinv in E1; congruence.
        -- destruct (Z.eqb_spec id id0) as [<-|Hne],
                    (Z.eqb_spec (Z.of_nat n) idx0) as [<-|Hne'];
             split; intros H; try discriminate; try reflexivity;
             injection H as H; congruence.
    + intros idx0; rewrite lookup_app.
      destruct (GraphCut.lookup (GraphCut.vertex_idx_to_id_ g) idx0) as [y|] eqn:E1.
      * assert (0 <= idx0 < Z.of_nat n)%Z by (apply Hdom; eauto).
        split; [lia | eauto].
      * destruct (Z.eqb_spec (Z.of_nat n) idx0) as [<-|Hne].
        -- split; [lia | eauto].
        -- split; [intros [x Hx]; discriminate|].
           intros Hr; assert (exists x, GraphCut.lookup
                                         (GraphCut.vertex_idx_to_id_ g) idx0 = Some x)
             as [x Hx] by (apply Hdom; lia).
           congruence.
  - rewrite lookup_app, E, Z.eqb_refl; reflexivity.
  - intros id0 idx0 H0; rewrite lookup_app, H0; reflexivity.
  - rewrite length_app; cbn [length]; lia.
  - intros id0; rewrite lookup_app.
    destruct (GraphCut.lookup (GraphCut.vertex_id_to_idx_ g) id0); [left; discriminate|].
    destruct (Z.eqb_spec id id0) as [<-|Hne]; [right; reflexivity | contradiction].
Qed.

Lemma entries_below_S (adj : GraphCut.adjacency_list) (N : nat) :
  GraphCut.entries_below adj (S N)
  = (GraphCut.entries_below adj N + length (GraphCut.row_of adj (Z.of_nat N)))%nat.
Proof.
  unfold GraphCut.entries_below.
  rewrite seq_S, map_app, list_sum_app; cbn [map list_sum fold_right Nat.add]; lia.
Qed.

Lemma entries_below_le (adj : GraphCut.adjacency_list) (N M : nat) :
  (N <= M)%nat -> (GraphCut.entries_below adj N <= GraphCut.entries_below adj M)%nat.
Proof.
  induction 1 as [|M _ IH]; [lia|]. rewrite entries_below_S; lia.
Qed.

Lemma entries_below_emplace_back (adj : GraphCut.adjacency_list) (k : Z)
      (e : Z * Z) (N : nat) :
  GraphCut.entries_below (GraphCut.emplace_back adj k e) N
  = (GraphCut.entries_below adj N
     + if (0 <=? k)%Z && (k <? Z.of_nat N)%Z then 1 else 0)%nat.
Proof.
  induction N as [|N IH].
  { destruct (Z.leb_spec 0 k); cbn [andb]; [|reflexivity].
    replace (k <? Z.of_nat 0)%Z with false by (symmetry; apply Z.ltb_ge; lia).
    reflexivity. }
  rewrite !entries_below_S, IH, row_of_emplace_back.
  destruct (Z.eqb_spec (Z.of_nat N) k) as [<-|Hne].
  - rewrite length_app; cbn [length].
    replace (0 <=? Z.of_nat N)%Z with true by (symmetry; apply Z.leb_le; lia).
    replace (Z.of_nat N <? Z.of_nat N)%Z with false by (symmetry; apply Z.ltb_ge; lia).
    replace (Z.of_nat N <? Z.of_nat (S N))%Z with true by (symmetry; apply Z.ltb_lt; lia).
    cbn [andb]; lia.
  - destruct (Z.leb_spec 0 k); cbn [andb]; [|lia].
    destruct (Z.ltb_spec k (Z.of_nat N)), (Z.ltb_spec k (Z.of_nat (S N))); lia.
Qed.

(** The first loop of the constructor: the maps stay consistent and only
    grow, every endpoint gets an index, every key and every stored vertex
    of the adjacency list is an index, and each edge adds two entries. *)
Lemma add_edges_spec (edges : list (Z * Z)) :
  forall (weights : list Z) (g : GraphCut.GraclusGraph)
         (adj : GraphCut.adjacency_list) (k : nat),
    length edges = length weights ->
    GraphCut.consistent g ->
    (length (GraphCut.vertex_id_to_idx_ g) <= 2 * k)%nat ->
    (2 * (Z.of_nat k + Z.of_nat (length edges)) < 2 ^ 31)%Z ->
    (forall key e, In e (GraphCut.row_of adj key) ->
                   (0 <= fst e < Z.of_nat (length (GraphCut.vertex_id_to_idx_ g)))%Z) ->
    (forall N, (length (GraphCut.vertex_id_to_idx_ g) <= N)%nat ->
               GraphCut.entries_below adj N = (2 * k)%nat) ->
    let g' := fst (GraphCut.add_edges g adj edges weights) in
    let adj' := snd (GraphCut.add_edges g adj edges weights) in
    GraphCut.consistent g' /\
    (length (GraphCut.vertex_id_to_idx_ g') <= 2 * (k + length edges))%nat /\
    (forall id idx, GraphCut.lookup (GraphCut.vertex_id_to_idx_ g) id = Some idx ->
                    GraphCut.lookup (GraphCut.vertex_id_to_idx_ g') id = Some idx) /\
    (forall e, In e edges ->
               exists i j,
                 GraphCut.lookup (GraphCut.vertex_id_to_idx_ g') (fst e) = Some i /\
                 GraphCut.lookup (GraphCut.vertex_id_to_idx_ g') (snd e) = Some j) /\
    (forall key e, In e (GraphCut.row_of adj' key) ->
                   (0 <= fst e < Z.of_nat (length (GraphCut.vertex_id_to_idx_ g')))%Z) /\
    (forall N, (length (GraphCut.vertex_id_to_idx_ g') <= N)%nat ->
               GraphCut.entries_below adj' N = (2 * (k + length edges))%nat) /\
    (forall id, GraphCut.lookup (GraphCut.vertex_id_to_idx_ g') id <> None ->
                GraphCut.lookup (GraphCut.vertex_id_to_idx_ g) id <> None \/
                exists e, In e edges /\ (fst e = id \/ snd e = id)).
Proof.
  induction edges as [|edge edges IH]; intros [|weight weights] g adj k Hlen Hc Hn Hbound
                                              Hrange Hcount;
    try discriminate; cbn [GraphCut.add_edges length] in *.
  - cbv zeta; cbn [fst snd].
    split; [exact Hc|]. split; [lia|]. split; [auto|].
    split; [intros e []|]. split; [exact Hrange|].
    split; [intros N HN; rewrite Hcount by exact HN; lia | auto].
  - injection Hlen as Hlen.
    pose proof (GetVertexIdx_step g (fst edge) Hc ltac:(lia)) as H1.
    destruct (GraphCut.GetVertexIdx g (fst edge)) as [i g1]; cbn [fst snd] in H1.
    destruct H1 as (Hc1 & Hi & Hkeep1 & Hsize1 & Hnew1).
    pose proof (GetVertexIdx_step g1 (snd edge) Hc1 ltac:(lia)) as H2.
    destruct (GraphCut.GetVertexIdx g1 (snd edge)) as [j g2]; cbn [fst snd] in H2.
    destruct H2 as (Hc2 & Hj & Hkeep2 & Hsize2 & Hnew2).
    assert (Hidx : forall id idx,
               GraphCut.lookup (GraphCut.vertex_id_to_idx_ g2) id = Some idx ->
               (0 <= idx < Z.of_nat (length (GraphCut.vertex_id_to_idx_ g2)))%Z).
    { intros id idx Hl; destruct Hc2 as (_ & Hinv & Hdom).
      apply Hdom; exists id; apply Hinv; exact Hl. }
    pose proof (Hidx _ _ (Hkeep2 _ _ Hi)) as Hi_range.
    pose proof (Hidx _ _ Hj) as Hj_range.
    specialize (IH weights g2
                   (GraphCut.emplace_back (GraphCut.emplace_back adj i (j, weight))
                                          j (i, weight))
                   (S k) Hlen Hc2 ltac:(lia) ltac:(lia)).
    cbv zeta in IH |- *.
    destruct IH as (Hc' & Hn' & Hkeep' & Hends & Hrange' & Hcount' & Hnew').
    + intros key e; rewrite !row_of_emplace_back.
      destruct (key =? j)%Z, (key =? i)%Z; rewrite ?in_app_iff; cbn [In];
        intros He; repeat destruct He as [He|He]; subst; cbn [fst];
        try lia; try (specialize (Hrange _ _ He); lia); try contradiction.
    + intros N HN; rewrite !entries_below_emplace_back, Hcount by lia.
      replace ((0 <=? i)%Z && (i <? Z.of_nat N)%Z) with true
        by (symmetry; apply andb_true_iff; split;
            [apply Z.leb_le | apply Z.ltb_lt]; lia).
      replace ((0 <=? j)%Z && (j <? Z.of_nat N)%Z) with true
        by (symmetry; apply andb_true_iff; split;
            [apply Z.leb_le | apply Z.ltb_lt]; lia).
      lia.
    + split; [exact Hc'|]. split; [lia|].
      split; [intros id idx Hl; apply Hkeep', Hkeep2, Hkeep1, Hl|].
      split.
      { intros e [<-|Hin]; [|apply Hends; exact Hin].
        exists i, j; split; [apply Hkeep', Hkeep2, Hi | apply Hkeep', Hj]. }
      split; [exact Hrange'|].
      split; [intros N HN; rewrite Hcount' by exact HN; lia|].
      intros id Hid.
      destruct (Hnew' id Hid) as [H2|(e & Hin & He)];
        [|right; exists e; split; [right; exact Hin | exact He]].
      destruct (Hnew2 id H2) as [H1 | ->];
        [|right; exists edge; split; [left; reflexivity | right; reflexivity]].
      destruct (Hnew1 id H1) as [H0 | ->];
        [left; exact H0
        |right; exists edge; split; [left; reflexivity | left; reflexivity]].
Qed.

Lemma push_row_spec (row : list (Z * Z)) :
  forall r : GraphCut.csr,
    (0 <= GraphCut.edge_idx r)%Z ->
    (GraphCut.edge_idx r + Z.of_nat (length row) < 2 ^ 31)%Z ->
    GraphCut.push_row r row
    = {| GraphCut.edge_idx := GraphCut.edge_idx r + Z.of_nat (length row);
         GraphCut.xadj := GraphCut.xadj r;
         GraphCut.adjncy := GraphCut.adjncy r ++ map fst row;
         GraphCut.adjwgt := GraphCut.adjwgt r ++ map snd row |}.
Proof.
  unfold GraphCut.push_row.
  induction row as [|e row IH]; intros r H0 Hb; cbn [fold_left length map].
  - rewrite Z.add_0_r, !app_nil_r; destruct r; reflexivity.
  - cbn [length] in Hb.
    assert (Hs : GraphCut.to_int (GraphCut.edge_idx r + 1) = (GraphCut.edge_idx r + 1)%Z)
      by (apply to_int_small; lia).
    rewrite IH; cbn [GraphCut.edge_idx GraphCut.xadj GraphCut.adjncy GraphCut.adjwgt];
      rewrite ?Hs; [|lia|lia].
    rewrite <- !app_assoc; cbn [app]; f_equal; lia.
Qed.

(** The second loop of the constructor, over the vertex indices below
    [m]. *)
Lemma fill_rows_spec (adj : GraphCut.adjacency_list) (m : nat) :
  (Z.of_nat m < 2 ^ 31)%Z ->
  (Z.of_nat (GraphCut.entries_below adj m) < 2 ^ 31)%Z ->
  fold_left (GraphCut.fill_row adj) (seq 0 m)
            {| GraphCut.edge_idx := 0; GraphCut.xadj := [];
               GraphCut.adjncy := []; GraphCut.adjwgt := [] |}
  = {| GraphCut.edge_idx := Z.of_nat (GraphCut.entries_below adj m);
       GraphCut.xadj :=
         map (fun i => Z.of_nat (GraphCut.entries_below adj i)) (seq 0 m);
       GraphCut.adjncy :=
         flat_map (fun i => map fst (GraphCut.row_of adj (Z.of_nat i))) (seq 0 m);
       GraphCut.adjwgt :=
         flat_map (fun i => map snd (GraphCut.row_of adj (Z.of_nat i))) (seq 0 m) |}.
Proof.
  induction m as [|m IH]; intros Hm Hb; [reflexivity|].
  pose proof (entries_below_le adj m (S m) ltac:(lia)) as Hle.
  rewrite seq_S, fold_left_app, IH by lia; cbn [fold_left Nat.add].
  rewrite map_app, !flat_map_app; cbn [map flat_map]; rewrite !app_nil_r.
  rewrite entries_below_S in Hb |- *.
  unfold GraphCut.fill_row;
    cbn [GraphCut.edge_idx GraphCut.xadj GraphCut.adjncy GraphCut.adjwgt].
  rewrite to_int_small by lia.
  unfold GraphCut.row_of in *.
  destruct (GraphCut.lookup adj (Z.of_nat m)) as [row|].
  - rewrite push_row_spec;
      cbn [GraphCut.edge_idx GraphCut.xadj GraphCut.adjncy GraphCut.adjwgt];
      [|lia|lia].
    f_equal; lia.
  - cbn [length map]; rewrite !app_nil_r; f_equal; lia.
Qed.

Lemma length_rows (adj : GraphCut.adjacency_list) (f : Z * Z -> Z) (m : nat) :
  length (flat_map (fun i => map f (GraphCut.row_of adj (Z.of_nat i))) (seq 0 m))
  = GraphCut.entries_below adj m.
Proof.
  induction m as [|m IH]; [reflexivity|].
  rewrite seq_S, flat_map_app, length_app, IH, entries_below_S.
  cbn [flat_map Nat.add]; rewrite app_nil_r, length_map; reflexivity.
Qed.

Lemma consistent_initial : GraphCut.consistent GraphCut.initial.
Proof.
  unfold GraphCut.consistent; cbn.
  split; [reflexivity|]. split.
  - intros id idx; split; discriminate.
  - intros idx; split; [intros [id H]; discriminate | lia].
Qed.

(** The first loop of the constructor, from the empty maps. *)
Lemma add_edges_initial (edges : list (Z * Z)) (weights : list Z) :
  length edges = length weights ->
  (2 * Z.of_nat (length edges) < 2 ^ 31)%Z ->
  let g := fst (GraphCut.add_edges GraphCut.initial [] edges weights) in
  let adj := snd (GraphCut.add_edges GraphCut.initial [] edges weights) in
  let n := length (GraphCut.vertex_id_to_idx_ g) in
  GraphCut.consistent g /\
  (n <= 2 * length edges)%nat /\
  (forall id, GraphCut.lookup (GraphCut.vertex_id_to_idx_ g) id <> None <->
              exists e, In e edges /\ (fst e = id \/ snd e = id)) /\
  (forall key e, In e (GraphCut.row_of adj key) -> (0 <= fst e < Z.of_nat n)%Z) /\
  GraphCut.entries_below adj n = (2 * length edges)%nat.
Proof.
  intros Hlen Hbound.
  pose proof (add_edges_spec edges weights GraphCut.initial [] 0 Hlen
                consistent_initial) as H.
  cbv zeta in H |- *.
  destruct H as (Hc & Hn & _ & Hends & Hrange & Hcount & Hnew).
  { cbn; lia. }
  { lia. }
  { intros key e []. }
  { intros N _; clear; induction N as [|N IH]; [reflexivity|].
    rewrite entries_below_S, IH; reflexivity. }
  cbn [Nat.add] in Hn, Hcount.
  split; [exact Hc|]. split; [exact Hn|].
  split; [|split; [exact Hrange | apply Hcount; lia]].
  intros id; split.
  - intros Hid; destruct (Hnew id Hid) as [H0|He]; [|exact He].
    cbn in H0; contradiction.
  - intros (e & Hin & He).
    destruct (Hends e Hin) as (i & j & Hi & Hj).
    destruct He as [<-|<-]; congruence.
Qed.

(** With [edges] and [weights] of the same size (fewer than [2^30]
    edges) every [CHECK_EQ] of the constructor passes; the arrays it
    builds, in terms of the adjacency list of the first loop. *)
Lemma make_Ret (edges : list (Z * Z)) (weights : list Z) :
  length edges = length weights ->
  (2 * Z.of_nat (length edges) < 2 ^ 31)%Z ->
  let g := fst (GraphCut.add_edges GraphCut.initial [] edges weights) in
  let adj := snd (GraphCut.add_edges GraphCut.initial [] edges weights) in
  let n := length (GraphCut.vertex_id_to_idx_ g) in
  GraphCut.make edges weights
  = Ret {| GraphCut.vertex_id_to_idx_ := GraphCut.vertex_id_to_idx_ g;
           GraphCut.vertex_idx_to_id_ := GraphCut.vertex_idx_to_id_ g;
           GraphCut.xadj_ :=
             map (fun i => Z.of_nat (GraphCut.entries_below adj i)) (seq 0 (S n));
           GraphCut.adjncy_ :=
             flat_map (fun i => map fst (GraphCut.row_of adj (Z.of_nat i))) (seq 0 n);
           GraphCut.adjwgt_ :=
             flat_map (fun i => map snd (GraphCut.row_of adj (Z.of_nat i))) (seq 0 n);
           GraphCut.nvtxs := Z.of_nat n;
           GraphCut.nedges := (2 * Z.of_nat (length edges))%Z |}.
Proof.
  intros Hlen Hbound.
  pose proof (add_edges_initial edges weights Hlen Hbound) as H.
  cbv zeta in H |- *; unfold GraphCut.make.
  rewrite (proj2 (Nat.eqb_eq _ _) Hlen); cbn [CHECK bind].
  destruct (GraphCut.add_edges GraphCut.initial [] edges weights) as [g adj].
  cbn [fst snd] in H |- *.
  destruct H as (Hc & Hn & _ & _ & Hcn).
  set (n := length (GraphCut.vertex_id_to_idx_ g)) in *.
  rewrite fill_rows_spec by lia.
  cbn [GraphCut.edge_idx GraphCut.xadj GraphCut.adjncy GraphCut.adjwgt].
  rewrite !length_rows, Hcn.
  rewrite !to_size_t_small by lia.
  replace (Z.of_nat (2 * length edges) =? 2 * Z.of_nat (length edges))%Z with true
    by (symmetry; apply Z.eqb_eq; lia).
  rewrite length_app, length_map, length_seq; cbn [length].
  rewrite Nat.eqb_refl; cbn [CHECK bind].
  rewrite !to_int_small by lia.
  rewrite seq_S, map_app; cbn [map Nat.add]; rewrite Hcn.
  reflexivity.
Qed.

(** X28.  The constructor of [GraclusGraph], for fewer than [2^30] edges.  It
    dies exactly when [edges] and [weights] differ in size: none of the
    four [CHECK_EQ]s after the loops can fail.  The graph it builds has
    consistent vertex maps whose vertices are exactly the endpoints of
    the edges, at most two per edge, and arrays in compressed-row form:
    [xadj_] has one entry more than there are vertices, starts at 0, ends
    at [2 |edges|] and never decreases; [adjncy_] and [adjwgt_] have
    [2 |edges|] entries, and every entry of [adjncy_] is a vertex
    index. *)
Theorem GraclusGraph_constructed (edges : list (Z * Z)) (weights : list Z) :
  (2 * Z.of_nat (length edges) < 2 ^ 31)%Z ->
  (GraphCut.make edges weights = CheckFailed <-> length edges <> length weights) /\
  (length edges = length weights ->
   exists g : GraphCut.GraclusGraph,
     GraphCut.make edges weights = Ret g /\
     let n := length (GraphCut.vertex_id_to_idx_ g) in
     GraphCut.consistent g /\
     (n <= 2 * length edges)%nat /\
     GraphCut.nvtxs g = Z.of_nat n /\
     GraphCut.nedges g = (2 * Z.of_nat (length edges))%Z /\
     (forall id, GraphCut.lookup (GraphCut.vertex_id_to_idx_ g) id <> None <->
                 exists e, In e edges /\ (fst e = id \/ snd e = id)) /\
     length (GraphCut.xadj_ g) = S n /\
     length (GraphCut.adjncy_ g) = (2 * length edges)%nat /\
     length (GraphCut.adjwgt_ g) = (2 * length edges)%nat /\
     nth 0 (GraphCut.xadj_ g) 0%Z = 0%Z /\
     nth n (GraphCut.xadj_ g) 0%Z = (2 * Z.of_nat (length edges))%Z /\
     (forall i, (i < n)%nat ->
                (nth i (GraphCut.xadj_ g) 0 <= nth (S i) (GraphCut.xadj_ g) 0)%Z) /\
     (forall a, In a (GraphCut.adjncy_ g) -> (0 <= a < GraphCut.nvtxs g)%Z)).
Proof.
  intros Hbound; split.
  { destruct (Nat.eq_dec (length edges) (length weights)) as [Hlen|Hlen].
    - pose proof (make_Ret edges weights Hlen Hbound) as Hr; cbv zeta in Hr.
      rewrite Hr; split; [discriminate | contradiction].
    - unfold GraphCut.make; rewrite (proj2 (Nat.eqb_neq _ _) Hlen).
      split; [intros _; exact Hlen | reflexivity]. }
  intros Hlen.
  pose proof (make_Ret edges weights Hlen Hbound) as Hr.
  pose proof (add_edges_initial edges weights Hlen Hbound) as H.
  cbv zeta in Hr, H.
  destruct (GraphCut.add_edges GraphCut.initial [] edges weights) as [g adj].
  cbn [fst snd] in Hr, H.
  destruct H as (Hc & Hn & Hverts & Hrange & Hcn).
  eexists; split; [exact Hr|].
  cbn [GraphCut.vertex_id_to_idx_ GraphCut.vertex_idx_to_id_ GraphCut.xadj_
       GraphCut.adjncy_ GraphCut.adjwgt_ GraphCut.nvtxs GraphCut.nedges].
  set (n := length (GraphCut.vertex_id_to_idx_ g)) in *.
  assert (Hnth : forall i, (i <= n)%nat ->
                           nth i (map (fun i => Z.of_nat (GraphCut.entries_below adj i))
                                      (seq 0 (S n))) 0%Z
                           = Z.of_nat (GraphCut.entries_below adj i)).
  { intros i Hi.
    change 0%Z with ((fun i => Z.of_nat (GraphCut.entries_below adj i)) 0%nat) at 1.
    rewrite map_nth, seq_nth by lia; reflexivity. }
  split.
  { unfold GraphCut.consistent;
      cbn [GraphCut.vertex_id_to_idx_ GraphCut.vertex_idx_to_id_]; exact Hc. }
  split; [lia|].
  split; [reflexivity|].
  split; [reflexivity|].
  split; [exact Hverts|].
  split; [rewrite length_map, length_seq; reflexivity|].
  split; [rewrite length_rows; exact Hcn|].
  split; [rewrite length_rows; exact Hcn|].
  split; [rewrite Hnth by lia; reflexivity|].
  split; [rewrite Hnth, Hcn by lia; lia|].
  split.
  { intros i Hi; rewrite !Hnth by lia.
    pose proof (entries_below_le adj i (S i) ltac:(lia)); lia. }
  intros a Ha.
  apply in_flat_map in Ha as (i & _ & Ha).
  apply in_map_iff in Ha as (e & <- & He).
  exact (Hrange _ _ He).
Qed.

Lemma GraclusGraph_constructed_witness :
  (2 * Z.of_nat (length [(10, 20); (20, 30)]%Z) < 2 ^ 31)%Z /\
  GraphCut.make [(10, 20); (20, 30)]%Z [5]%Z = CheckFailed /\
  exists g : GraphCut.GraclusGraph,
    GraphCut.make [(10, 20); (20, 30)]%Z [5; 7]%Z = Ret g /\
    length (GraphCut.xadj_ g) = S (length (GraphCut.vertex_id_to_idx_ g)).
Proof.
  assert (Hb : (2 * Z.of_nat (length [(10, 20); (20, 30)]%Z) < 2 ^ 31)%Z)
    by (vm_compute; reflexivity).
  split; [exact Hb|]. split.
  - apply (proj1 (GraclusGraph_constructed [(10, 20); (20, 30)]%Z [5]%Z Hb)).
    discriminate.
  - destruct (proj2 (GraclusGraph_constructed [(10, 20); (20, 30)]%Z [5; 7]%Z Hb)
                eq_refl) as (g & Hg & H).
    exists g; split; [exact Hg | apply H].
Defined.

(** X29.  [GetVertexIdx] on consistent maps with fewer than [2^31] entries: the
    maps stay consistent; [GetVertexId] of the index it returns is the
    identifier it was called with; a second call returns the same index
    and changes nothing; the index of a vertex that was known is the one
    it had; and two identifiers have the same index only when they are
    the same. *)
Theorem GetVertexIdx_round_trip (g : GraphCut.GraclusGraph) (id : Z) :
  GraphCut.consistent g ->
  (Z.of_nat (length (GraphCut.vertex_id_to_idx_ g)) < 2 ^ 31)%Z ->
  let idx := fst (GraphCut.GetVertexIdx g id) in
  let g' := snd (GraphCut.GetVertexIdx g id) in
  GraphCut.consistent g' /\
  GraphCut.GetVertexId g' idx = Some id /\
  GraphCut.GetVertexIdx g' id = (idx, g') /\
  (forall id0 idx0,
      GraphCut.lookup (GraphCut.vertex_id_to_idx_ g) id0 = Some idx0 ->
      GraphCut.GetVertexIdx g' id0 = (idx0, g')) /\
  (forall id0, fst (GraphCut.GetVertexIdx g' id0) = idx ->
               GraphCut.lookup (GraphCut.vertex_id_to_idx_ g') id0 <> None ->
               id0 = id).
Proof.
  intros Hc Hsmall.
  destruct (GetVertexIdx_step g id Hc Hsmall) as (Hc' & Hidx & Hkeep & _ & _).
  cbv zeta in *.
  destruct (GraphCut.GetVertexIdx g id) as [idx g']; cbn [fst snd] in *.
  destruct Hc' as (Hlen & Hinv & Hdom).
  split; [split; [|split]; assumption|].
  split; [apply Hinv; exact Hidx|].
  split; [unfold GraphCut.GetVertexIdx; rewrite Hidx; reflexivity|].
  split.
  - intros id0 idx0 H0; unfold GraphCut.GetVertexIdx.
    rewrite (Hkeep _ _ H0); reflexivity.
  - intros id0 Hsame Hknown; unfold GraphCut.GetVertexIdx in Hsame.
    destruct (GraphCut.lookup (GraphCut.vertex_id_to_idx_ g') id0) as [i0|] eqn:E0;
      [|contradiction].
    cbn [fst] in Hsame; subst i0.
    apply Hinv in E0, Hidx; congruence.
Qed.

Lemma GetVertexIdx_round_trip_witness :
  let g := snd (GraphCut.GetVertexIdx GraphCut.initial 42) in
  GraphCut.GetVertexIdx g 7 = (1%Z, snd (GraphCut.GetVertexIdx g 7)) /\
  GraphCut.GetVertexId (snd (GraphCut.GetVertexIdx g 7)) 1 = Some 7%Z.
Proof.
  intros g.
  assert (Hg : GraphCut.consistent g).
  { apply (GetVertexIdx_round_trip GraphCut.initial 42 consistent_initial).
    vm_compute; reflexivity. }
  split; [reflexivity|].
  apply (GetVertexIdx_round_trip g 7 Hg); vm_compute; reflexivity.
Defined.

Lemma lookup_emplace {V : Type} (m : list (Z * V)) (k k' : Z) (v : V) :
  GraphCut.lookup (GraphCut.emplace m k v) k'
  = match GraphCut.lookup m k' with
    | Some x => Some x
    | None => if (k =? k')%Z then Some v else None
    end.
Proof.
  unfold GraphCut.emplace.
  destruct (GraphCut.lookup m k) as [x|] eqn:E.
  - destruct (GraphCut.lookup m k') as [y|] eqn:E'; [reflexivity|].
    destruct (Z.eqb_spec k k') as [->|Hne]; [congruence | reflexivity].
  - apply lookup_app.
Qed.

Section CutLabels.

Variable cut_label : nat -> Z.

(** The last loop of [ComputeNormalizedMinGraphCut], over the positions
    from [i] on, on a consistent graph with [i + length] vertices. *)
Lemma collect_labels_spec (graph : GraphCut.GraclusGraph) (count : nat) :
  forall (i : nat) (labels : list (Z * Z)),
    GraphCut.consistent graph ->
    (i + count = length (GraphCut.vertex_id_to_idx_ graph))%nat ->
    (Z.of_nat (length (GraphCut.vertex_id_to_idx_ graph)) < 2 ^ 31)%Z ->
    (forall id v, GraphCut.lookup labels id = Some v <->
                  exists idx, (idx < i)%nat /\
                              GraphCut.GetVertexId graph (Z.of_nat idx) = Some id /\
                              v = cut_label idx) ->
    exists labels',
      GraphCut.collect_labels graph (map cut_label (seq i count)) i labels
      = GraphCut.Labels labels' /\
      (forall id v, GraphCut.lookup labels' id = Some v <->
                    exists idx, (idx < i + count)%nat /\
                                GraphCut.GetVertexId graph (Z.of_nat idx) = Some id /\
                                v = cut_label idx).
Proof.
  induction count as [|count IH]; intros i labels Hc Hn Hsmall Hl;
    cbn [seq map GraphCut.collect_labels].
  - exists labels; split; [reflexivity|].
    rewrite Nat.add_0_r; exact Hl.
  - rewrite to_int_small by lia.
    destruct Hc as (Hlen & Hinv & Hdom).
    assert (Hex : exists id, GraphCut.lookup (GraphCut.vertex_idx_to_id_ graph)
                               (Z.of_nat i) = Some id) by (apply Hdom; lia).
    destruct Hex as [id Hid]; unfold GraphCut.GetVertexId at 1; rewrite Hid.
    destruct (IH (S i) (GraphCut.emplace labels id (cut_label i)))
      as (labels' & Hrun & Hspec);
      [split; [|split]; assumption | lia | exact Hsmall | |].
    + intros id0 v; rewrite lookup_emplace; split.
      * destruct (GraphCut.lookup labels id0) as [x|] eqn:E.
        -- intros H; injection H as <-.
           apply Hl in E as (idx & Hidx & Hg & Hv).
           exists idx; split; [lia | split; assumption].
        -- destruct (Z.eqb_spec id id0) as [<-|Hne]; [|discriminate].
           intros H; injection H as <-.
           exists i; split; [lia | split; [exact Hid | reflexivity]].
      * intros (idx & Hidx & Hg & ->).
        destruct (Nat.eq_dec idx i) as [->|Hne].
        -- unfold GraphCut.GetVertexId in Hg; rewrite Hid in Hg; injection Hg as <-.
           destruct (GraphCut.lookup labels id) as [x|] eqn:E.
           ++ apply Hl in E as (idx' & Hidx' & Hg' & _).
              unfold GraphCut.GetVertexId in Hg'.
              apply Hinv in Hg', Hid; rewrite Hg' in Hid; injection Hid as Hid; lia.
           ++ rewrite Z.eqb_refl; reflexivity.
        -- assert (Hold : GraphCut.lookup labels id0 = Some (cut_label idx)).
           { apply Hl; exists idx; split; [lia | split; [exact Hg | reflexivity]]. }
           rewrite Hold; reflexivity.
    + exists labels'; split; [exact Hrun|].
      intros id0 v; rewrite Hspec.
      replace (S i + count)%nat with (i + S count)%nat by lia; reflexivity.
Qed.

End CutLabels.

Section Cut.

Variable amax : Z -> Z -> Z.
Variable log2_metis : Z -> Z.
Variable MLKKM_PartGraphKway : GraphCut.GraclusGraph -> Z -> Z -> nat -> Z.

(** X30.  [ComputeNormalizedMinGraphCut] for [edges] and [weights] of the same
    size (fewer than [2^30] edges).  When [40 * log2_metis(num_parts)] is
    0 the call divides by zero.  Otherwise it returns, [at] never throws,
    and the labels it returns are those of the partitioner by vertex:
    an identifier has a label exactly when it is an endpoint of an edge,
    and its label is the one at the position of its index. *)
Theorem ComputeNormalizedMinGraphCut_labels
        (edges : list (Z * Z)) (weights : list Z) (num_parts : Z) :
  length edges = length weights ->
  (2 * Z.of_nat (length edges) < 2 ^ 31)%Z ->
  let result :=
    GraphCut.ComputeNormalizedMinGraphCut amax log2_metis MLKKM_PartGraphKway
                                          edges weights num_parts in
  (GraphCut.to_int (40 * log2_metis num_parts) = 0%Z ->
   result = GraphCut.DivisionByZero) /\
  (GraphCut.to_int (40 * log2_metis num_parts) <> 0%Z ->
   exists (graph : GraphCut.GraclusGraph) (levels : Z) (labels : list (Z * Z)),
     GraphCut.make edges weights = Ret graph /\
     result = GraphCut.Labels labels /\
     (forall id, GraphCut.lookup labels id <> None <->
                 exists e, In e edges /\ (fst e = id \/ snd e = id)) /\
     (forall id idx,
         GraphCut.lookup (GraphCut.vertex_id_to_idx_ graph) id = Some idx ->
         GraphCut.lookup labels id
         = Some (MLKKM_PartGraphKway graph num_parts levels (Z.to_nat idx)))).
Proof.
  intros Hlen Hbound; cbv zeta; unfold GraphCut.ComputeNormalizedMinGraphCut.
  pose proof (make_Ret edges weights Hlen Hbound) as Hr.
  pose proof (add_edges_initial edges weights Hlen Hbound) as H.
  cbv zeta in Hr, H.
  destruct (GraphCut.add_edges GraphCut.initial [] edges weights) as [g adj].
  cbn [fst snd] in Hr, H.
  destruct H as (Hc & Hn & Hverts & _ & _).
  rewrite Hr; set (graph := {| GraphCut.vertex_id_to_idx_ := _ |}) in *.
  assert (Hcg : GraphCut.consistent graph) by exact Hc.
  split.
  { intros ->; reflexivity. }
  intros Hd; apply Z.eqb_neq in Hd; rewrite Hd.
  set (levels := amax _ _).
  set (n := length (GraphCut.vertex_id_to_idx_ g)) in *.
  change (GraphCut.nvtxs graph) with (Z.of_nat n); rewrite Nat2Z.id.
  destruct (collect_labels_spec (MLKKM_PartGraphKway graph num_parts levels)
              graph n 0 [] Hcg) as (labels & Hrun & Hspec).
  { reflexivity. }
  { change (length (GraphCut.vertex_id_to_idx_ graph)) with n; lia. }
  { intros id v; split; [discriminate | intros (idx & Hidx & _); lia]. }
  exists graph, levels, labels.
  split; [reflexivity|]. split; [exact Hrun|].
  destruct Hcg as (_ & Hinv & Hdom).
  cbn [Nat.add] in Hspec.
  assert (Hlabel : forall id idx,
             GraphCut.lookup (GraphCut.vertex_id_to_idx_ graph) id = Some idx ->
             GraphCut.lookup labels id
             = Some (MLKKM_PartGraphKway graph num_parts levels (Z.to_nat idx))).
  { intros id idx Hl.
    assert (Hrange : (0 <= idx < Z.of_nat n)%Z).
    { apply Hdom; exists id; apply Hinv; exact Hl. }
    apply Hspec; exists (Z.to_nat idx); split; [lia|].
    split; [|reflexivity].
    unfold GraphCut.GetVertexId; rewrite Z2Nat.id by lia; apply Hinv; exact Hl. }
  split; [|exact Hlabel].
  intros id; rewrite <- Hverts.
  change (GraphCut.vertex_id_to_idx_ g) with (GraphCut.vertex_id_to_idx_ graph).
  split.
  - destruct (GraphCut.lookup labels id) as [v|] eqn:E; [|contradiction].
    intros _; apply Hspec in E as (idx & _ & Hg & _).
    unfold GraphCut.GetVertexId in Hg; apply Hinv in Hg; congruence.
  - destruct (GraphCut.lookup (GraphCut.vertex_id_to_idx_ graph) id) as [idx|] eqn:E;
      [|contradiction].
    intros _; rewrite (Hlabel id idx E); discriminate.
Qed.

End Cut.

Lemma ComputeNormalizedMinGraphCut_labels_witness :
  let partition := fun (_ : GraphCut.GraclusGraph) (_ _ : Z) (idx : nat) =>
                     Z.of_nat (idx mod 2) in
  exists labels : list (Z * Z),
    GraphCut.ComputeNormalizedMinGraphCut Z.max (fun _ => 1%Z) partition
      [(10, 20); (20, 30)]%Z [5; 7]%Z 2
    = GraphCut.Labels labels /\
    GraphCut.lookup labels 30 <> None.
Proof.
  intros partition.
  assert (Hb : (2 * Z.of_nat (length [(10, 20); (20, 30)]%Z) < 2 ^ 31)%Z)
    by (vm_compute; reflexivity).
  destruct (proj2 (ComputeNormalizedMinGraphCut_labels Z.max (fun _ => 1%Z) partition
                     [(10, 20); (20, 30)]%Z [5; 7]%Z 2 eq_refl Hb))
    as (graph & levels & labels & _ & Hl & Hkeys & _).
  { vm_compute; discriminate. }
  exists labels; split; [exact Hl|].
  apply Hkeys; exists (20, 30)%Z; split; [right; left; reflexivity | right; reflexivity].
Defined.
